(** * sumu / gadget.py: the Gadget pipeline, its local scores and its score handler

    A shallow embedding of [src/sumu/gadget.py]:
    - [Data]: the constructor and the arities of the variables;
    - [LocalScore]: the prior-augmented local score, its checked entry point
      and the two score tables;
    - [Score]: the handler that merges the candidate-restricted and the
      candidate-complement caches ([sum], [sample_pset], [sample_DAG]);
    - [Gadget]: set-up of the complement cache, of the (tempered) samplers, and
      the burn-in / thinning loop with its progress reports.

    Python floats are kept abstract behind the interface [FloatOps]; the facts
    about IEEE arithmetic that a proof relies on are listed in [FloatLaws] and
    appear as explicit hypotheses.  [LogQ] is an exact, executable instance on
    which the definitions can be run.  The temperatures of the samplers have
    the interface [TempOps], with Rocq's binary64 floats as the instance. *)

From Stdlib Require Import ZArith Lia.
From Stdlib Require PrimFloat.
From stdpp Require Import base numbers strings list gmap sets sorting.

Set Default Proof Using "Type".

(* ===================================================================== *)
(** ** Floats *)
(* ===================================================================== *)

(** The float operations the module uses.  Values are compared the way
    Python's [==] compares them. *)
Class FloatOps (float : Type) := {
  neg_inf : float;                        (* -float("inf") *)
  fzero : float;                          (* the literal 0 used as a float *)
  fadd : float → float → float;           (* x + y *)
  fsub : float → float → float;           (* x - y *)
  fneg : float → float;                   (* -x *)
  flt : float → float → bool;             (* x < y *)
  logaddexp : float → float → float;      (* np.logaddexp(x, y) *)
  flog_nat : nat → float;                 (* np.log(float(k)) *)
  is_finite : float → bool;               (* neither infinite nor nan *)
}.

(** Facts of IEEE arithmetic and of numpy's [logaddexp]. *)
Class FloatLaws (float : Type) `{FloatOps float} : Prop := {
  logaddexp_neg_inf_l : ∀ x, is_finite x = true → logaddexp neg_inf x = x;
  logaddexp_comm : ∀ x y, logaddexp x y = logaddexp y x;
  fsub_diag : ∀ x, is_finite x = true → fsub x x = fzero;
  fneg_pos_lt_zero : ∀ e, flt fzero e = true → flt (fneg e) fzero = true;
}.

(** An exact model of log-domain arithmetic: a finite value [x] is stored as
    the positive rational [exp x], minus infinity as [log 0].  Sums of
    log-scores are products, [logaddexp] is the sum of the rationals, and the
    logarithm of a positive integer is that integer. *)
Module LogQ.

Inductive t := NaN | NegInf | Fin (q : Qp) | PosInf.

Definition add (x y : t) : t :=
    match x, y with
    | NaN, _ | _, NaN => NaN
    | NegInf, PosInf | PosInf, NegInf => NaN
    | NegInf, _ | _, NegInf => NegInf
    | PosInf, _ | _, PosInf => PosInf
    | Fin a, Fin b => Fin (a * b)
    end.

Definition neg (x : t) : t :=
    match x with
    | NaN => NaN
    | NegInf => PosInf
    | PosInf => NegInf
    | Fin a => Fin (/ a)
    end.

Definition sub (x y : t) : t := add x (neg y).

Definition lt (x y : t) : bool :=
    match x, y with
    | NaN, _ | _, NaN => false
    | _, NegInf => false
    | NegInf, _ => true
    | PosInf, _ => false
    | Fin _, PosInf => true
    | Fin a, Fin b => bool_decide (a < b)%Qp
    end.

Definition lae (x y : t) : t :=
    match x, y with
    | NaN, _ | _, NaN => NaN
    | PosInf, _ | _, PosInf => PosInf
    | NegInf, z | z, NegInf => z
    | Fin a, Fin b => Fin (a + b)
    end.

Definition log_nat (k : nat) : t :=
    match k with
    | O => NegInf
    | S _ => Fin (pos_to_Qp (Pos.of_nat k))
    end.

Definition finite (x : t) : bool :=
    match x with Fin _ => true | _ => false end.

  (** [log q], for a ratio of two positive integers. *)
Definition log_ratio (a b : positive) : t := Fin (pos_to_Qp a / pos_to_Qp b).

End LogQ.

#[export] Instance LogQ_ops : FloatOps LogQ.t := {|
  neg_inf := LogQ.NegInf;
  fzero := LogQ.Fin 1;
  fadd := LogQ.add;
  fsub := LogQ.sub;
  fneg := LogQ.neg;
  flt := LogQ.lt;
  logaddexp := LogQ.lae;
  flog_nat := LogQ.log_nat;
  is_finite := LogQ.finite;
|}.

(** The temperature of a sampler is a Python float as well.  The module
    makes temperatures by one division and never combines them with a
    score, so they are kept as a type of their own: [truediv i j] is the
    quotient [i / j] of two ints as Python rounds it (for [j] other than 0),
    [t_zero] and [t_one] are [0.0] and [1.0], and [tlt] is [<]. *)
Class TempOps (temp : Type) := {
  truediv : Z → Z → temp;
  t_zero : temp;
  t_one : temp;
  tlt : temp → temp → bool;
}.

Definition tle `{TempOps temp} (a b : temp) : Prop := a = b ∨ tlt a b = true.

(** The facts about the quotients by [m] that a proof relies on.  They hold
    of binary64 for [0 < m < 2^53]: the quotient of two such ints is the
    correctly rounded one, [0/m] and [m/m] are exact, and two quotients
    that lie [1/m] or more apart are not rounded to the same float. *)
Definition truediv_ladder `{TempOps temp} (m : Z) : Prop :=
  truediv 0 m = t_zero
  ∧ truediv m m = t_one
  ∧ ∀ i j, (0 ≤ i < j)%Z → (j ≤ m)%Z → tlt (truediv i m) (truediv j m) = true.

(** The same facts as a test that can be run. *)
Definition ladder_pairs `{TempOps temp} (m : Z) : bool :=
  forallb (λ i, forallb (λ j, tlt (truediv i m) (truediv j m))
                        (seqZ (i + 1) (m - i)))
          (seqZ 0 m).

(** Rocq's primitive floats are the binary64 numbers of IEEE 754, as
    Python's floats are.  [of_Z] is exact below [2^53] in magnitude, and on
    such ints Python's [i / j] is the IEEE quotient of the two floats. *)
Module Binary64.

Fixpoint of_pos (p : positive) : PrimFloat.float :=
  match p with
  | xH => PrimFloat.one
  | xO p' => PrimFloat.mul PrimFloat.two (of_pos p')
  | xI p' => PrimFloat.add (PrimFloat.mul PrimFloat.two (of_pos p')) PrimFloat.one
  end.

Definition of_Z (z : Z) : PrimFloat.float :=
  match z with
  | Z0 => PrimFloat.zero
  | Zpos p => of_pos p
  | Zneg p => PrimFloat.opp (of_pos p)
  end.

Definition truediv (i j : Z) : PrimFloat.float := PrimFloat.div (of_Z i) (of_Z j).

End Binary64.

#[export] Instance Binary64_temps : TempOps PrimFloat.float := {|
  truediv := Binary64.truediv;
  t_zero := PrimFloat.zero;
  t_one := PrimFloat.one;
  tlt := PrimFloat.ltb;
|}.

(* ===================================================================== *)
(** ** Exceptions and results *)
(* ===================================================================== *)

Inductive exn :=
| IndexError (msg : string)
| ValueError (msg : string)
| KeyError (key : nat)
| AttributeError (msg : string)
| UnboundLocalError (msg : string)
| ZeroDivisionError (msg : string).

Inductive result (A : Type) :=
| Ok (a : A)
| Raise (e : exn).
Arguments Ok {A} a.
Arguments Raise {A} e.

(* ===================================================================== *)
(** ** utils: binomial coefficients and the bitmap codec *)
(* ===================================================================== *)

(** Modelled from the spec: [utils.math_utils.comb] is not part of the
    sources at hand; [comb n k] is the binomial coefficient C(n, k) that the
    fair prior divides by. *)
Fixpoint comb (n k : nat) : nat :=
  match k, n with
  | O, _ => 1
  | S _, O => 0
  | S k', S n' => comb n' k' + comb n' k
  end.

(** Modelled from the spec: [utils.bitmap.bm] is not part of the sources at
    hand.  With [idx] given, the mask is relative to the local index space
    of a node: bit [i] of the mask stands for [idx[i]]. *)
Fixpoint bm (ints : gset nat) (idx : list nat) : N :=
  match idx with
  | [] => 0
  | c :: idx' => ((if bool_decide (c ∈ ints) then 1 else 0) + 2 * bm ints idx')%N
  end.

(** Modelled from the spec: [utils.bitmap.bm_to_ints] is not part of the
    sources at hand; it lists the positions of the set bits of a mask, in
    increasing order. *)
Definition bm_to_ints (mask : N) : list nat :=
  filter (λ i, N.testbit mask (N.of_nat i) = true) (seq 0 (N.to_nat (N.size mask))).

(* ===================================================================== *)
(** ** builtins and utils used by the score tables *)
(* ===================================================================== *)

(** [bin(i).count("1")] *)
Fixpoint popcount_pos (p : positive) : nat :=
  match p with
  | xH => 1
  | xO p' => popcount_pos p'
  | xI p' => S (popcount_pos p')
  end.

Definition popcount (i : N) : nat :=
  match i with
  | N0 => 0
  | Npos p => popcount_pos p
  end.

(** [itertools.combinations(l, k)], in its order. *)
Fixpoint combinations {A} (k : nat) (l : list A) : list (list A) :=
  match k, l with
  | O, _ => [[]]
  | S _, [] => []
  | S k', x :: l' => map (cons x) (combinations k' l') ++ combinations k l'
  end.

(** [list(map(f, l))] for an [f] that may raise. *)
Fixpoint collect {A B} (f : A → result B) (l : list A) : result (list B) :=
  match l with
  | [] => Ok []
  | x :: l' =>
      match f x with
      | Raise e => Raise e
      | Ok y => match collect f l' with
                | Raise e => Raise e
                | Ok ys => Ok (y :: ys)
                end
      end
  end.

(** The parent set that a local mask stands for, in the order of its bits:
    [C[v][i] for i in bm_to_ints(mask)]. *)
Definition mask_pset (row : list nat) (mask : N) : list Z :=
  omap (λ i, Z.of_nat <$> row !! i) (bm_to_ints mask).

(* ===================================================================== *)
(** ** class LocalScore *)
(* ===================================================================== *)

Module LocalScore.
Section LocalScore.
Context {float : Type} `{FloatOps float}.

  (** The keys of [self.priorf]. *)
Inductive prior_name := fair | unif.

  (** The attributes of a [LocalScore] object that [local] and [_local] read.
      [scorer_local] is the external oracle [self.scorer.local]; [_prior] is
      [None] when the attribute was never assigned. *)
Record t := {
    data_n : nat;
    prior : prior_name;
    maxid : Z;
    _prior : option (list float);
    scorer_local : Z → list Z → float;
  }.

Definition _precompute_prior (n : nat) (p : prior_name) : option (list float) :=
    match p with
    | fair => Some (map (λ k, fneg (flog_nat (comb (n - 1) k))) (seq 0 n))
    | unif => None
    end.

  (** [__init__], with the scorer already selected. *)
Definition init (n : nat) (p : prior_name) (mid : Z)
      (scorer : Z → list Z → float) : t :=
    {| data_n := n; prior := p; maxid := mid;
       _prior := _precompute_prior n p; scorer_local := scorer |}.

Definition _prior_fair (ls : t) (indegree : nat) : result float :=
    match _prior ls with
    | None => Raise (AttributeError "_prior")
    | Some table =>
        match table !! indegree with
        | Some x => Ok x
        | None => Raise (IndexError "index out of bounds")
        end
    end.

Definition _prior_unif (ls : t) (indegree : nat) : result float := Ok fzero.

Definition priorf (ls : t) (name : prior_name) : nat → result float :=
    match name with
    | fair => _prior_fair ls
    | unif => _prior_unif ls
    end.

Definition _local (ls : t) (v : Z) (pset : list Z) : result float :=
    match priorf ls (prior ls) (length pset) with
    | Ok p => Ok (fadd (scorer_local ls v pset) p)
    | Raise e => Raise e
    end.

  (** Python's [min] and [max] over a non-empty sequence [x :: xs]. *)
Definition py_min (x : Z) (xs : list Z) : Z := foldl Z.min x xs.
Definition py_max (x : Z) (xs : list Z) : Z := foldl Z.max x xs.

Definition local (ls : t) (v : Z) (pset : list Z) : result float :=
    if bool_decide (v ∈ pset) then
      Raise (IndexError "Attempting to query score for (v, pset) where v \in pset")
    else if bool_decide (0 ≤ v < Z.of_nat (data_n ls))%Z && bool_decide (length pset = 0) then
      _local ls v pset
    else
      match pset with
      | [] => Raise (ValueError "min() arg is an empty sequence")
      | p :: ps =>
          if bool_decide (Z.min v (py_min p ps) < 0)%Z
             || bool_decide (Z.of_nat (data_n ls) ≤ Z.max v (py_max p ps))%Z
          then Raise (IndexError
            "Attempting to query score for (v, pset) where some variables don't exist in data")
          else _local ls v pset
      end.

(** The candidates that [all_candidate_restricted_scores] takes when called
    with [C=None]: for every node all the other nodes. *)
Definition all_others (n : nat) : list (list nat) :=
  map (λ i, filter (λ j, j ≠ i) (seq 0 n)) (seq 0 n).

(** [all_candidate_restricted_scores].  [scorer_table C] is the array that
    [self.scorer.all_candidate_restricted_scores(C)] returns, of shape
    [(len(C), 2**K)]; the result is given by rows. *)
Definition all_candidate_restricted_scores (ls : t)
    (scorer_table : list (list nat) → nat → N → float)
    (C : option (list (list nat))) : result (list (list float)) :=
  let C := match C with Some C' => C' | None => all_others (data_n ls) end in
  match C with
  | [] => Raise (IndexError "index 0 is out of bounds for axis 0 with size 0")
  | row0 :: _ =>
      let indegrees := map (λ i, popcount (N.of_nat i)) (seq 0 (2 ^ length row0)) in
      match collect (priorf ls (prior ls)) indegrees with
      | Raise e => Raise e
      | Ok penalties =>
          Ok (map (λ v, imap (λ i p, fadd (scorer_table C v (N.of_nat i)) p) penalties)
                  (seq 0 (length C)))
      end
  end.

(** The arrays that [complementary_scores] returns: [rows] is their
    allocated first dimension, [psets] and [scores] hold the rows written so
    far (the rows after them are left as [np.empty] made them). *)
Record complementary (W : Type) := {
  rows : nat;
  psets : list W;
  scores : list float;
}.
Arguments rows {W} _.
Arguments psets {W} _.
Arguments scores {W} _.

(** The loop of [complementary_scores] over the remaining parent sets. *)
Fixpoint complementary_loop {W} (ls : t) (to_np64 : gset nat → Z → W) (v : nat)
    (C : list (list nat)) (k : Z) (allocated : nat) (todo : list (list nat))
    (i : nat) (psets_ : list W) (scores_ : list float) : result (complementary W) :=
  match todo with
  | [] => Ok {| rows := allocated; psets := psets_; scores := scores_ |}
  | pset :: todo' =>
      match C !! v with
      | None => Raise (KeyError v)
      | Some row =>
          if bool_decide (list_to_set pset ⊆@{gset nat} list_to_set row) then
            complementary_loop ls to_np64 v C k allocated todo' i psets_ scores_
          else
            match _local ls (Z.of_nat v) (Z.of_nat <$> pset) with
            | Raise e => Raise e
            | Ok score =>
                if bool_decide (i < allocated) then
                  complementary_loop ls to_np64 v C k allocated todo' (S i)
                    (psets_ ++ [to_np64 (list_to_set pset) k]) (scores_ ++ [score])
                else Raise (IndexError "index out of bounds")
            end
      end
  end.

(** [complementary_scores(v, C, d)] for [C] with the keys [0 .. len(C)-1].
    [to_np64 s k] stands for [bm_to_np64(bm(s), k=k)], and [subsets] for
    [utils.math_utils.subsets], which is not part of the sources at hand and
    is left as it is called. *)
Definition complementary_scores {W} (ls : t) (to_np64 : gset nat → Z → W)
    (subsets : list nat → nat → nat → list (list nat)) (v : nat)
    (C : list (list nat)) (d : nat) : result (complementary W) :=
  match C !! 0 with
  | None => Raise (KeyError 0)
  | Some row0 =>
      let K := length row0 in
      let k := ((Z.of_nat (data_n ls) - 1) `div` 64 + 1)%Z in
      let size :=
        foldr Z.add 0%Z
          (map (λ k', Z.of_nat (comb (data_n ls - 1) k') - Z.of_nat (comb K k'))%Z
               (seq 0 (S d))) in
      if bool_decide (size < 0)%Z then
        Raise (ValueError "negative dimensions are not allowed")
      else
        complementary_loop ls to_np64 v C k (Z.to_nat size)
          (subsets (filter (λ u, u ≠ v) (seq 0 (length C))) 1 d) 0 [] []
  end.

End LocalScore.
Arguments t float : clear implicits.
Arguments complementary float W : clear implicits.
Arguments rows {float W} _.
Arguments psets {float W} _.
Arguments scores {float W} _.
End LocalScore.


(* ===================================================================== *)
(** ** The world the score handler runs in *)
(* ===================================================================== *)

Section World.
Context {float : Type}.

(** Calls that leave [Score] for one of the two caches. *)
Inductive event :=
| CRSum (v : nat) (U_bm : N) (T_bm : option N)
| CRSamplePset (v : nat) (U_bm T_bm : N) (threshold : float)
| CCSum (v : nat) (U T : gset nat) (W_prime : option float)
| CCSamplePset (v : nat) (U T : gset nat) (threshold : float).

Definition is_cc_event (e : event) : bool :=
  match e with CCSum _ _ _ _ | CCSamplePset _ _ _ _ => true | _ => false end.

(** [rng k] is the value of the [k]-th call of [np.random.exponential()] made
    by the handler, [drawn] counts those calls, and [calls] logs the cache
    queries in the order they are made. *)
Record world := {
  rng : nat → float;
  drawn : nat;
  calls : list event;
}.

(** State and exceptions; the state survives an exception. *)
Definition M (A : Type) : Type := world → result A * world.

Definition ret {A} (a : A) : M A := λ w, (Ok a, w).

Definition raise {A} (e : exn) : M A := λ w, (Raise e, w).

Definition bind {A B} (m : M A) (k : A → M B) : M B :=
  λ w, match m w with
       | (Ok a, w') => k a w'
       | (Raise e, w') => (Raise e, w')
       end.

(** The world after [k] more draws and the further calls [es]. *)
Definition after (w : world) (k : nat) (es : list event) : world :=
  {| rng := rng w; drawn := drawn w + k; calls := calls w ++ es |}.

Definition np_random_exponential : M float :=
  λ w, (Ok (rng w (drawn w)), after w 1 []).

Definition log_call (e : event) : M unit :=
  λ w, (Ok tt, after w 0 [e]).

(** [sequence_M f xs] runs [f] on the elements of [xs] from left to right and
    collects the results. *)
Fixpoint sequence_M {A B} (f : A → M B) (xs : list A) : M (list B) :=
  match xs with
  | [] => ret []
  | x :: xs' => bind (f x) (λ b, bind (sequence_M f xs') (λ bs, ret (b :: bs)))
  end.

End World.
Arguments event float : clear implicits.
Arguments world float : clear implicits.
Arguments M float A : clear implicits.

#[export] Instance M_ret {float} : MRet (M float) := @ret float.
#[export] Instance M_bind {float} : MBind (M float) := λ A B k m, bind m k.

(* ===================================================================== *)
(** ** class Score *)
(* ===================================================================== *)

Module Score.
Section Score.
Context {float : Type} `{FloatOps float}.

(** [weight_sum.CandidateRestrictedScore]: an external collaborator, taken as
    the functions its two methods compute.  [T_bm = None] is the call
    [sum(v, U_bm)] that omits the third argument. *)
Record CandidateRestrictedScore := {
  cr_sum : nat → N → option N → float;
  cr_sample_pset : nat → N → N → float → N;
}.

(** [weight_sum.CandidateComplementScore], likewise.  [cc_sum] is the answer
    to [sum(v, U, T)], the weight [W_complement] of the parent sets outside
    the candidates. *)
Record CandidateComplementScore := {
  cc_sum : nat → gset nat → gset nat → float;
  cc_sample_pset : nat → gset nat → gset nat → float → gset nat * float;
}.

(** The attributes of a [Score] object.  [C] has one row of candidate parents
    per node, [score_array] is the precomputed table of local scores indexed
    by node and local mask. *)
Record t := {
  C : list (list nat);
  score_array : nat → N → float;
  c_r_score : CandidateRestrictedScore;
  c_c_score : option CandidateComplementScore;
}.

Definition n (self : t) : nat := length (C self).

Definition family : Type := nat * gset nat.

(** [self.C[v]] *)
Definition C_row (self : t) (v : nat) : M float (list nat) :=
  match C self !! v with
  | Some row => mret row
  | None => raise (KeyError v)
  end.

Definition c_r_score_sum (self : t) (v : nat) (U_bm : N) (T_bm : option N) : M float float :=
  log_call (CRSum v U_bm T_bm);;
  mret (cr_sum (c_r_score self) v U_bm T_bm).

Definition c_r_score_sample_pset (self : t) (v : nat) (U_bm T_bm : N) (thr : float) : M float N :=
  log_call (CRSamplePset v U_bm T_bm thr);;
  mret (cr_sample_pset (c_r_score self) v U_bm T_bm thr).

(** Modelled from the spec: [weight_sum.CandidateComplementScore.sum] is not
    part of the sources at hand.  Called with a fourth argument [W_prime] it
    combines that weight with its own, [logaddexp(W_prime, W_complement)];
    [W_prime = None] is the call [sum(v, U, T)] that omits the argument and
    answers [W_complement]. *)
Definition c_c_score_sum (cc : CandidateComplementScore) (v : nat) (U T : gset nat)
    (W_prime : option float) : M float float :=
  log_call (CCSum v U T W_prime);;
  mret (match W_prime with
        | Some W => logaddexp W (cc_sum cc v U T)
        | None => cc_sum cc v U T
        end).

Definition c_c_score_sample_pset (cc : CandidateComplementScore) (v : nat) (U T : gset nat)
    (thr : float) : M float (gset nat * float) :=
  log_call (CCSamplePset v U T thr);;
  mret (cc_sample_pset cc v U T thr).

(** The weight of the candidate-restricted part, as both [sum] and
    [sample_pset] compute it (their [W_prime] and [w_crs]). *)
Definition restricted_weight (self : t) (v : nat) (T : gset nat) (U_bm T_bm : N) : M float float :=
  if bool_decide (0 < size T) then
    if bool_decide (T_bm = 0%N) then mret neg_inf
    else c_r_score_sum self v U_bm (Some T_bm)
  else c_r_score_sum self v U_bm None.

Definition sum (self : t) (v : nat) (U T : gset nat) : M float float :=
  row ← C_row self v;
  let U_bm := bm (U ∩ list_to_set row) row in
  let T_bm := bm (T ∩ list_to_set row) row in
  W_prime ← restricted_weight self v T U_bm T_bm;
  match c_c_score self with
  | None => mret W_prime
  | Some cc =>
      if bool_decide (U ⊆ list_to_set row) then mret W_prime
      else if bool_decide (0 < size T) then c_c_score_sum cc v U T (Some W_prime)
      else c_c_score_sum cc v U U (Some W_prime)
  end.

(** [set(self.C[v][i] for i in ints)] *)
Fixpoint C_members (row : list nat) (ints : list nat) : M float (gset nat) :=
  match ints with
  | [] => mret ∅
  | i :: ints' =>
      match row !! i with
      | None => raise (IndexError "tuple index out of range")
      | Some u => rest ← C_members row ints'; mret ({[u]} ∪ rest)
      end
  end.

Definition sample_pset (self : t) (v : nat) (U T : gset nat) : M float (family * float) :=
  row ← C_row self v;
  let U_bm := bm (U ∩ list_to_set row) row in
  let T_bm := bm (T ∩ list_to_set row) row in
  w_crs ← restricted_weight self v T U_bm T_bm;
  w_ccs ← match c_c_score self with
           | Some cc =>
               if negb (bool_decide (U ⊆ list_to_set row)) then
                 if bool_decide (0 < size T) then c_c_score_sum cc v U T None
                 else c_c_score_sum cc v U U None
               else mret neg_inf
           | None => mret neg_inf
           end;
  E ← np_random_exponential;
  if flt (fneg E) (fsub w_crs (logaddexp w_ccs w_crs)) then
    E' ← np_random_exponential;
    pset ← c_r_score_sample_pset self v U_bm T_bm (fsub w_crs E');
    let family_score := score_array self v pset in
    parents ← C_members row (bm_to_ints pset);
    mret ((v, parents), family_score)
  else
    match c_c_score self with
    | None => raise (AttributeError "'NoneType' object has no attribute 'sample_pset'")
    | Some cc =>
        E' ← np_random_exponential;
        '(pset, family_score) ←
           (if bool_decide (0 < size T)
            then c_c_score_sample_pset cc v U T (fsub w_ccs E')
            else c_c_score_sample_pset cc v U U (fsub w_ccs E'));
        mret ((v, pset), family_score)
    end.

(** The inner loop [for i in range(len(R)): if v in R[i]: break], started at
    index [i]; [bound] is the value the variable [i] holds when the loop is
    entered, if it holds one. *)
Fixpoint find_block (v : nat) (blocks : list (gset nat)) (i : nat) (bound : option nat)
    : option nat :=
  match blocks with
  | [] => bound
  | B :: rest =>
      if bool_decide (v ∈ B) then Some i else find_block v rest (S i) (Some i)
  end.

(** One turn of the outer loop of [sample_DAG], after [i] has been found. *)
Definition sample_family (self : t) (R : list (gset nat)) (v i : nat) : M float (family * float) :=
  if bool_decide (i = 0) then
    family_score ← sum self v ∅ ∅;
    mret ((v, ∅), family_score)
  else
    let U := ⋃ (take i R) in
    match R !! (i - 1) with
    | None => raise (IndexError "list index out of range")
    | Some T => sample_pset self v U T
    end.

(** The outer loop over the remaining nodes [vs], carrying the local
    variables [i], [DAG] and [DAG_score]. *)
Fixpoint sample_DAG_loop (self : t) (R : list (gset nat)) (vs : list nat)
    (i : option nat) (DAG : list family) (DAG_score : float)
    : M float (list family * float) :=
  match vs with
  | [] => mret (DAG, DAG_score)
  | v :: vs' =>
      match find_block v R 0 i with
      | None => raise (UnboundLocalError "local variable 'i' referenced before assignment")
      | Some i' =>
          '(fam, family_score) ← sample_family self R v i';
          sample_DAG_loop self R vs' (Some i') (DAG ++ [fam]) (fadd DAG_score family_score)
      end
  end.

Definition sample_DAG (self : t) (R : list (gset nat)) : M float (list family * float) :=
  sample_DAG_loop self R (seq 0 (n self)) None [] fzero.

(** One whole turn of the outer loop, entered with [i] unbound. *)
Definition sample_DAG_turn (self : t) (R : list (gset nat)) (v : nat) : M float (family * float) :=
  match find_block v R 0 None with
  | None => raise (UnboundLocalError "local variable 'i' referenced before assignment")
  | Some i => sample_family self R v i
  end.

(** The valid states of the sampler: an ordered partition of the [n]
    variables into non-empty, pairwise disjoint blocks. *)
Definition ordered_partition (n : nat) (R : list (gset nat)) : Prop :=
  (∀ B, B ∈ R → B ≠ ∅)
  ∧ (∀ i j Bi Bj, R !! i = Some Bi → R !! j = Some Bj → i ≠ j → Bi ## Bj)
  ∧ (∀ v, v < n ↔ ∃ B, B ∈ R ∧ v ∈ B).

End Score.
Arguments CandidateRestrictedScore float : clear implicits.
Arguments CandidateComplementScore float : clear implicits.
Arguments t float : clear implicits.
End Score.


(* ===================================================================== *)
(** ** class Gadget *)
(* ===================================================================== *)

Module Gadget.
Section Gadget.
Context {float : Type} `{FloatOps float}.
Context {temp : Type} `{TempOps temp}.

(** The entries of [self.params] that the modelled methods read. *)
Record params := {
  K : Z;
  d : Z;
  mc3 : Z;
  burn_in : Z;
  iterations : Z;
  thinning : Z;
  score_sum_eps : float;
  stats_period : float;
}.

(** The attributes of a [Gadget] object once candidate parents and the
    candidate-restricted structures have been computed.  [_logfile] is the
    truth value of [self._logfile], which the run tests before it reports;
    [__init__] stores a file object there unless it is given another
    object as [logfile]. *)
Record t := {
  prm : params;
  data_n : nat;
  C : list (list nat);
  score_array : nat → N → float;
  c_r_score : Score.CandidateRestrictedScore float;
  _logfile : bool;
}.

(** [_precompute_candidate_complement_scoring]: the value it leaves in
    [self.c_c_score].  [scorer] is the oracle of the re-created [LocalScore]
    and [CandidateComplementScore] the external constructor. *)
Definition _precompute_candidate_complement_scoring (self : t)
    (scorer : Z → list Z → float)
    (CandidateComplementScore :
       LocalScore.t float → list (list nat) → Z → float → Score.CandidateComplementScore float)
    : option (Score.CandidateComplementScore float) :=
  if bool_decide (K (prm self) < Z.of_nat (data_n self) - 1)%Z then
    let l_score := LocalScore.init (data_n self) LocalScore.fair (d (prm self)) scorer in
    Some (CandidateComplementScore l_score (C self) (d (prm self)) (score_sum_eps (prm self)))
  else None.

(** A [mcmc.PartitionMCMC] object, as the arguments it was built from; the
    temperature is [None] when the keyword is left out. *)
Record PartitionMCMC := {
  pm_C : list (list nat);
  pm_score : Score.t float;
  pm_d : Z;
  temperature : option temp;
}.

(** The value of [self.mcmc]. *)
Inductive mcmc :=
| MC3 (chains : list PartitionMCMC)
| Single (chain : PartitionMCMC).

(** [_init_mcmc]: the values it leaves in [self.score] and [self.mcmc]. *)
Definition _init_mcmc (self : t) (c_c_score : option (Score.CandidateComplementScore float))
    : Score.t float * mcmc :=
  let score := {| Score.C := C self;
                  Score.score_array := score_array self;
                  Score.c_r_score := c_r_score self;
                  Score.c_c_score := c_c_score |} in
  (score,
   if bool_decide (1 < mc3 (prm self))%Z then
     MC3 (map (λ i, {| pm_C := C self; pm_score := score; pm_d := d (prm self);
                       temperature := Some (truediv i (mc3 (prm self) - 1)) |})
              (seqZ 0 (mc3 (prm self))))
   else
     Single {| pm_C := C self; pm_score := score; pm_d := d (prm self);
               temperature := None |}).

(** What [_run_mcmc] prints to the log file. *)
Inductive report :=
| StatsTitle          (* the two title lines of [print_stats_title] *)
| Stats (i : Z)       (* the lines of [print_stats(i, ...)] *)
| SamplingDAGs.       (* "Sampling DAGs..." *)

(** The state of a run of [_run_mcmc]: [mcmc_sample_0 k] is the partition
    that the [k]-th call of [self.mcmc.sample()] returns at index 0,
    [sampled] counts those calls, [handler] is the world of [self.score],
    [time_time_0 k] is the [k]-th reading of [time.time()], [timed] counts
    the readings and [printed] is what the log file has received. *)
Record run_state := {
  mcmc_sample_0 : nat → list (gset nat);
  sampled : nat;
  handler : world float;
  time_time_0 : nat → float;
  timed : nat;
  printed : list report;
}.

(** [s'] differs from [s] in the clock and the log file at most. *)
Definition only_reported (s s' : run_state) : Prop :=
  mcmc_sample_0 s' = mcmc_sample_0 s
  ∧ sampled s' = sampled s
  ∧ handler s' = handler s.

Definition G (A : Type) : Type := run_state → result A * run_state.

Definition G_ret {A} (a : A) : G A := λ s, (Ok a, s).

Definition G_raise {A} (e : exn) : G A := λ s, (Raise e, s).

Definition G_bind {A B} (m : G A) (k : A → G B) : G B :=
  λ s, match m s with
       | (Ok a, s') => k a s'
       | (Raise e, s') => (Raise e, s')
       end.

#[export] Instance G_mret : MRet G := @G_ret.
#[export] Instance G_mbind : MBind G := λ A B k m, G_bind m k.

(** [self.mcmc.sample()[0]] *)
Definition mcmc_sample : G (list (gset nat)) :=
  λ s, (Ok (mcmc_sample_0 s (sampled s)),
        {| mcmc_sample_0 := mcmc_sample_0 s; sampled := S (sampled s);
           handler := handler s; time_time_0 := time_time_0 s; timed := timed s;
           printed := printed s |}).

(** A call into [self.score]. *)
Definition in_handler {A} (m : M float A) : G A :=
  λ s, match m (handler s) with
       | (r, w) => (r, {| mcmc_sample_0 := mcmc_sample_0 s; sampled := sampled s;
                          handler := w; time_time_0 := time_time_0 s;
                          timed := timed s; printed := printed s |})
       end.

(** [time.time()] *)
Definition time_time : G float :=
  λ s, (Ok (time_time_0 s (timed s)),
        {| mcmc_sample_0 := mcmc_sample_0 s; sampled := sampled s;
           handler := handler s; time_time_0 := time_time_0 s; timed := S (timed s);
           printed := printed s |}).

(** [print(..., file=self._logfile)] *)
Definition print (r : report) : G unit :=
  λ s, (Ok tt,
        {| mcmc_sample_0 := mcmc_sample_0 s; sampled := sampled s;
           handler := handler s; time_time_0 := time_time_0 s; timed := timed s;
           printed := printed s ++ [r] |}).

(** The local function [print_stats(i, header)]: the title when [header] is
    set, then the percentage [round(100*i/(burn_in + iterations))], whose
    division raises when the two parameters add up to 0, then the lines.
    The tables of the module [stats], which is not part of the sources at
    hand, are taken to hold the entries that the lines read. *)
Definition print_stats (self : t) (i : Z) (header : bool) : G unit :=
  (if header then print StatsTitle else mret tt);;
  if bool_decide (burn_in (prm self) + iterations (prm self) = 0)%Z
  then G_raise (ZeroDivisionError "division by zero")
  else print (Stats i).

(** The progress report of both loops, with the local variables [timer] and
    [first] in [st]:
    [if time.time() - timer > self.params["stats_period"]:
       timer = time.time(); print_stats(i, first); first = False]. *)
Definition progress (self : t) (i : Z) (st : float * bool) : G (float * bool) :=
  now ← time_time;
  if flt (stats_period (prm self)) (fsub now st.1) then
    timer ← time_time;
    print_stats self i st.2;;
    mret (timer, false)
  else mret st.

(** The same behind the test [if self._logfile]. *)
Definition progress_if_logging (self : t) (i : Z) (st : float * bool) : G (float * bool) :=
  if _logfile self then progress self i st else mret st.

(** The first loop over the remaining indices [is_]:
    [for i in range(burn_in): self.mcmc.sample()[0]], then the report. *)
Fixpoint burn_in_loop (self : t) (is_ : list Z) (st : float * bool) : G (float * bool) :=
  match is_ with
  | [] => mret st
  | i :: rest =>
      mcmc_sample;;
      st' ← progress_if_logging self i st;
      burn_in_loop self rest st'
  end.

(** The second loop over the remaining indices [is_], carrying [self.dags]
    and [self.dag_scores]: the report first, then the test [i % thinning]. *)
Fixpoint sampling_loop (self : t) (score : Score.t float) (is_ : list Z)
    (dags : list (list Score.family)) (dag_scores : list float) (st : float * bool)
    : G (list (list Score.family) * list float * (float * bool)) :=
  match is_ with
  | [] => mret (dags, dag_scores, st)
  | i :: rest =>
      st' ← progress_if_logging self (i + burn_in (prm self)) st;
      if bool_decide (thinning (prm self) = 0)%Z then
        G_raise (ZeroDivisionError "integer division or modulo by zero")
      else if bool_decide (i `mod` thinning (prm self) = 0)%Z then
        R ← mcmc_sample;
        '(dag, dag_score) ← in_handler (Score.sample_DAG score R);
        sampling_loop self score rest (dags ++ [dag]) (dag_scores ++ [dag_score]) st'
      else
        mcmc_sample;;
        sampling_loop self score rest dags dag_scores st'
  end.

(** [_run_mcmc].  The lines before the loops build the message template and
    read the keys of [stats]; they are taken to succeed. *)
Definition _run_mcmc (self : t) (score : Score.t float)
    : G (list (list Score.family) * list float) :=
  timer ← time_time;
  st ← burn_in_loop self (seqZ 0 (burn_in (prm self))) (timer, true);
  (if _logfile self && negb st.2 then print SamplingDAGs else mret tt);;
  '(dags, dag_scores, st') ←
     sampling_loop self score (seqZ 0 (iterations (prm self))) [] [] st;
  (if _logfile self && st'.2
   then print_stats self (burn_in (prm self) + iterations (prm self)) st'.2
   else mret tt);;
  mret (dags, dag_scores).

(** The iterations of the second loop at which a DAG is recorded, as the
    specification words them: the [i] of [a, ..., a + len - 1] with
    [i mod thinning = 0], in increasing order. *)
Definition thinned_from (thin a len : Z) : list Z :=
  filter (λ i, i `mod` thin = 0)%Z (seqZ a len).

(** What is expected on record after the run: for every iteration of [is_],
    in order, the DAG that [sample_DAG] draws from the partition the sampler
    returned at that iteration.  [first] is the number of calls the sampler
    has answered before iteration 0. *)
Definition recorded_draws (score : Score.t float) (partitions : nat → list (gset nat))
    (first : nat) (is_ : list Z) : M float (list (list Score.family * float)) :=
  sequence_M (λ i, Score.sample_DAG score (partitions (first + Z.to_nat i))) is_.

(** [default["K"]] and [default["d"]]. *)
Definition default_K (n : Z) : Z := Z.min (n - 1) 16.
Definition default_d (n : Z) : Z := Z.min (n - 1) 3.

(** [__init__]: the entries of [self.params] for data with [n] variables;
    [K_arg] and [d_arg] are [None] when the caller leaves them out. *)
Definition init_params (n : nat) (K_arg d_arg : option Z)
    (mc3_arg burn_in_arg iterations_arg thinning_arg : Z)
    (score_sum_eps_arg stats_period_arg : float) : params :=
  {| K := match K_arg with Some k => k | None => default_K (Z.of_nat n) end;
     d := match d_arg with Some d' => d' | None => default_d (Z.of_nat n) end;
     mc3 := mc3_arg;
     burn_in := burn_in_arg;
     iterations := iterations_arg;
     thinning := thinning_arg;
     score_sum_eps := score_sum_eps_arg;
     stats_period := stats_period_arg |}.

End Gadget.
Arguments params float : clear implicits.
Arguments t float : clear implicits.
Arguments PartitionMCMC float temp : clear implicits.
Arguments mcmc float temp : clear implicits.
Arguments run_state float : clear implicits.
Arguments G float A : clear implicits.
End Gadget.


(* ===================================================================== *)
(** ** class Data *)
(* ===================================================================== *)

Module Data.

Inductive dtype := int32 | float64 | other_dtype.

Definition dtype_eqb (a b : dtype) : bool :=
  match a, b with
  | int32, int32 | float64, float64 | other_dtype, other_dtype => true
  | _, _ => false
  end.

(** ['.' in text]; the character ['.'] has code 46. *)
Fixpoint contains_dot (text : string) : bool :=
  match text with
  | EmptyString => false
  | String c rest => Ascii.eqb c (Ascii.ascii_of_nat 46) || contains_dot rest
  end.

Section Data.
(** numpy arrays are kept abstract; [dtype_of] reads their [dtype]. *)
Context {ndarray : Type} (dtype_of : ndarray → dtype).

(** The two attributes of a [Data] object. *)
Record t := {
  data : ndarray;
  discrete : bool;
}.

(** What [Data(...)] may be called with, by [type(data_or_path)]. *)
Inductive arg :=
| of_Data (d : t)
| of_ndarray (a : ndarray)
| of_str (path : string)
| of_other.

Inductive init_error :=
| AttributeError_discrete   (* 'Data' object has no attribute 'discrete' *)
| TypeError_unknown_type.   (* Unknown type for Data *)

(** [__init__].  [read path] is the text that [open(path).read()] returns and
    [loadtxt path dt] the array that [np.loadtxt(path, dtype=dt, delimiter=' ')]
    builds.  In the branch for a path the attribute [discrete] is assigned
    only when the text contains a ['.'], and read right after. *)
Definition init (read : string → string) (loadtxt : string → dtype → ndarray)
    (data_or_path : arg) : init_error + t :=
  match data_or_path with
  | of_Data d => inr {| data := data d; discrete := discrete d |}
  | of_ndarray a =>
      inr {| data := a; discrete := negb (dtype_eqb (dtype_of a) float64) |}
  | of_str path =>
      let assigned := if contains_dot (read path) then Some false else None in
      match assigned with
      | None => inl AttributeError_discrete
      | Some true => inr {| data := loadtxt path int32; discrete := true |}
      | Some false => inr {| data := loadtxt path float64; discrete := false |}
      end
  | of_other => inl TypeError_unknown_type
  end.

End Data.

(** Integer data by columns, for [arities].  A value of a [bits]-bit integer
    type wraps around as numpy's arithmetic does. *)
Definition wrap (bits : nat) (x : Z) : Z :=
  ((x + 2 ^ (Z.of_nat bits - 1)) `mod` 2 ^ Z.of_nat bits - 2 ^ (Z.of_nat bits - 1))%Z.

(** [np.sort] along the last axis, on one row. *)
Definition np_sort (row : list Z) : list Z := merge_sort Z.le row.

(** [np.diff] along the last axis, on one row: [out[i] = a[i+1] - a[i]]. *)
Definition np_diff (bits : nat) (row : list Z) : list Z :=
  zip_with (λ a b, wrap bits (b - a)) row (tail row).

(** [np.count_nonzero] on one row. *)
Definition count_nonzero (row : list Z) : nat :=
  length (filter (λ x, x ≠ 0%Z) row).

(** [arities]: [np.count_nonzero(np.diff(np.sort(self.data.T)), axis=1) + 1],
    with [columns] the rows of [self.data.T]. *)
Definition arities (bits : nat) (columns : list (list Z)) : list nat :=
  map (λ column, count_nonzero (np_diff bits (np_sort column)) + 1) columns.

End Data.


(* ===================================================================== *)
(** ** What the handler expects of the two samplers, and DAGs as graphs *)
(* ===================================================================== *)

Section Contracts.
Context {float : Type}.

(** The restricted cache samples a local mask within [U] that meets [T]
    whenever some mask within [U] does. *)
Definition restricted_sampler_ok (cr : Score.CandidateRestrictedScore float) : Prop :=
  ∀ v U T threshold,
    let pset := Score.cr_sample_pset cr v U T threshold in
    N.land pset U = pset ∧ (N.land U T ≠ 0%N → N.land pset T ≠ 0%N).

(** The complement cache samples a parent set within [U] that meets [T]
    whenever [U] does. *)
Definition complement_sampler_ok (cc : Score.CandidateComplementScore float) : Prop :=
  ∀ v U T threshold,
    let pset := (Score.cc_sample_pset cc v U T threshold).1 in
    pset ⊆ U ∧ (U ∩ T ≠ ∅ → pset ∩ T ≠ ∅).

(** [u] is a parent of [v] in the list of families that [sample_DAG]
    returns. *)
Definition parent_in (DAG : list Score.family) (u v : nat) : Prop :=
  ∃ P, DAG !! v = Some (v, P) ∧ u ∈ P.

End Contracts.

#[export] Instance LogQ_eq_dec : EqDecision LogQ.t.
Proof. solve_decision. Defined.

#[export] Instance exn_eq_dec : EqDecision exn.
Proof. solve_decision. Defined.

#[export] Instance result_eq_dec {A} `{EqDecision A} : EqDecision (result A).
Proof. solve_decision. Defined.

(* ===================================================================== *)
(** ** A small instance on the exact model *)
(* ===================================================================== *)

Module Toy.

(** Modelled from the spec: [weight_sum.CandidateRestrictedScore] is not part
    of the sources at hand.  Its [sum(v, U, T)] is the log of the sum of
    [exp score_array[v][P]] over the local masks [P] within [U] that meet
    [T] when [T] is not empty; this version adds them up mask by mask. *)
Definition eligible (U T P : N) : bool :=
  (N.land P U =? P)%N && ((T =? 0)%N || negb (N.land P T =? 0)%N).

Definition masks_within (U T : N) : list N :=
  filter (λ P, eligible U T P = true) (N.of_nat <$> seq 0 (S (N.to_nat U))).

Definition brute_sum (score_array : nat → N → LogQ.t) (v : nat) (U : N) (T : option N)
    : LogQ.t :=
  foldl (λ acc P, LogQ.lae acc (score_array v P)) LogQ.NegInf
        (masks_within U (default 0%N T)).

(** Modelled from the spec: the restricted cache's [sample_pset] selects by
    perturbed threshold; this version returns the first eligible mask at
    which the running sum exceeds the threshold. *)
Fixpoint brute_walk (score_array : nat → N → LogQ.t) (v : nat) (threshold acc : LogQ.t)
    (masks : list N) (last : N) : N :=
  match masks with
  | [] => last
  | P :: rest =>
      let acc' := LogQ.lae acc (score_array v P) in
      if LogQ.lt threshold acc' then P
      else brute_walk score_array v threshold acc' rest P
  end.

Definition brute_sample_pset (score_array : nat → N → LogQ.t) (v : nat) (U T : N)
    (threshold : LogQ.t) : N :=
  brute_walk score_array v threshold LogQ.NegInf (masks_within U T) 0%N.

(** The local score of the mask [P] for node [v] is [-log (1 + v + P)]. *)
Definition score_array (v : nat) (P : N) : LogQ.t :=
  LogQ.log_ratio 1 (Pos.of_succ_nat (v + N.to_nat P)).

Definition c_r_score : Score.CandidateRestrictedScore LogQ.t :=
  {| Score.cr_sum := brute_sum score_array;
     Score.cr_sample_pset := brute_sample_pset score_array |}.

(** A complement cache of constant mass [1/8] that always samples the
    parent set [T]. *)
Definition c_c_score : Score.CandidateComplementScore LogQ.t :=
  {| Score.cc_sum := λ v U T, LogQ.log_ratio 1 8;
     Score.cc_sample_pset := λ v U T threshold, (T, LogQ.log_ratio 1 8) |}.

(** Three variables, every other variable a candidate ([K = 2 = n - 1]),
    hence no complement cache. *)
Definition score3 : Score.t LogQ.t :=
  {| Score.C := [[1; 2]; [0; 2]; [0; 1]];
     Score.score_array := score_array;
     Score.c_r_score := c_r_score;
     Score.c_c_score := None |}.

(** Three variables with one candidate each ([K = 1 < n - 1]) and the
    complement cache. *)
Definition score3_K1 : Score.t LogQ.t :=
  {| Score.C := [[1]; [0]; [0]];
     Score.score_array := score_array;
     Score.c_r_score := c_r_score;
     Score.c_c_score := Some c_c_score |}.

(** The [k]-th draw is [log (k + 2)], a positive number; nothing drawn and
    nothing called yet. *)
Definition world0 : world LogQ.t :=
  {| rng := λ k, LogQ.log_nat (k + 2); drawn := 0; calls := [] |}.

(** A source of randomness whose every draw is [0.0]. *)
Definition world_zero_draws : world LogQ.t :=
  {| rng := λ _, fzero; drawn := 0; calls := [] |}.

(** The partition [({0}, {1, 2})]. *)
Definition R012 : list (gset nat) := [{[0]}; {[1; 2]}].

(** An oracle that scores a parent set by [-log (1 + |pset|)]. *)
Definition scorer (v : Z) (pset : list Z) : LogQ.t :=
  LogQ.log_ratio 1 (Pos.of_nat (S (length pset))).

Definition gadget (K_ mc3_ burn_in_ iterations_ thinning_ : Z) : Gadget.t LogQ.t :=
  {| Gadget.prm := {| Gadget.K := K_; Gadget.d := 2; Gadget.mc3 := mc3_;
                      Gadget.burn_in := burn_in_; Gadget.iterations := iterations_;
                      Gadget.thinning := thinning_;
                      Gadget.score_sum_eps := LogQ.log_ratio 1 10;
                      Gadget.stats_period := LogQ.log_ratio 3 2 |};
     Gadget.data_n := 3;
     Gadget.C := [[1; 2]; [0; 2]; [0; 1]];
     Gadget.score_array := score_array;
     Gadget.c_r_score := c_r_score;
     Gadget._logfile := true |}.

(** A sampler that returns the partition [R012] at every call, and a clock
    whose [k]-th reading is [log (k + 1)]: with the period [log (3/2)] of
    [gadget] some iterations report and some do not. *)
Definition run0 : Gadget.run_state LogQ.t :=
  {| Gadget.mcmc_sample_0 := λ _, R012; Gadget.sampled := 0; Gadget.handler := world0;
     Gadget.time_time_0 := λ k, LogQ.log_nat (S k); Gadget.timed := 0;
     Gadget.printed := [] |}.

(** A complement cache of constant mass [1/8] that samples the members of
    [U] in [T]. *)
Definition c_c_within : Score.CandidateComplementScore LogQ.t :=
  {| Score.cc_sum := λ v U T, LogQ.log_ratio 1 8;
     Score.cc_sample_pset := λ v U T threshold, (U ∩ T, LogQ.log_ratio 1 8) |}.

(** Three variables with one candidate each and that complement cache. *)
Definition score3_K1_within : Score.t LogQ.t :=
  {| Score.C := [[1]; [0]; [0]];
     Score.score_array := score_array;
     Score.c_r_score := c_r_score;
     Score.c_c_score := Some c_c_within |}.

(** The table of a scorer that asks the oracle [scorer] for every mask. *)
Definition scorer_table (C : list (list nat)) (v : nat) (mask : N) : LogQ.t :=
  scorer (Z.of_nat v) (mask_pset (default [] (C !! v)) mask).

(** An enumeration of the sub-collections of [l] with [fromsize] up to
    [tosize] members, in increasing size. *)
Definition subsets (l : list nat) (fromsize tosize : nat) : list (list nat) :=
  seq fromsize (S tosize - fromsize) ≫= λ k, combinations k l.

(** Four variables, node 0 the single candidate of the others. *)
Definition C4 : list (list nat) := [[1]; [0]; [0]; [0]].

End Toy.

(* ===================================================================== *)
(** * Properties *)
(* ===================================================================== *)

(** ** The exact model satisfies the float laws *)

Lemma LogQ_laws : FloatLaws LogQ.t.
Proof.
  split.
  - intros [| |q|]; cbv [is_finite logaddexp neg_inf LogQ_ops LogQ.finite LogQ.lae]; done.
  - intros [| |a|] [| |b|]; cbv [logaddexp LogQ_ops LogQ.lae]; try done.
    by rewrite (comm_L Qp.add a b).
  - intros [| |a|]; cbv [is_finite fsub fzero LogQ_ops LogQ.finite LogQ.sub LogQ.add LogQ.neg];
      try done.
    intros _. by rewrite Qp.mul_inv_r.
  - intros [| |b|]; cbv [flt fneg fzero LogQ_ops LogQ.lt LogQ.neg]; try done.
    intros Hb. apply bool_decide_eq_true in Hb. apply bool_decide_eq_true.
    apply Qp.inv_lt_mono in Hb. by rewrite Qp.inv_1 in Hb.
Qed.

(** ** Binomial coefficients *)

Lemma comb_0 (n : nat) : comb n 0 = 1.
Proof. by destruct n. Qed.

Lemma comb_gt (n k : nat) : n < k → comb n k = 0.
Proof.
  revert k. induction n as [|n IH]; intros [|k] Hk; [lia|done|lia|].
  simpl. rewrite !IH by lia. done.
Qed.

Lemma comb_diag (n : nat) : comb n n = 1.
Proof.
  induction n as [|n IH]; [done|]. simpl. rewrite IH, comb_gt by lia. done.
Qed.

(** ** The codec *)

Lemma bm_no_member (ints : gset nat) (idx : list nat) :
  (∀ c, c ∈ idx → c ∉ ints) → bm ints idx = 0%N.
Proof.
  induction idx as [|c idx IH]; intros Hout; [done|]. simpl.
  rewrite bool_decide_eq_false_2 by (apply Hout; left).
  rewrite IH; [done|]. intros c' Hc'. apply Hout. by right.
Qed.

Lemma bm_member (ints : gset nat) (idx : list nat) (c : nat) :
  c ∈ idx → c ∈ ints → bm ints idx ≠ 0%N.
Proof.
  induction idx as [|c' idx IH]; intros Hin Hc; [by apply elem_of_nil in Hin|].
  simpl. apply elem_of_cons in Hin as [->|Hin].
  - rewrite bool_decide_eq_true_2 by done. lia.
  - specialize (IH Hin Hc). case_bool_decide; lia.
Qed.

Lemma bm_disjoint (ints : gset nat) (idx : list nat) :
  ints ∩ list_to_set idx = ∅ → bm (ints ∩ list_to_set idx) idx = 0%N.
Proof. intros ->. apply bm_no_member. set_solver. Qed.

Lemma bm_to_ints_spec (mask : N) (i : nat) :
  i ∈ bm_to_ints mask ↔ N.testbit mask (N.of_nat i) = true.
Proof.
  unfold bm_to_ints. rewrite list_elem_of_filter, elem_of_seq. split; [tauto|].
  intros Hbit. split; [done|]. split; [lia|]. simpl.
  destruct (decide (mask = 0%N)) as [->|Hne]; [by rewrite N.bits_0 in Hbit|].
  destruct (decide (N.of_nat i < N.size mask)%N) as [|Hge]; [lia|].
  rewrite N.bits_above_log2 in Hbit; [done|].
  rewrite N.size_log2 in Hge by done. lia.
Qed.

(** ** LocalScore *)

Section LocalScoreFacts.
Context {float : Type} `{FloatOps float}.
Import LocalScore.

Lemma py_min_le (x : Z) (xs : list Z) :
  (py_min x xs ≤ x)%Z ∧ ∀ u, u ∈ xs → (py_min x xs ≤ u)%Z.
Proof.
  unfold py_min. revert x. induction xs as [|y ys IH]; intros x; simpl.
  - split; [lia|]. intros u Hu. by apply elem_of_nil in Hu.
  - destruct (IH (Z.min x y)) as [H1 H2]. split; [lia|].
    intros u [->|Hu]%elem_of_cons; [lia|auto].
Qed.

Lemma py_min_elem (x : Z) (xs : list Z) : py_min x xs ∈ x :: xs.
Proof.
  unfold py_min. revert x. induction xs as [|y ys IH]; intros x; simpl; [left|].
  specialize (IH (Z.min x y)). apply elem_of_cons in IH as [Heq|Hin].
  - rewrite Heq. destruct (Z.min_spec x y) as [[_ ->]|[_ ->]]; [left|right; left].
  - right; by right.
Qed.

Lemma py_max_ge (x : Z) (xs : list Z) :
  (x ≤ py_max x xs)%Z ∧ ∀ u, u ∈ xs → (u ≤ py_max x xs)%Z.
Proof.
  unfold py_max. revert x. induction xs as [|y ys IH]; intros x; simpl.
  - split; [lia|]. intros u Hu. by apply elem_of_nil in Hu.
  - destruct (IH (Z.max x y)) as [H1 H2]. split; [lia|].
    intros u [->|Hu]%elem_of_cons; [lia|auto].
Qed.

Lemma py_max_elem (x : Z) (xs : list Z) : py_max x xs ∈ x :: xs.
Proof.
  unfold py_max. revert x. induction xs as [|y ys IH]; intros x; simpl; [left|].
  specialize (IH (Z.max x y)). apply elem_of_cons in IH as [Heq|Hin].
  - rewrite Heq. destruct (Z.max_spec x y) as [[_ ->]|[_ ->]]; [right; left|left].
  - right; by right.
Qed.

(** A duplicate-free parent set drawn from the [n] variables other than [v]
    has fewer than [n] members. *)
Lemma pset_length_lt (n : nat) (v : Z) (pset : list Z) :
  (0 ≤ v < Z.of_nat n)%Z → NoDup pset →
  (∀ u, u ∈ pset → (0 ≤ u < Z.of_nat n)%Z ∧ u ≠ v) →
  length pset < n.
Proof.
  intros Hv Hnd Hin.
  assert (Hsub : v :: pset ⊆+ seqZ 0 (Z.of_nat n)).
  { apply NoDup_submseteq.
    - apply NoDup_cons. split; [|done]. intros Hvin. by destruct (Hin v Hvin).
    - intros u [->|Hu]%elem_of_cons; apply elem_of_seqZ; [lia|].
      destruct (Hin u Hu); lia. }
  apply submseteq_length in Hsub. rewrite length_seqZ in Hsub. simpl in Hsub. lia.
Qed.

Lemma prior_table_lookup (n k : nat) :
  k < n →
  map (λ k, fneg (flog_nat (comb (n - 1) k))) (seq 0 n) !! k
  = Some (fneg (flog_nat (comb (n - 1) k))).
Proof.
  intros Hk. rewrite list_lookup_fmap, lookup_seq_lt by done. done.
Qed.

Lemma _local_fair (n : nat) (mid : Z) (scorer : Z → list Z → float) (v : Z) (pset : list Z) :
  length pset < n →
  _local (init n fair mid scorer) v pset
  = Ok (fadd (scorer v pset) (fneg (flog_nat (comb (n - 1) (length pset))))).
Proof.
  intros Hlen. unfold _local, priorf, _prior_fair, init; simpl.
  change (map ?f ?l !! ?k) with (map f l !! k).
  by rewrite prior_table_lookup.
Qed.

Lemma _local_fair_inv (n : nat) (mid : Z) (scorer : Z → list Z → float) (v : Z)
    (pset : list Z) (s : float) :
  _local (init n fair mid scorer) v pset = Ok s →
  s = fadd (scorer v pset) (fneg (flog_nat (comb (n - 1) (length pset)))).
Proof.
  destruct (decide (length pset < n)) as [Hlt|Hge].
  - rewrite _local_fair by done. by intros [= <-].
  - unfold _local, priorf, _prior_fair, init; simpl.
    rewrite (proj2 (lookup_ge_None _ _)); [done|].
    rewrite length_map, length_seq. lia.
Qed.

Lemma local_ok_inv (ls : t float) (v : Z) (pset : list Z) (s : float) :
  local ls v pset = Ok s → _local ls v pset = Ok s.
Proof.
  unfold local. repeat (case_bool_decide || case_match || simpl); congruence.
Qed.

Lemma _local_init_ok (n : nat) (p : prior_name) (mid : Z) (scorer : Z → list Z → float)
    (v : Z) (pset : list Z) :
  length pset < n → ∃ s, _local (init n p mid scorer) v pset = Ok s.
Proof.
  intros Hlen. destruct p.
  - eexists. by apply _local_fair.
  - by eexists.
Qed.

(** C6.  [LocalScore.local(v, pset)] raises, and returns no score, whenever
    [v] is a member of [pset] or [v] or a member of [pset] lies outside
    [0, n); for [v] in [0, n) and a parent set [pset] (a duplicate-free
    collection) drawn from [0, n) without [v] it raises nothing and returns
    the score that [_local] computes. *)
Theorem local_rejects_invalid_accepts_valid
    (n : nat) (p : prior_name) (mid : Z) (scorer : Z → list Z → float)
    (v : Z) (pset : list Z) :
  let ls := init n p mid scorer in
  ((v ∈ pset ∨ ¬ (0 ≤ v < Z.of_nat n)%Z ∨ (∃ u, u ∈ pset ∧ ¬ (0 ≤ u < Z.of_nat n)%Z)) →
     ∃ e, local ls v pset = Raise e)
  ∧ ((0 ≤ v < Z.of_nat n)%Z → NoDup pset →
     (∀ u, u ∈ pset → (0 ≤ u < Z.of_nat n)%Z ∧ u ≠ v) →
     ∃ s, local ls v pset = Ok s ∧ _local ls v pset = Ok s).
Proof.
  intros ls. split.
  - intros Hbad. unfold local.
    case_bool_decide as Hmem; [by eexists|].
    destruct Hbad as [Hbad|Hbad]; [done|].
    destruct pset as [|q qs].
    + destruct Hbad as [Hv|(u & Hu & _)]; [|by apply elem_of_nil in Hu].
      rewrite bool_decide_eq_false_2 by done. simpl. by eexists.
    + rewrite andb_false_r.
      destruct (py_min_le q qs) as [Hmin1 Hmin2], (py_max_ge q qs) as [Hmax1 Hmax2].
      assert (Z.min v (py_min q qs) < 0 ∨ Z.of_nat (data_n ls) ≤ Z.max v (py_max q qs))%Z
        as Hcond.
      { simpl. destruct Hbad as [Hv|(u & Hu & Hout)]; [lia|].
        apply elem_of_cons in Hu as [->|Hu]; [lia|].
        specialize (Hmin2 u Hu). specialize (Hmax2 u Hu). lia. }
      destruct Hcond as [Hlo|Hhi].
      * rewrite (bool_decide_eq_true_2 _ Hlo). simpl. by eexists.
      * rewrite (bool_decide_eq_true_2 _ Hhi), orb_true_r. by eexists.
  - intros Hv Hnd Hin.
    destruct (_local_init_ok n p mid scorer v pset) as [s Hs];
      [by eapply pset_length_lt|].
    exists s. split; [|done]. unfold local.
    rewrite bool_decide_eq_false_2 by (intros Hmem; by destruct (Hin v Hmem)).
    destruct pset as [|q qs].
    + rewrite !bool_decide_eq_true_2 by done. done.
    + rewrite andb_false_r.
      pose proof (py_min_elem q qs) as Hmin. pose proof (py_max_elem q qs) as Hmax.
      apply Hin in Hmin as [Hmin _]. apply Hin in Hmax as [Hmax _].
      rewrite !bool_decide_eq_false_2 by (simpl; lia). done.
Qed.

(** C10, as the code has it.  Under the fair prior the table built by the
    constructor holds [-log C(n-1, k)] for every indegree [k < n];
    [_local(v, P)] is the oracle's score plus the table's entry for [|P|];
    every score that the checked entry point [local] returns is that same
    sum.  For [|P| = 0] and [|P| = n - 1] the entry is [-log 1], which
    changes no float it is added to: there the exposed score is the raw
    oracle value.  Under the uniform prior the added penalty is [0]. *)
Theorem local_score_is_oracle_plus_prior
    (n : nat) (mid : Z) (scorer : Z → list Z → float) (v : Z) (pset : list Z) :
  let penalty := fneg (flog_nat (comb (n - 1) (length pset))) in
  (∀ k, k < n →
     _prior (init n fair mid scorer) ≫= (.!! k) = Some (fneg (flog_nat (comb (n - 1) k))))
  ∧ (length pset < n →
     _local (init n fair mid scorer) v pset = Ok (fadd (scorer v pset) penalty))
  ∧ (∀ s, local (init n fair mid scorer) v pset = Ok s → s = fadd (scorer v pset) penalty)
  ∧ ((∀ x : float, fadd x (fneg (flog_nat 1)) = x) →
     length pset < n → length pset = 0 ∨ length pset = n - 1 →
     _local (init n fair mid scorer) v pset = Ok (scorer v pset))
  ∧ _local (init n unif mid scorer) v pset = Ok (fadd (scorer v pset) fzero).
Proof.
  intros penalty. split; [|split; [|split; [|split]]].
  - intros k Hk. simpl. by apply prior_table_lookup.
  - apply _local_fair.
  - intros s Hs. apply local_ok_inv in Hs. by apply _local_fair_inv in Hs.
  - intros Hlog1 Hlen Hends. rewrite _local_fair by done.
    destruct Hends as [->| ->]; [rewrite comb_0|rewrite comb_diag]; by rewrite Hlog1.
  - done.
Qed.

End LocalScoreFacts.

(** ** The world *)

Section WorldFacts.
Context {float : Type}.
Implicit Types (w : world float) (es : list (event float)).

Lemma after_0_nil w : after w 0 [] = w.
Proof. destruct w; unfold after; simpl. f_equal; [lia|apply app_nil_r]. Qed.

Lemma after_after w k es k' es' :
  after (after w k es) k' es' = after w (k + k') (es ++ es').
Proof. unfold after; simpl. f_equal; [lia|by rewrite app_assoc]. Qed.

Lemma bind_ok {A B} (m : M float A) (k : A → M float B) w a w' :
  m w = (Ok a, w') → (m ≫= k) w = k a w'.
Proof. intros Hm. unfold mbind, M_bind, bind. by rewrite Hm. Qed.

End WorldFacts.

(** ** Score: the two weights and [sum] *)

Section ScoreFacts.
Context {float : Type} `{FloatOps float}.
Import Score.
Implicit Types (self : Score.t float) (w : world float) (U T : gset nat).

Lemma C_row_ok self v row w : C self !! v = Some row → C_row self v w = (Ok row, w).
Proof. intros Hrow. unfold C_row. by rewrite Hrow. Qed.

Lemma size_pos_nonempty T : 0 < size T ↔ T ≠ ∅.
Proof.
  rewrite <- (leibniz_equiv_iff T ∅), <- size_non_empty_iff. lia.
Qed.

Lemma c_r_score_sum_run self v U_bm Tq w :
  c_r_score_sum self v U_bm Tq w
  = (Ok (cr_sum (c_r_score self) v U_bm Tq), after w 0 [CRSum v U_bm Tq]).
Proof. done. Qed.

Lemma c_c_score_sum_run (cc : CandidateComplementScore float) v U T W w :
  c_c_score_sum cc v U T W w
  = (Ok (match W with
         | Some W_prime => logaddexp W_prime (cc_sum cc v U T)
         | None => cc_sum cc v U T
         end),
     after w 0 [CCSum v U T W]).
Proof. done. Qed.

(** The restricted cache is left alone when a non-empty [T] misses [C[v]]. *)
Lemma restricted_weight_skip self v (row : list nat) T U_bm w :
  T ≠ ∅ → T ∩ list_to_set row = ∅ →
  restricted_weight self v T U_bm (bm (T ∩ list_to_set row) row) w = (Ok neg_inf, w).
Proof.
  intros HT Hdisj. unfold restricted_weight.
  rewrite bool_decide_eq_true_2 by by apply size_pos_nonempty.
  by rewrite bool_decide_eq_true_2 by by apply bm_disjoint.
Qed.

Lemma restricted_weight_query self v (row : list nat) T U_bm w :
  ¬ (T ≠ ∅ ∧ T ∩ list_to_set row = ∅) →
  let T_bm := bm (T ∩ list_to_set row) row in
  let Tq := if decide (T = ∅) then None else Some T_bm in
  restricted_weight self v T U_bm T_bm w
  = (Ok (cr_sum (c_r_score self) v U_bm Tq), after w 0 [CRSum v U_bm Tq]).
Proof.
  intros Hq T_bm Tq. unfold restricted_weight, Tq. destruct (decide (T = ∅)) as [->|HT].
  - by rewrite bool_decide_eq_false_2 by (rewrite size_empty; lia).
  - rewrite bool_decide_eq_true_2 by by apply size_pos_nonempty.
    rewrite bool_decide_eq_false_2; [done|].
    assert (T ∩ list_to_set row ≠ ∅) as Hne by tauto.
    apply set_choose_L in Hne as [c Hc].
    apply (bm_member _ _ c); [|done].
    apply elem_of_intersection in Hc as [_ Hc]. by apply elem_of_list_to_set in Hc.
Qed.

(** C9.  For a node [v], any [U] and a non-empty [T] that does not meet
    [C[v]], when the complement cache is absent or [U] lies within [C[v]],
    [Score.sum(v, U, T)] returns minus infinity and leaves the world as it
    found it: no query reaches the restricted cache (or any cache). *)
Theorem sum_neg_inf_when_T_misses_candidates self v (row : list nat) U T w :
  C self !! v = Some row →
  T ≠ ∅ → T ∩ list_to_set row = ∅ →
  c_c_score self = None ∨ U ⊆ list_to_set row →
  sum self v U T w = (Ok neg_inf, w).
Proof.
  intros Hrow HT Hdisj Hno. unfold sum.
  rewrite (bind_ok _ _ _ _ _ (C_row_ok _ _ _ _ Hrow)). simpl.
  rewrite (bind_ok _ _ _ _ _ (restricted_weight_skip _ _ _ _ _ _ HT Hdisj)).
  destruct (c_c_score self) as [cc|]; [|done].
  destruct Hno as [|Hsub]; [done|]. by rewrite bool_decide_eq_true_2.
Qed.

(** The value of [W_prime] in [sum] (of [w_crs] in [sample_pset]) and the
    query that produced it. *)
Lemma restricted_weight_run self v (row : list nat) U T w :
  let U_bm := bm (U ∩ list_to_set row) row in
  let T_bm := bm (T ∩ list_to_set row) row in
  let Tq := if decide (T = ∅) then None else Some T_bm in
  let skip := bool_decide (T ≠ ∅ ∧ T ∩ list_to_set row = ∅) in
  restricted_weight self v T U_bm T_bm w
  = (Ok (if skip then neg_inf else cr_sum (c_r_score self) v U_bm Tq),
     after w 0 (if skip then [] else [CRSum v U_bm Tq])).
Proof.
  intros U_bm T_bm Tq skip. unfold skip. case_bool_decide as Hskip.
  - destruct Hskip. rewrite after_0_nil. by apply restricted_weight_skip.
  - by apply restricted_weight_query.
Qed.

Lemma sum_run_restricted self v (row : list nat) U T w :
  C self !! v = Some row →
  c_c_score self = None ∨ U ⊆ list_to_set row →
  let U_bm := bm (U ∩ list_to_set row) row in
  let T_bm := bm (T ∩ list_to_set row) row in
  let Tq := if decide (T = ∅) then None else Some T_bm in
  let skip := bool_decide (T ≠ ∅ ∧ T ∩ list_to_set row = ∅) in
  sum self v U T w
  = (Ok (if skip then neg_inf else cr_sum (c_r_score self) v U_bm Tq),
     after w 0 (if skip then [] else [CRSum v U_bm Tq])).
Proof.
  intros Hrow Hno U_bm T_bm Tq skip. unfold sum.
  rewrite (bind_ok _ _ _ _ _ (C_row_ok _ _ _ _ Hrow)). cbv zeta.
  rewrite (bind_ok _ _ _ _ _ (restricted_weight_run _ _ _ _ _ _)).
  destruct (c_c_score self) as [cc|]; [|done].
  destruct Hno as [|Hsub]; [done|]. by rewrite bool_decide_eq_true_2.
Qed.

Lemma sum_run_complement self v (row : list nat) U T w cc :
  C self !! v = Some row →
  c_c_score self = Some cc → U ⊈ list_to_set row →
  let U_bm := bm (U ∩ list_to_set row) row in
  let T_bm := bm (T ∩ list_to_set row) row in
  let Tq := if decide (T = ∅) then None else Some T_bm in
  let skip := bool_decide (T ≠ ∅ ∧ T ∩ list_to_set row = ∅) in
  let W_restricted := if skip then neg_inf else cr_sum (c_r_score self) v U_bm Tq in
  let T' := if decide (T = ∅) then U else T in
  sum self v U T w
  = (Ok (logaddexp W_restricted (cc_sum cc v U T')),
     after w 0 ((if skip then [] else [CRSum v U_bm Tq])
                ++ [CCSum v U T' (Some W_restricted)])).
Proof.
  intros Hrow Hcc Hsub U_bm T_bm Tq skip W_restricted T'. unfold sum.
  rewrite (bind_ok _ _ _ _ _ (C_row_ok _ _ _ _ Hrow)). cbv zeta.
  rewrite (bind_ok _ _ _ _ _ (restricted_weight_run _ _ _ _ _ _)), Hcc.
  rewrite bool_decide_eq_false_2 by done. unfold T'.
  destruct (decide (T = ∅)) as [->|HT].
  - rewrite bool_decide_eq_false_2 by (rewrite size_empty; lia).
    by rewrite c_c_score_sum_run, after_after.
  - rewrite bool_decide_eq_true_2 by by apply size_pos_nonempty.
    by rewrite c_c_score_sum_run, after_after.
Qed.

(** C2, as the code has it.  [Score.sum(v, U, T)] restricts [U] and [T] to
    [C[v]] through the codec.  [W_restricted] is minus infinity, obtained
    without any query, when [T] is non-empty and misses [C[v]]; otherwise it
    is the answer of the restricted cache to [sum(v, U_bm, T_bm)] (to
    [sum(v, U_bm)] when [T] is empty).  If the complement cache is absent or
    [U] lies within [C[v]], [W_restricted] is returned unchanged; otherwise
    the complement cache is asked, with [T' = T] for non-empty [T] and
    [T' = U] for empty [T], and the result is
    [logaddexp(W_restricted, W_complement)]. *)
Theorem sum_restricted_then_complement self v (row : list nat) U T w :
  C self !! v = Some row →
  let U_bm := bm (U ∩ list_to_set row) row in
  let T_bm := bm (T ∩ list_to_set row) row in
  let Tq := if decide (T = ∅) then None else Some T_bm in
  let skip := bool_decide (T ≠ ∅ ∧ T ∩ list_to_set row = ∅) in
  let W_restricted := if skip then neg_inf else cr_sum (c_r_score self) v U_bm Tq in
  let queries := if skip then [] else [CRSum v U_bm Tq] in
  let T' := if decide (T = ∅) then U else T in
  (c_c_score self = None ∨ U ⊆ list_to_set row →
     sum self v U T w = (Ok W_restricted, after w 0 queries))
  ∧ (∀ cc, c_c_score self = Some cc → U ⊈ list_to_set row →
       let W_complement := cc_sum cc v U T' in
       sum self v U T w
       = (Ok (logaddexp W_restricted W_complement),
          after w 0 (queries ++ [CCSum v U T' (Some W_restricted)]))).
Proof.
  intros Hrow U_bm T_bm Tq skip W_restricted queries T'. split.
  - intros Hno. by apply sum_run_restricted.
  - intros cc Hsome Hsub W_complement. by apply sum_run_complement.
Qed.

(** ** Score: [sample_pset] *)

Lemma np_random_exponential_run w :
  np_random_exponential w = (Ok (rng w (drawn w)), after w 1 []).
Proof. done. Qed.

Lemma c_r_score_sample_pset_run self v U_bm T_bm thr w :
  c_r_score_sample_pset self v U_bm T_bm thr w
  = (Ok (cr_sample_pset (c_r_score self) v U_bm T_bm thr),
     after w 0 [CRSamplePset v U_bm T_bm thr]).
Proof. done. Qed.

Lemma c_c_score_sample_pset_run (cc : CandidateComplementScore float) v U T thr w :
  c_c_score_sample_pset cc v U T thr w
  = (Ok (cc_sample_pset cc v U T thr), after w 0 [CCSamplePset v U T thr]).
Proof. done. Qed.

(** The first half of [sample_pset]: both weights and the first draw. *)
Lemma sample_pset_weights self v (row : list nat) U T w :
  C self !! v = Some row →
  let U_bm := bm (U ∩ list_to_set row) row in
  let T_bm := bm (T ∩ list_to_set row) row in
  let Tq := if decide (T = ∅) then None else Some T_bm in
  let skip := bool_decide (T ≠ ∅ ∧ T ∩ list_to_set row = ∅) in
  let W_restricted := if skip then neg_inf else cr_sum (c_r_score self) v U_bm Tq in
  let T' := if decide (T = ∅) then U else T in
  let live := match c_c_score self with
              | Some cc => if bool_decide (U ⊆ list_to_set row) then None else Some cc
              | None => None
              end in
  let W_complement := match live with
                      | Some cc => cc_sum cc v U T'
                      | None => neg_inf
                      end in
  let queries := (if skip then [] else [CRSum v U_bm Tq])
                 ++ match live with Some _ => [CCSum v U T' None] | None => [] end in
  sample_pset self v U T w
    = (E ← np_random_exponential;
       if flt (fneg E) (fsub W_restricted (logaddexp W_complement W_restricted))
       then
         E' ← np_random_exponential;
         pset ← c_r_score_sample_pset self v U_bm T_bm (fsub W_restricted E');
         parents ← C_members row (bm_to_ints pset);
         mret ((v, parents), score_array self v pset)
       else
         match c_c_score self with
         | None =>
             raise (AttributeError "'NoneType' object has no attribute 'sample_pset'")
         | Some cc =>
             E' ← np_random_exponential;
             '(pset, family_score) ← c_c_score_sample_pset cc v U T' (fsub W_complement E');
             mret ((v, pset), family_score)
         end) (after w 0 queries).
Proof.
  intros Hrow U_bm T_bm Tq skip W_restricted T' live W_complement queries.
  pose proof (restricted_weight_run self v row U T w) as Hrw. cbv zeta in Hrw.
  unfold sample_pset.
  rewrite (bind_ok _ _ _ _ _ (C_row_ok _ _ _ _ Hrow)). simpl.
  rewrite (bind_ok _ _ _ _ _ Hrw).
  set (w1 := after w 0 (if skip then [] else [CRSum v U_bm Tq])).
  assert (match c_c_score self with
          | Some cc =>
              if negb (bool_decide (U ⊆ list_to_set row))
              then if bool_decide (0 < size T)
                   then c_c_score_sum cc v U T None
                   else c_c_score_sum cc v U U None
              else mret neg_inf
          | None => mret neg_inf
          end w1 = (Ok W_complement, after w 0 queries)) as Hcw.
  { unfold W_complement, queries, live, w1. destruct (c_c_score self) as [cc|].
    - destruct (bool_decide (U ⊆ list_to_set row)); cbn [negb].
      + by rewrite app_nil_r.
      + unfold T'. destruct (decide (T = ∅)) as [->|HT].
        * rewrite bool_decide_eq_false_2 by (rewrite size_empty; lia).
          by rewrite c_c_score_sum_run, after_after.
        * rewrite bool_decide_eq_true_2 by by apply size_pos_nonempty.
          by rewrite c_c_score_sum_run, after_after.
    - by rewrite app_nil_r. }
  rewrite (bind_ok _ _ _ _ _ Hcw).
  rewrite !(bind_ok _ _ _ _ _ (np_random_exponential_run _)).
  destruct (flt _ _); [done|].
  destruct (c_c_score self) as [cc|]; [|done].
  unfold T'. destruct (decide (T = ∅)) as [->|HT].
  - by rewrite bool_decide_eq_false_2 by (rewrite size_empty; lia).
  - by rewrite bool_decide_eq_true_2 by by apply size_pos_nonempty.
Qed.

Lemma C_members_world (row ints : list nat) w : (C_members row ints w).2 = w.
Proof.
  revert w. induction ints as [|i ints IH]; intros w; simpl; [done|].
  destruct (row !! i) as [u|]; [|done].
  unfold mbind, M_bind, bind. specialize (IH w).
  by destruct (C_members row ints w) as [[parents|e] w']; simpl in *.
Qed.

Lemma C_members_ok (row ints : list nat) w :
  (∀ i, i ∈ ints → i < length row) →
  ∃ parents, C_members row ints w = (Ok parents, w)
             ∧ ∀ x, x ∈ parents ↔ ∃ i, i ∈ ints ∧ row !! i = Some x.
Proof.
  induction ints as [|i ints IH]; intros Hlt; simpl.
  - exists ∅. split; [done|]. intros x. split; [set_solver|].
    intros (i & Hi & _). by apply elem_of_nil in Hi.
  - destruct (lookup_lt_is_Some_2 row i) as [u Hu]; [apply Hlt; left|].
    destruct IH as (rest & Hrest & Hspec); [intros j Hj; apply Hlt; by right|].
    rewrite Hu. exists ({[u]} ∪ rest). split.
    + by rewrite (bind_ok _ _ _ _ _ Hrest).
    + intros x. rewrite elem_of_union, elem_of_singleton, Hspec. split.
      * intros [->|(j & Hj & Hx)]; [exists i; split; [left|done]|].
        exists j. split; [by right|done].
      * intros (j & [->|Hj]%elem_of_cons & Hx); [left; congruence|].
        right. by exists j.
Qed.

Lemma local_mask_bits (mask : N) (K i : nat) :
  (mask < 2 ^ N.of_nat K)%N → N.testbit mask (N.of_nat i) = true → i < K.
Proof.
  intros Hlt Hbit. destruct (decide (i < K)) as [|Hge]; [done|].
  destruct (decide (mask = 0%N)) as [->|Hne]; [by rewrite N.bits_0 in Hbit|].
  rewrite N.bits_above_log2 in Hbit; [done|].
  apply N.log2_lt_pow2; [lia|].
  eapply N.lt_le_trans; [exact Hlt|]. apply N.pow_le_mono_r; lia.
Qed.

(** C3.  [Score.sample_pset(v, U, T)] draws [E] and takes the restricted
    branch exactly when [-E < W_restricted - logaddexp(W_restricted,
    W_complement)], a comparison made on the log-scores themselves.  The
    branch taken is sampled with a threshold built from a second, fresh
    draw [E']: the restricted cache's [sample_pset] receives
    [W_restricted - E'], the complement cache's receives
    [W_complement - E'].  (With no complement cache to sample from, the
    failed test ends in an [AttributeError] after the one draw.) *)
Theorem sample_pset_exponential_race self v (row : list nat) U T w :
  (∀ x y : float, logaddexp x y = logaddexp y x) →
  C self !! v = Some row →
  let U_bm := bm (U ∩ list_to_set row) row in
  let T_bm := bm (T ∩ list_to_set row) row in
  let Tq := if decide (T = ∅) then None else Some T_bm in
  let skip := bool_decide (T ≠ ∅ ∧ T ∩ list_to_set row = ∅) in
  let W_restricted := if skip then neg_inf else cr_sum (c_r_score self) v U_bm Tq in
  let T' := if decide (T = ∅) then U else T in
  let live := match c_c_score self with
              | Some cc => if bool_decide (U ⊆ list_to_set row) then None else Some cc
              | None => None
              end in
  let W_complement := match live with
                      | Some cc => cc_sum cc v U T'
                      | None => neg_inf
                      end in
  let queries := (if skip then [] else [CRSum v U_bm Tq])
                 ++ match live with Some _ => [CCSum v U T' None] | None => [] end in
  let E := rng w (drawn w) in
  let E' := rng w (drawn w + 1) in
  let restricted_branch :=
    flt (fneg E) (fsub W_restricted (logaddexp W_restricted W_complement)) in
  (restricted_branch = true →
     let threshold := fsub W_restricted E' in
     let pset := cr_sample_pset (c_r_score self) v U_bm T_bm threshold in
     sample_pset self v U T w
     = (parents ← C_members row (bm_to_ints pset);
        mret ((v, parents), score_array self v pset))
         (after w 2 (queries ++ [CRSamplePset v U_bm T_bm threshold])))
  ∧ (restricted_branch = false →
     ∀ cc, c_c_score self = Some cc →
       let threshold := fsub W_complement E' in
       let drawn_family := cc_sample_pset cc v U T' threshold in
       sample_pset self v U T w
       = (Ok ((v, drawn_family.1), drawn_family.2),
          after w 2 (queries ++ [CCSamplePset v U T' threshold])))
  ∧ (restricted_branch = false →
     c_c_score self = None →
     sample_pset self v U T w
     = (Raise (AttributeError "'NoneType' object has no attribute 'sample_pset'"),
        after w 1 queries)).
Proof.
  intros Hcomm Hrow U_bm T_bm Tq skip W_restricted T' live W_complement queries E E'
    restricted_branch.
  pose proof (sample_pset_weights self v row U T w Hrow) as Hrun. cbv zeta in Hrun.
  fold U_bm T_bm Tq skip W_restricted T' live W_complement queries in Hrun.
  rewrite (bind_ok _ _ _ _ _ (np_random_exponential_run _)), after_after in Hrun.
  change (rng (after w 0 queries) (drawn (after w 0 queries)))
    with (rng w (drawn w + 0)) in Hrun.
  rewrite Nat.add_0_r, app_nil_r, (Hcomm W_complement W_restricted) in Hrun.
  fold E restricted_branch in Hrun.
  assert (rng (after w (0 + 1) queries) (drawn (after w (0 + 1) queries)) = E') as HE'
    by done.
  split; [|split].
  - intros Hb threshold pset. rewrite Hrun, Hb.
    rewrite (bind_ok _ _ _ _ _ (np_random_exponential_run _)), after_after, HE'.
    rewrite (bind_ok _ _ _ _ _ (c_r_score_sample_pset_run _ _ _ _ _ _)), after_after.
    by rewrite app_nil_r.
  - intros Hb cc Hcc threshold drawn_family. rewrite Hrun, Hb, Hcc.
    rewrite (bind_ok _ _ _ _ _ (np_random_exponential_run _)), after_after, HE'.
    rewrite (bind_ok _ _ _ _ _ (c_c_score_sample_pset_run _ _ _ _ _ _)), after_after.
    rewrite app_nil_r. unfold drawn_family, threshold.
    by destruct (cc_sample_pset cc v U T' _).
  - intros Hb Hcc. by rewrite Hrun, Hb, Hcc.
Qed.

(** C8.  When the complement cache is absent or [U] lies within [C[v]], the
    restricted weight is finite and the draw [E] is positive,
    [Score.sample_pset(v, U, T)] takes the restricted branch: the only
    calls it makes go to the restricted cache, and for the local mask
    [pset] that the cache samples it returns the family
    [(v, {C[v][i] : bit i of pset is set})] with the score
    [score_array[v][pset]]. *)
Theorem sample_pset_restricted_branch `{!FloatLaws float} self v (row : list nat) U T w :
  C self !! v = Some row →
  c_c_score self = None ∨ U ⊆ list_to_set row →
  let U_bm := bm (U ∩ list_to_set row) row in
  let T_bm := bm (T ∩ list_to_set row) row in
  let Tq := if decide (T = ∅) then None else Some T_bm in
  let skip := bool_decide (T ≠ ∅ ∧ T ∩ list_to_set row = ∅) in
  let W_restricted := if skip then neg_inf else cr_sum (c_r_score self) v U_bm Tq in
  let threshold := fsub W_restricted (rng w (drawn w + 1)) in
  let pset := cr_sample_pset (c_r_score self) v U_bm T_bm threshold in
  is_finite W_restricted = true →
  flt fzero (rng w (drawn w)) = true →
  (pset < 2 ^ N.of_nat (length row))%N →
  ∃ parents,
    sample_pset self v U T w
    = (Ok ((v, parents), score_array self v pset),
       after w 2 ((if skip then [] else [CRSum v U_bm Tq])
                  ++ [CRSamplePset v U_bm T_bm threshold]))
    ∧ ∀ u, u ∈ parents ↔ ∃ i, N.testbit pset (N.of_nat i) = true ∧ row !! i = Some u.
Proof.
  intros Hrow Hno U_bm T_bm Tq skip W_restricted threshold pset Hfin Hpos Hmask.
  pose proof (sample_pset_weights self v row U T w Hrow) as Hrun. cbv zeta in Hrun.
  fold U_bm T_bm Tq skip W_restricted in Hrun.
  assert (match c_c_score self with
          | Some cc => if bool_decide (U ⊆ list_to_set row) then None else Some cc
          | None => None
          end = None) as Hlive.
  { destruct (c_c_score self); [|done].
    destruct Hno as [|Hsub]; [done|]. by rewrite bool_decide_eq_true_2. }
  rewrite Hlive in Hrun. rewrite Hrun. clear Hrun.
  rewrite (bind_ok _ _ _ _ _ (np_random_exponential_run _)), after_after.
  change (rng (after w 0 ?q) (drawn (after w 0 ?q))) with (rng w (drawn w + 0)).
  rewrite Nat.add_0_r, !app_nil_r.
  rewrite logaddexp_neg_inf_l, fsub_diag, fneg_pos_lt_zero by done.
  rewrite (bind_ok _ _ _ _ _ (np_random_exponential_run _)), after_after.
  change (rng (after w (0 + 1) ?q) (drawn (after w (0 + 1) ?q)))
    with (rng w (drawn w + (0 + 1))).
  change (0 + 1) with 1. fold threshold.
  rewrite (bind_ok _ _ _ _ _ (c_r_score_sample_pset_run _ _ _ _ _ _)), after_after.
  fold pset. rewrite app_nil_r.
  destruct (C_members_ok row (bm_to_ints pset)
              (after w (1 + 1 + 0) ((if skip then [] else [CRSum v U_bm Tq])
                                    ++ [CRSamplePset v U_bm T_bm threshold])))
    as (parents & Hparents & Hspec).
  { intros i Hi. apply bm_to_ints_spec in Hi. by eapply local_mask_bits. }
  exists parents. split.
  - by rewrite (bind_ok _ _ _ _ _ Hparents).
  - intros u. rewrite Hspec. by setoid_rewrite bm_to_ints_spec.
Qed.

End ScoreFacts.

(** ** Score: [sample_DAG] *)

Section SampleDAGFacts.
Context {float : Type} `{FloatOps float}.
Import Score.
Implicit Types (self : Score.t float) (w : world float) (R : list (gset nat)).

Lemma find_block_bound v (blocks : list (gset nat)) k b1 b2 :
  blocks ≠ [] → find_block v blocks k b1 = find_block v blocks k b2.
Proof. destruct blocks as [|B rest]; [done|]. intros _. simpl. done. Qed.

Lemma find_block_first v (blocks : list (gset nat)) k bound i B :
  blocks !! i = Some B → v ∈ B →
  (∀ j Bj, j < i → blocks !! j = Some Bj → v ∉ Bj) →
  find_block v blocks k bound = Some (k + i).
Proof.
  revert k bound i. induction blocks as [|B0 rest IH]; intros k bound i Hi Hv Hfirst.
  - by rewrite lookup_nil in Hi.
  - simpl. destruct i as [|i].
    + injection Hi as ->. rewrite bool_decide_eq_true_2 by done. f_equal. lia.
    + rewrite bool_decide_eq_false_2 by (apply (Hfirst 0); [lia|done]).
      rewrite (IH (S k) (Some k) i); [f_equal; lia|done|done|].
      intros j Bj Hj Hlook. apply (Hfirst (S j)); [lia|done].
Qed.

Lemma find_block_partition nn R v i B bound :
  ordered_partition nn R → R !! i = Some B → v ∈ B →
  find_block v R 0 bound = Some i.
Proof.
  intros (_ & Hdisj & _) Hi Hv.
  rewrite (find_block_first v R 0 bound i B); [done|done|done|].
  intros j Bj Hj Hlook Hvj.
  assert (Bj ## B) as Hd by (eapply Hdisj; [done|done|lia]).
  by apply (Hd v).
Qed.

Lemma sequence_M_length {A B} (f : A → M float B) (xs : list A) w results w' :
  sequence_M f xs w = (Ok results, w') → length results = length xs.
Proof.
  revert w results w'. induction xs as [|x xs IH]; intros w results w'; simpl.
  - by intros [= <- _].
  - unfold bind. destruct (f x w) as [[b|e] w1]; [|done].
    destruct (sequence_M f xs w1) as [[bs|e] w2] eqn:Hrest; [|done].
    intros [= <- _]. simpl. f_equal. by eapply IH.
Qed.

Lemma sequence_M_lookup {A B} (f : A → M float B) (P : A → B → Prop) (xs : list A)
    w results w' :
  (∀ x w0 b w1, f x w0 = (Ok b, w1) → P x b) →
  sequence_M f xs w = (Ok results, w') →
  ∀ k x b, xs !! k = Some x → results !! k = Some b → P x b.
Proof.
  intros HP. revert w results w'. induction xs as [|x xs IH]; intros w results w'; simpl.
  - intros _ k y b Hk. by rewrite lookup_nil in Hk.
  - unfold bind. destruct (f x w) as [[b0|e] w1] eqn:Hx; [|done].
    destruct (sequence_M f xs w1) as [[bs|e] w2] eqn:Hrest; [|done].
    intros [= <- _] [|k] y b; simpl.
    + intros [= <-] [= <-]. by eapply HP.
    + by eapply IH.
Qed.

(** The loop of [sample_DAG] is the sequence of its turns, with the
    families appended and the scores added up from the left. *)
Lemma sample_DAG_loop_run self R (vs : list nat) bound DAG DAG_score w :
  R ≠ [] ∨ vs = [] →
  sample_DAG_loop self R vs bound DAG DAG_score w
  = match sequence_M (sample_DAG_turn self R) vs w with
    | (Ok results, w') =>
        (Ok (DAG ++ results.*1, foldl fadd DAG_score results.*2), w')
    | (Raise e, w') => (Raise e, w')
    end.
Proof.
  revert bound DAG DAG_score w.
  induction vs as [|v vs IH]; intros bound DAG DAG_score w HR; simpl.
  - by rewrite app_nil_r.
  - destruct HR as [HR|]; [|done].
    unfold sample_DAG_turn at 1. rewrite (find_block_bound v R 0 bound None HR).
    destruct (find_block v R 0 None) as [i|]; [|done].
    unfold mbind, M_bind, bind.
    destruct (sample_family self R v i w) as [[[fam family_score]|e] w1]; [|done].
    rewrite IH by by left.
    destruct (sequence_M (sample_DAG_turn self R) vs w1) as [[results|e] w2]; [|done].
    simpl. by rewrite <- app_assoc.
Qed.

Lemma sample_pset_node self v U T w fam family_score w' :
  sample_pset self v U T w = (Ok (fam, family_score), w') → fam.1 = v.
Proof.
  destruct (C self !! v) as [row|] eqn:Hrow.
  - rewrite (sample_pset_weights self v row U T w Hrow).
    unfold mbind, M_bind, bind. simpl.
    destruct (flt _ _).
    + destruct (C_members _ _ _) as [[parents|e] w1]; [|done]. by intros [= <- _ _].
    + destruct (c_c_score self) as [cc|]; [|done]. simpl.
      destruct (cc_sample_pset cc v U _ _). by intros [= <- _ _].
  - unfold sample_pset, C_row. rewrite Hrow. done.
Qed.

Lemma sample_DAG_turn_node self R v w fam family_score w' :
  sample_DAG_turn self R v w = (Ok (fam, family_score), w') → fam.1 = v.
Proof.
  unfold sample_DAG_turn. destruct (find_block v R 0 None) as [i|]; [|done].
  unfold sample_family. case_bool_decide.
  - unfold mbind, M_bind, bind. destruct (sum self v ∅ ∅ w) as [[s|e] w1]; [|done].
    by intros [= <- _ _].
  - destruct (R !! (i - 1)); [|done]. apply sample_pset_node.
Qed.

(** C1.  For a valid ordered partition [R], [Score.sample_DAG(R)] takes one
    turn per variable, in the order [0, ..., n-1].  The turn of a variable
    [v] of block [R_0] yields the family [(v, {})] with the score
    [sum(v, {}, {})]; the turn of a variable of a later block [R_i] is
    [sample_pset(v, U, T)] with [U] the union of [R_0 .. R_(i-1)] and
    [T = R_(i-1)].  The DAG returned lists the families of the turns and its
    score is their scores added up from [0] in that order, so there is one
    family per variable, the [v]-th one being that of [v]. *)
Theorem sample_DAG_by_blocks self R w :
  ordered_partition (n self) R →
  ∃ turn : nat → M float (family * float),
    (∀ v B, R !! 0 = Some B → v ∈ B →
       turn v = (family_score ← sum self v ∅ ∅; mret ((v, ∅), family_score)))
    ∧ (∀ v i B T, 0 < i → R !! i = Some B → v ∈ B → R !! (i - 1) = Some T →
       turn v = sample_pset self v (⋃ take i R) T)
    ∧ sample_DAG self R w
      = (results ← sequence_M turn (seq 0 (n self));
         mret (results.*1, foldl fadd fzero results.*2)) w
    ∧ (∀ DAG DAG_score w', sample_DAG self R w = (Ok (DAG, DAG_score), w') →
       length DAG = n self ∧ ∀ v, v < n self → fst <$> DAG !! v = Some v).
Proof.
  intros Hpart. exists (sample_DAG_turn self R).
  assert (sample_DAG self R w
      = (results ← sequence_M (sample_DAG_turn self R) (seq 0 (n self));
         mret (results.*1, foldl fadd fzero results.*2)) w) as Hrun.
  { unfold sample_DAG. rewrite sample_DAG_loop_run.
    - unfold mbind, M_bind, bind. by destruct (sequence_M _ _ _) as [[results|e] w1].
    - destruct R as [|B R']; [right|by left].
      destruct (n self) as [|k] eqn:Hn; [done|].
      destruct Hpart as (_ & _ & Hcover).
      destruct (proj1 (Hcover 0)) as (B & HB & _); [lia|]. by apply elem_of_nil in HB. }
  split; [|split; [|split]].
  - intros v B HB Hv. unfold sample_DAG_turn.
    by rewrite (find_block_partition _ _ _ _ _ _ Hpart HB Hv).
  - intros v i B T Hi HB Hv HT. unfold sample_DAG_turn.
    rewrite (find_block_partition _ _ _ _ _ _ Hpart HB Hv). unfold sample_family.
    rewrite bool_decide_eq_false_2 by lia. by rewrite HT.
  - done.
  - intros DAG DAG_score w'. rewrite Hrun. unfold mbind, M_bind, bind.
    destruct (sequence_M _ _ _) as [[results|e] w1] eqn:Hseq; [|done].
    intros [= <- _ _]. split.
    + rewrite length_fmap, (sequence_M_length _ _ _ _ _ Hseq). apply length_seq.
    + intros v Hv.
      destruct (lookup_lt_is_Some_2 results v) as [[fam s] Hlook].
      { rewrite (sequence_M_length _ _ _ _ _ Hseq), length_seq. done. }
      rewrite list_lookup_fmap, Hlook. simpl. f_equal.
      apply (sequence_M_lookup _ (λ x b, b.1.1 = x) _ _ _ _
               (λ x w0 '(fam0, s0) w2, sample_DAG_turn_node self R x w0 fam0 s0 w2)
               Hseq v v (fam, s)); [|done].
      by apply lookup_seq_lt.
Qed.

End SampleDAGFacts.

(** ** Gadget *)

Section GadgetFacts.
Context {float : Type} `{FloatOps float}.
Context {temp : Type} `{TempOps temp}.
Import Gadget.
Implicit Types (self : Gadget.t float) (s : run_state float).

(** C5, as the code has it.  [Gadget] builds the complement-score cache
    exactly when [K < n - 1]; the test is made once, in the set-up step.
    When [K >= n - 1] the slot stays [None] and the [Score] object built by
    [_init_mcmc] carries [None].  At query time [sum] then returns the
    restricted weight.  [sample_pset], however, enters its complement branch
    without a look at the slot: it samples the restricted cache when the
    first draw [E] passes the test
    [-E < W_restricted - logaddexp(-inf, W_restricted)], and when the draw
    fails the test it ends in the [AttributeError] of [None.sample_pset],
    after that one draw. *)
Theorem complement_cache_iff_K_lt_n_minus_1 self
    (scorer : Z → list Z → float)
    (CandidateComplementScore :
       LocalScore.t float → list (list nat) → Z → float → Score.CandidateComplementScore float) :
  let cache := _precompute_candidate_complement_scoring self scorer CandidateComplementScore in
  let score := (_init_mcmc self cache).1 in
  (is_Some cache ↔ (K (prm self) < Z.of_nat (data_n self) - 1)%Z)
  ∧ ((Z.of_nat (data_n self) - 1 ≤ K (prm self))%Z →
     cache = None
     ∧ Score.c_c_score score = None
     ∧ ∀ v (row : list nat) (U T : gset nat) w,
         C self !! v = Some row →
         let U_bm := bm (U ∩ list_to_set row) row in
         let T_bm := bm (T ∩ list_to_set row) row in
         let Tq := if decide (T = ∅) then None else Some T_bm in
         let skip := bool_decide (T ≠ ∅ ∧ T ∩ list_to_set row = ∅) in
         let W_restricted :=
           if skip then neg_inf else Score.cr_sum (c_r_score self) v U_bm Tq in
         let queries := if skip then [] else [CRSum v U_bm Tq] in
         let E := rng w (drawn w) in
         let E' := rng w (drawn w + 1) in
         let restricted_branch :=
           flt (fneg E) (fsub W_restricted (logaddexp neg_inf W_restricted)) in
         Score.sum score v U T w = (Ok W_restricted, after w 0 queries)
         ∧ (restricted_branch = true →
            let threshold := fsub W_restricted E' in
            let pset := Score.cr_sample_pset (c_r_score self) v U_bm T_bm threshold in
            Score.sample_pset score v U T w
            = (parents ← Score.C_members row (bm_to_ints pset);
               mret ((v, parents), score_array self v pset))
                (after w 2 (queries ++ [CRSamplePset v U_bm T_bm threshold])))
         ∧ (restricted_branch = false →
            Score.sample_pset score v U T w
            = (Raise (AttributeError "'NoneType' object has no attribute 'sample_pset'"),
               after w 1 queries))).
Proof.
  intros cache score.
  destruct (decide (K (prm self) < Z.of_nat (data_n self) - 1)%Z) as [HK|HK].
  - split; [|intros; lia]. split; [done|]. intros _.
    unfold cache, _precompute_candidate_complement_scoring.
    rewrite bool_decide_eq_true_2 by done. by eexists.
  - assert (cache = None) as Hnone.
    { unfold cache, _precompute_candidate_complement_scoring.
      by rewrite bool_decide_eq_false_2. }
    split; [rewrite Hnone; split; [by intros [? ?]|lia]|].
    intros _. split; [done|].
    assert (Score.c_c_score score = None) as Hslot by (unfold score; by rewrite Hnone).
    split; [done|].
    intros v row U T w Hrow U_bm T_bm Tq skip W_restricted queries E E' restricted_branch.
    assert (Score.C score !! v = Some row) as Hrow' by done.
    split; [|split].
    + by apply (sum_run_restricted score v row U T w Hrow' (or_introl Hslot)).
    + intros Hb threshold pset.
      pose proof (sample_pset_weights score v row U T w Hrow') as Hrun. cbv zeta in Hrun.
      rewrite Hslot in Hrun. rewrite Hrun. clear Hrun.
      rewrite (bind_ok _ _ _ _ _ (np_random_exponential_run _)), after_after.
      change (rng (after w 0 ?q) (drawn (after w 0 ?q))) with (rng w (drawn w + 0)).
      rewrite Nat.add_0_r, !app_nil_r.
      change (Score.c_r_score score) with (c_r_score self).
      fold U_bm T_bm Tq skip W_restricted queries E restricted_branch. rewrite Hb.
      rewrite (bind_ok _ _ _ _ _ (np_random_exponential_run _)), after_after.
      change (rng (after w (0 + 1) queries) (drawn (after w (0 + 1) queries))) with E'.
      rewrite (bind_ok _ _ _ _ _ (c_r_score_sample_pset_run _ _ _ _ _ _)), after_after.
      by rewrite app_nil_r.
    + intros Hb.
      pose proof (sample_pset_weights score v row U T w Hrow') as Hrun. cbv zeta in Hrun.
      rewrite Hslot in Hrun. rewrite Hrun. clear Hrun.
      rewrite (bind_ok _ _ _ _ _ (np_random_exponential_run _)), after_after.
      change (rng (after w 0 ?q) (drawn (after w 0 ?q))) with (rng w (drawn w + 0)).
      rewrite Nat.add_0_r, !app_nil_r.
      change (Score.c_r_score score) with (c_r_score self).
      fold U_bm T_bm Tq skip W_restricted queries E restricted_branch. by rewrite Hb.
Qed.

Lemma ladder_pairs_sound (m : Z) :
  truediv 0 m = t_zero → truediv m m = t_one → ladder_pairs m = true →
  truediv_ladder m.
Proof.
  intros Hzero Hone Hpairs. split; [done|]. split; [done|]. intros i j Hij Hj.
  unfold ladder_pairs in Hpairs.
  pose proof (proj1 (forallb_forall _ _) Hpairs i) as Hi.
  rewrite <- list_elem_of_In, elem_of_seqZ in Hi. specialize (Hi ltac:(lia)).
  pose proof (proj1 (forallb_forall _ _) Hi j) as Hj'.
  rewrite <- list_elem_of_In, elem_of_seqZ in Hj'. apply Hj'. lia.
Qed.

(** C7.  With [mc3 = M > 1], [_init_mcmc] builds exactly [M] partition
    samplers inside the tempered ensemble; the [i]-th one has the
    temperature [i/(M-1)], the float that Python's division of the two ints
    returns.  By the facts [truediv_ladder] about these quotients the
    temperatures increase strictly from [0.0] for the first to [1.0] for
    the last.  With [mc3 = 1] it builds a single sampler and passes no
    temperature. *)
Theorem init_mcmc_temperature_ladder self
    (c_c_score : option (Score.CandidateComplementScore float)) :
  let M := mc3 (prm self) in
  let built := (_init_mcmc self c_c_score).2 in
  ((1 < M)%Z →
     ∃ chains, built = MC3 chains
       ∧ length chains = Z.to_nat M
       ∧ (∀ i, (0 ≤ i < M)%Z →
            temperature <$> chains !! Z.to_nat i = Some (Some (truediv i (M - 1))))
       ∧ (truediv_ladder (M - 1) →
            temperature <$> head chains = Some (Some t_zero)
            ∧ temperature <$> last chains = Some (Some t_one)
            ∧ (∀ i j ci cj ti tj, i < j →
                 chains !! i = Some ci → chains !! j = Some cj →
                 temperature ci = Some ti → temperature cj = Some tj →
                 tlt ti tj = true)))
  ∧ (M = 1%Z →
     ∃ chain, built = Single chain ∧ temperature chain = None).
Proof.
  intros M built. unfold built, _init_mcmc. fold M. split.
  - intros HM. rewrite bool_decide_eq_true_2 by done. simpl.
    eexists. split; [done|].
    assert (∀ i, (0 ≤ i < M)%Z →
      seqZ 0 M !! Z.to_nat i = Some i) as Hseq.
    { intros i Hi. apply lookup_seqZ. lia. }
    split; [by rewrite length_map, length_seqZ|].
    split; [intros i Hi; by rewrite list_lookup_fmap, Hseq|].
    intros (Hzero & Hone & Hlt). split; [|split].
    + rewrite head_lookup, list_lookup_fmap.
      pose proof (Hseq 0%Z ltac:(lia)) as Hhd. change (Z.to_nat 0) with 0 in Hhd.
      rewrite Hhd. simpl. by rewrite Hzero.
    + rewrite last_lookup, length_map, length_seqZ, list_lookup_fmap.
      replace (Nat.pred (Z.to_nat M)) with (Z.to_nat (M - 1)) by lia.
      rewrite Hseq by lia. simpl. by rewrite Hone.
    + intros i j ci cj ti tj Hij Hi Hj Hti Htj.
      apply list_lookup_fmap_Some in Hi as (zi & -> & Hzi).
      apply list_lookup_fmap_Some in Hj as (zj & -> & Hzj).
      apply lookup_seqZ in Hzi as [-> Hi]. apply lookup_seqZ in Hzj as [-> Hj].
      simpl in Hti, Htj. injection Hti as <-. injection Htj as <-.
      apply Hlt; lia.
  - intros HM. rewrite bool_decide_eq_false_2 by lia. by eexists.
Qed.

(** *** The run *)

Lemma G_bind_ok {A B} (m : G float A) (k : A → G float B) s a s' :
  m s = (Ok a, s') → (m ≫= k) s = k a s'.
Proof. intros Hm. unfold mbind, G_mbind, G_bind. by rewrite Hm. Qed.

Lemma G_bind_raise {A B} (m : G float A) (k : A → G float B) s e s' :
  m s = (Raise e, s') → (m ≫= k) s = (Raise e, s').
Proof. intros Hm. unfold mbind, G_mbind, G_bind. by rewrite Hm. Qed.

Lemma only_reported_refl s : only_reported s s.
Proof. done. Qed.

Lemma only_reported_trans s1 s2 s3 :
  only_reported s1 s2 → only_reported s2 s3 → only_reported s1 s3.
Proof. intros (? & ? & ?) (? & ? & ?). repeat split; congruence. Qed.

(** A progress report touches the clock and the log file only; it fails
    only with the division by [burn_in + iterations = 0], and when it
    prints nothing it leaves [timer] and [first] as they were. *)
Lemma progress_if_logging_cases self (i : Z) (st : float * bool) s r s' :
  progress_if_logging self i st s = (r, s') →
  only_reported s s'
  ∧ match r with
    | Ok st' => (burn_in (prm self) + iterations (prm self))%Z ≠ 0%Z ∨ st' = st
    | Raise e =>
        (burn_in (prm self) + iterations (prm self))%Z = 0%Z
        ∧ _logfile self = true
        ∧ e = ZeroDivisionError "division by zero"
    end.
Proof.
  unfold progress_if_logging, progress, print_stats.
  destruct (_logfile self); [|intros [= <- <-]; split; [done|by right]].
  unfold mbind, G_mbind, G_bind, time_time, print, mret, G_mret, G_ret, G_raise.
  cbn [fst snd]. destruct (flt _ _); [|intros [= <- <-]; split; [done|by right]].
  destruct st.2; cbn [fst snd]; case_bool_decide; intros [= <- <-];
    (split; [done|]); auto.
Qed.

Lemma print_stats_cases self (i : Z) (header : bool) s r s' :
  print_stats self i header s = (r, s') →
  only_reported s s'
  ∧ match r with
    | Ok _ => (burn_in (prm self) + iterations (prm self))%Z ≠ 0%Z
    | Raise e =>
        (burn_in (prm self) + iterations (prm self))%Z = 0%Z
        ∧ e = ZeroDivisionError "division by zero"
    end.
Proof.
  unfold print_stats, mbind, G_mbind, G_bind, print, mret, G_mret, G_ret, G_raise.
  destruct header; cbn [fst snd]; case_bool_decide; intros [= <- <-]; by split.
Qed.

Lemma mcmc_sample_run s :
  ∃ s1, mcmc_sample s = (Ok (mcmc_sample_0 s (sampled s)), s1)
        ∧ mcmc_sample_0 s1 = mcmc_sample_0 s
        ∧ sampled s1 = S (sampled s)
        ∧ handler s1 = handler s.
Proof. by eexists. Qed.

Lemma in_handler_run {A} (m : M float A) s r w :
  m (handler s) = (r, w) →
  ∃ s1, in_handler m s = (r, s1)
        ∧ mcmc_sample_0 s1 = mcmc_sample_0 s
        ∧ sampled s1 = sampled s
        ∧ handler s1 = w.
Proof. intros Hm. unfold in_handler. rewrite Hm. by eexists. Qed.

(** The first loop advances the sampler once per index and records
    nothing. *)
Lemma burn_in_loop_cases self (is_ : list Z) (st : float * bool) s r s' :
  burn_in_loop self is_ st s = (r, s') →
  mcmc_sample_0 s' = mcmc_sample_0 s
  ∧ handler s' = handler s
  ∧ match r with
    | Ok st' =>
        sampled s' = sampled s + length is_
        ∧ ((burn_in (prm self) + iterations (prm self))%Z ≠ 0%Z ∨ st' = st)
    | Raise e =>
        (burn_in (prm self) + iterations (prm self))%Z = 0%Z
        ∧ _logfile self = true
        ∧ e = ZeroDivisionError "division by zero"
    end.
Proof.
  revert st s. induction is_ as [|i rest IH]; intros st s.
  - intros [= <- <-]. do 2 (split; [done|]). split; [simpl; lia|by right].
  - cbn [burn_in_loop].
    destruct (mcmc_sample_run s) as (s1 & Hs1 & Hm1 & Hn1 & Hw1).
    rewrite (G_bind_ok _ _ _ _ _ Hs1).
    destruct (progress_if_logging self i st s1) as [[st1|e] s2] eqn:Hp;
      destruct (progress_if_logging_cases _ _ _ _ _ _ Hp) as [(Hm2 & Hn2 & Hw2) Hr].
    + rewrite (G_bind_ok _ _ _ _ _ Hp). intros Hloop.
      destruct (IH _ _ Hloop) as (Hm3 & Hw3 & Hr3).
      split; [congruence|]. split; [congruence|].
      destruct r as [st'|e'].
      * destruct Hr3 as [Hn3 Hst]. split; [simpl; lia|].
        destruct Hr as [?| ->]; [by left|done].
      * done.
    + rewrite (G_bind_raise _ _ _ _ _ Hp). intros [= <- <-].
      split; [congruence|]. split; [congruence|]. done.
Qed.

Lemma thinned_from_cons (thin a : Z) (len : nat) :
  thinned_from thin a (Z.of_nat (S len))
  = if bool_decide (a `mod` thin = 0)%Z
    then a :: thinned_from thin (Z.succ a) (Z.of_nat len)
    else thinned_from thin (Z.succ a) (Z.of_nat len).
Proof.
  unfold thinned_from. rewrite seqZ_cons by lia.
  replace (Z.pred (Z.of_nat (S len))) with (Z.of_nat len) by lia.
  rewrite filter_cons. by repeat case_bool_decide; case_decide.
Qed.

(** The second loop from iteration [a] on.  When it returns, the DAGs and
    scores it has appended are the results of the draws at the thinned
    iterations; when it raises, the exception is that of the first failing
    draw or the division of a progress report. *)
Lemma sampling_loop_cases self (score : Score.t float) (first : nat) (len : nat) :
  thinning (prm self) ≠ 0%Z →
  ∀ (a : Z) dags dag_scores (st : float * bool) s r s',
    (0 ≤ a)%Z → sampled s = first + Z.to_nat a →
    sampling_loop self score (seqZ a (Z.of_nat len)) dags dag_scores st s = (r, s') →
    let draws :=
      recorded_draws score (mcmc_sample_0 s) first
        (thinned_from (thinning (prm self)) a (Z.of_nat len)) (handler s) in
    mcmc_sample_0 s' = mcmc_sample_0 s
    ∧ match r with
      | Ok (dags', dag_scores', st') =>
          ∃ results,
            draws = (Ok results, handler s')
            ∧ dags' = dags ++ results.*1
            ∧ dag_scores' = dag_scores ++ results.*2
            ∧ sampled s' = sampled s + len
            ∧ ((burn_in (prm self) + iterations (prm self))%Z ≠ 0%Z ∨ st' = st)
      | Raise e =>
          ((burn_in (prm self) + iterations (prm self))%Z = 0%Z
           ∧ _logfile self = true
           ∧ e = ZeroDivisionError "division by zero")
          ∨ draws = (Raise e, handler s')
      end.
Proof.
  intros Hthin. induction len as [|len IH];
    intros a dags dag_scores st s r s' Ha Hs Hloop draws.
  - injection Hloop as <- <-. split; [done|]. exists [].
    rewrite !app_nil_r. repeat split; [lia|by right].
  - rewrite seqZ_cons in Hloop by lia.
    replace (Z.pred (Z.of_nat (S len))) with (Z.of_nat len) in Hloop by lia.
    cbn [sampling_loop] in Hloop.
    unfold draws. rewrite thinned_from_cons. clear draws.
    destruct (progress_if_logging self (a + burn_in (prm self)) st s) as [[st1|e] s1] eqn:Hp;
      destruct (progress_if_logging_cases _ _ _ _ _ _ Hp) as [(Hm1 & Hn1 & Hw1) Hr].
    2:{ rewrite (G_bind_raise _ _ _ _ _ Hp) in Hloop. injection Hloop as <- <-.
        split; [done|]. by left. }
    rewrite (G_bind_ok _ _ _ _ _ Hp) in Hloop.
    rewrite (bool_decide_eq_false_2 _ Hthin) in Hloop.
    destruct (mcmc_sample_run s1) as (s2 & Hs2 & Hm2 & Hn2 & Hw2).
    case_bool_decide as Hmod; rewrite (G_bind_ok _ _ _ _ _ Hs2) in Hloop.
    + unfold recorded_draws. cbn [sequence_M]. rewrite <- Hs.
      rewrite Hm1, Hn1 in Hloop.
      destruct (Score.sample_DAG score (mcmc_sample_0 s (sampled s)) (handler s))
        as [[[dag dag_score]|e1] w1] eqn:Hdraw.
      * assert (Score.sample_DAG score (mcmc_sample_0 s (sampled s)) (handler s2)
                = (Ok (dag, dag_score), w1)) as Hdraw2 by (by rewrite Hw2, Hw1).
        destruct (in_handler_run _ s2 _ _ Hdraw2) as (s3 & Hs3 & Hm3 & Hn3 & Hw3).
        rewrite (G_bind_ok _ _ _ _ _ Hs3) in Hloop.
        assert (sampled s3 = first + Z.to_nat (Z.succ a)) as Hnext by lia.
        destruct (IH (Z.succ a) _ _ _ _ _ _ ltac:(lia) Hnext Hloop) as [Hm4 Hr4].
        split; [congruence|].
        rewrite Hm3, Hm2, Hm1, Hw3 in Hr4. unfold recorded_draws in Hr4.
        unfold bind. rewrite Hdraw.
        destruct r as [[[dags' dag_scores'] st']|e'].
        -- destruct Hr4 as (rest & Hrest & -> & -> & Hn4 & Hst).
           exists ((dag, dag_score) :: rest). rewrite Hrest.
           split; [done|]. cbn [fmap list_fmap fst snd]. rewrite <- !app_assoc.
           split; [done|]. split; [done|]. split; [lia|].
           destruct Hr as [?| ->]; [by left|done].
        -- destruct Hr4 as [Hzero|Hrest]; [by left|]. right. by rewrite Hrest.
      * assert (Score.sample_DAG score (mcmc_sample_0 s (sampled s)) (handler s2)
                = (Raise e1, w1)) as Hdraw2 by (by rewrite Hw2, Hw1).
        destruct (in_handler_run _ s2 _ _ Hdraw2) as (s3 & Hs3 & Hm3 & Hn3 & Hw3).
        rewrite (G_bind_raise _ _ _ _ _ Hs3) in Hloop. injection Hloop as <- <-.
        split; [congruence|]. right. unfold bind. by rewrite Hdraw, Hw3.
    + assert (sampled s2 = first + Z.to_nat (Z.succ a)) as Hnext by lia.
      destruct (IH (Z.succ a) _ _ _ _ _ _ ltac:(lia) Hnext Hloop) as [Hm4 Hr4].
      split; [congruence|]. rewrite Hm2, Hm1, Hw2, Hw1 in Hr4.
      destruct r as [[[dags' dag_scores'] st']|e'].
      * destruct Hr4 as (results & Hres & -> & -> & Hn4 & Hst).
        exists results. split; [done|]. split; [done|]. split; [done|]. split; [lia|].
        destruct Hr as [?| ->]; [by left|done].
      * done.
Qed.

(** [seqZ] and the thinned iterations for a count that may be negative. *)
Lemma seqZ_to_nat (len : Z) : seqZ 0 len = seqZ 0 (Z.of_nat (Z.to_nat len)).
Proof.
  destruct (decide (0 ≤ len)%Z); [by rewrite Z2Nat.id|].
  replace (Z.to_nat len) with 0 by lia. by rewrite (seqZ_nil 0 len) by lia.
Qed.

(** The whole run, step by step. *)
Lemma run_mcmc_cases self (score : Score.t float) s r s' :
  thinning (prm self) ≠ 0%Z →
  _run_mcmc self score s = (r, s') →
  let b := Z.to_nat (burn_in (prm self)) in
  let thinned := thinned_from (thinning (prm self)) 0 (iterations (prm self)) in
  let draws := recorded_draws score (mcmc_sample_0 s) (sampled s + b) thinned (handler s) in
  let zero := ((burn_in (prm self) + iterations (prm self))%Z = 0%Z ∧ _logfile self = true) in
  match r with
  | Ok (dags, dag_scores) =>
      ¬ zero
      ∧ ∃ results,
          draws = (Ok results, handler s')
          ∧ dags = results.*1 ∧ dag_scores = results.*2
          ∧ sampled s' = sampled s + b + Z.to_nat (iterations (prm self))
  | Raise e =>
      (zero ∧ e = ZeroDivisionError "division by zero")
      ∨ draws = (Raise e, handler s')
  end.
Proof.
  intros Hthin Hrun b thinned draws zero. unfold _run_mcmc in Hrun.
  unfold mbind at 1, G_mbind, G_bind at 1, time_time in Hrun.
  set (s0 := {| mcmc_sample_0 := mcmc_sample_0 s; sampled := sampled s;
                handler := handler s; time_time_0 := time_time_0 s;
                timed := S (timed s); printed := printed s |}) in Hrun.
  set (st0 := (time_time_0 s (timed s), true)) in Hrun.
  destruct (burn_in_loop self (seqZ 0 (burn_in (prm self))) st0 s0) as [[st1|e1] s1] eqn:Hb;
    destruct (burn_in_loop_cases _ _ _ _ _ _ Hb) as (Hm1 & Hw1 & Hr1);
    cbn [mcmc_sample_0 handler sampled s0] in Hm1, Hw1, Hr1.
  2:{ rewrite (G_bind_raise _ _ _ _ _ Hb) in Hrun. injection Hrun as <- <-.
      left. destruct Hr1 as (? & ? & ?). by repeat split. }
  rewrite (G_bind_ok _ _ _ _ _ Hb) in Hrun. destruct Hr1 as [Hn1 Hst1].
  rewrite length_seqZ in Hn1. fold b in Hn1.
  set (pr := if _logfile self && negb st1.2 then print SamplingDAGs else mret tt) in Hrun.
  destruct (pr s1) as [r2 s2] eqn:Hpr.
  assert (r2 = Ok tt ∧ only_reported s1 s2) as [-> (Hm2 & Hn2 & Hw2)].
  { unfold pr in Hpr. destruct (_logfile self && negb st1.2); by injection Hpr as <- <-. }
  rewrite (G_bind_ok _ _ _ _ _ Hpr) in Hrun.
  rewrite seqZ_to_nat in Hrun. set (len := Z.to_nat (iterations (prm self))) in *.
  assert (sampled s2 = sampled s + b + Z.to_nat 0) as Hstart by (simpl; lia).
  destruct (sampling_loop self score (seqZ 0 (Z.of_nat len)) [] [] st1 s2)
    as [[[[dags dag_scores] st3]|e3] s3] eqn:Hloop.
  2:{ rewrite (G_bind_raise _ _ _ _ _ Hloop) in Hrun. injection Hrun as <- <-.
      destruct (sampling_loop_cases self score (sampled s + b) len Hthin 0 _ _ _ _ _ _
                  ltac:(lia) Hstart Hloop) as [Hm3 Hr3].
      rewrite Hm2, Hm1, Hw2, Hw1 in Hr3.
      destruct Hr3 as [(? & ? & ?)|Hd]; [left; by repeat split|right].
      unfold draws, thinned, thinned_from. by rewrite seqZ_to_nat. }
  rewrite (G_bind_ok _ _ _ _ _ Hloop) in Hrun. cbn [fst snd] in Hrun.
  destruct (sampling_loop_cases self score (sampled s + b) len Hthin 0 _ _ _ _ _ _
              ltac:(lia) Hstart Hloop) as [Hm3 Hr3].
  rewrite Hm2, Hm1, Hw2, Hw1 in Hr3.
  destruct Hr3 as (results & Hd & -> & -> & Hn3 & Hst3).
  assert (recorded_draws score (mcmc_sample_0 s) (sampled s + b) thinned (handler s)
          = (Ok results, handler s3)) as Hdraws.
  { unfold thinned, thinned_from. by rewrite seqZ_to_nat. }
  destruct (_logfile self && st3.2) eqn:Hfinal.
  - destruct (print_stats self (burn_in (prm self) + iterations (prm self)) st3.2 s3)
      as [[[]|e4] s4] eqn:Hps;
      destruct (print_stats_cases _ _ _ _ _ _ Hps) as [(Hm4 & Hn4 & Hw4) Hr4].
    + rewrite (G_bind_ok _ _ _ _ _ Hps) in Hrun. injection Hrun as <- <-.
      split; [intros [? _]; done|]. exists results. rewrite Hw4.
      split; [done|]. split; [done|]. split; [done|]. lia.
    + rewrite (G_bind_raise _ _ _ _ _ Hps) in Hrun. injection Hrun as <- <-.
      left. destruct Hr4 as [? ->]. apply andb_true_iff in Hfinal as [? _].
      by repeat split.
  - injection Hrun as <- <-. split.
    + intros [Hzero Hlog]. rewrite Hlog in Hfinal. cbn [andb] in Hfinal.
      destruct Hst1 as [?| ->]; [done|]. destruct Hst3 as [?| ->]; [done|]. done.
    + exists results. split; [done|]. split; [done|]. split; [done|]. lia.
Qed.

(** C4, as the code has it.  [_run_mcmc] first advances the sampler
    [burn_in] times and records nothing.  It then advances it [iterations]
    more times and, at exactly the iterations [i] (counted from 0) with
    [i mod thinning = 0], turns the partition of that iteration into a DAG
    with [sample_DAG] and appends the DAG and its score to [dags] and
    [dag_scores].  Unless [burn_in + iterations = 0] while a log file is
    set, the outcome is that of these draws: the two lists are their
    results, in iteration order, one entry per thinned iteration, and an
    exception of a draw ends the run with that exception.  With
    [burn_in + iterations = 0] and a log file the run never returns: the
    percentage of a progress report divides by zero, at the latest in the
    report after the loops; for [burn_in = iterations = 0] that is all the
    run does. *)
Theorem run_mcmc_records_thinned_iterations self (score : Score.t float) s :
  thinning (prm self) ≠ 0%Z →
  let b := Z.to_nat (burn_in (prm self)) in
  let thinned := thinned_from (thinning (prm self)) 0 (iterations (prm self)) in
  let draws := recorded_draws score (mcmc_sample_0 s) (sampled s + b) thinned (handler s) in
  ((burn_in (prm self) + iterations (prm self))%Z ≠ 0%Z ∨ _logfile self = false →
     (_run_mcmc self score s).1
     = match draws.1 with
       | Ok results => Ok (results.*1, results.*2)
       | Raise e => Raise e
       end
     ∧ handler (_run_mcmc self score s).2 = draws.2)
  ∧ (∀ i, i ∈ thinned ↔ (0 ≤ i < iterations (prm self) ∧ i `mod` thinning (prm self) = 0)%Z)
  ∧ (∀ dags dag_scores s', _run_mcmc self score s = (Ok (dags, dag_scores), s') →
       sampled s' = sampled s + b + Z.to_nat (iterations (prm self))
       ∧ length dags = length thinned
       ∧ length dag_scores = length thinned)
  ∧ ((burn_in (prm self) + iterations (prm self))%Z = 0%Z → _logfile self = true →
     ∀ out s', _run_mcmc self score s ≠ (Ok out, s'))
  ∧ (burn_in (prm self) = 0%Z → iterations (prm self) = 0%Z → _logfile self = true →
     (_run_mcmc self score s).1 = Raise (ZeroDivisionError "division by zero")
     ∧ sampled (_run_mcmc self score s).2 = sampled s
     ∧ handler (_run_mcmc self score s).2 = handler s
     ∧ printed (_run_mcmc self score s).2 = printed s ++ [StatsTitle]).
Proof.
  intros Hthin b thinned draws.
  destruct (_run_mcmc self score s) as [r s'] eqn:Hrun.
  pose proof (run_mcmc_cases self score s r s' Hthin Hrun) as Hcases.
  cbv zeta in Hcases. fold b thinned draws in Hcases.
  split; [|split; [|split; [|split]]].
  - intros Hquiet. cbn [fst snd]. destruct r as [[dags dag_scores]|e].
    + destruct Hcases as (_ & results & -> & -> & -> & _). done.
    + destruct Hcases as [[[Hzero Hlog] _]| ->]; [|done].
      destruct Hquiet as [|Hq]; [done|congruence].
  - intros i. unfold thinned, thinned_from.
    rewrite list_elem_of_filter, elem_of_seqZ. lia.
  - intros dags dag_scores s'' [= -> ->].
    destruct Hcases as (_ & results & Hd & -> & -> & Hn). split; [done|].
    rewrite !length_fmap. unfold draws, recorded_draws in Hd.
    by rewrite (sequence_M_length _ _ _ _ _ Hd).
  - intros Hzero Hlog out s'' [= -> ->]. destruct out as [dags dag_scores].
    destruct Hcases as [Hnz _]. apply Hnz. by split.
  - intros Hb Hi Hlog. clear Hcases. unfold _run_mcmc in Hrun.
    rewrite Hb, Hi in Hrun. cbn [seqZ] in Hrun.
    unfold print_stats in Hrun. rewrite Hb, Hi, Hlog in Hrun.
    rewrite bool_decide_eq_true_2 in Hrun by done.
    by injection Hrun as <- <-.
Qed.

End GadgetFacts.

(* ===================================================================== *)
(** * Runs on the small instance *)
(* ===================================================================== *)

Section ToyRuns.
Import Toy.

(** With three variables and one parent the fair prior divides by
    [C(2, 1) = 2]: the oracle's [log (1/2)] becomes [log (1/4)]. *)
Example _local_fair_value :
  bool_decide (LocalScore._local (LocalScore.init 3 LocalScore.fair (-1) scorer) 0 [1]%Z
               = Ok (LogQ.log_ratio 1 4)) = true.
Proof. by vm_compute. Qed.

Lemma local_rejects_invalid_accepts_valid_witness :
  ∃ s, LocalScore.local (LocalScore.init 3 LocalScore.fair (-1) scorer) 0 [1; 2]%Z = Ok s
       ∧ LocalScore._local (LocalScore.init 3 LocalScore.fair (-1) scorer) 0 [1; 2]%Z = Ok s.
Proof.
  apply (proj2 (local_rejects_invalid_accepts_valid 3 LocalScore.fair (-1) scorer 0 [1; 2]%Z)).
  - lia.
  - by apply (bool_decide_unpack (NoDup [1; 2]%Z)).
  - intros u Hu. by repeat (apply elem_of_cons in Hu as [->|Hu]; [lia|]); apply elem_of_nil in Hu.
Defined.

(** In the exact model adding [-log 1] changes nothing. *)
Lemma LogQ_add_neg_log_1 (x : LogQ.t) : fadd x (fneg (flog_nat 1)) = x.
Proof.
  destruct x as [| |a|]; try done.
  cbv [fadd fneg flog_nat LogQ_ops LogQ.add LogQ.neg LogQ.log_nat].
  change (pos_to_Qp (Pos.of_nat 1)) with 1%Qp. by rewrite Qp.inv_1, Qp.mul_1_r.
Qed.

(** With three variables the fair prior leaves the score of the empty
    parent set and of the full parent set [{1, 2}] as the oracle gave it. *)
Lemma local_score_raw_oracle_value_counterexample :
  LocalScore._local (LocalScore.init 3 LocalScore.fair (-1) scorer) 0 []
  = Ok (scorer 0 [])
  ∧ LocalScore._local (LocalScore.init 3 LocalScore.fair (-1) scorer) 0 [1; 2]%Z
    = Ok (scorer 0 [1; 2]%Z).
Proof. split; apply (bool_decide_unpack _); by vm_compute. Qed.

(** With one parent of two possible the penalty is [-log 2]; with none it
    is [-log 1] and the oracle's score comes through unchanged. *)
Lemma local_score_is_oracle_plus_prior_witness :
  LocalScore._local (LocalScore.init 3 LocalScore.fair (-1) scorer) 0 [1]%Z
  = Ok (fadd (scorer 0 [1]%Z) (fneg (flog_nat (comb 2 1))))
  ∧ LocalScore._local (LocalScore.init 3 LocalScore.fair (-1) scorer) 0 []
    = Ok (scorer 0 []).
Proof.
  split.
  - apply (proj1 (proj2 (local_score_is_oracle_plus_prior 3 (-1) scorer 0 [1]%Z))).
    simpl. lia.
  - apply (proj1 (proj2 (proj2 (proj2
             (local_score_is_oracle_plus_prior 3 (-1) scorer 0 []))))).
    + exact LogQ_add_neg_log_1.
    + simpl. lia.
    + by left.
Defined.

(** The partition [({0}, {1, 2})] of three variables is valid. *)
Lemma R012_ordered_partition : Score.ordered_partition 3 R012.
Proof.
  split; [|split].
  - intros B HB. unfold R012 in HB.
    repeat (apply elem_of_cons in HB as [->|HB]; [by apply (bool_decide_unpack _)|]).
    by apply elem_of_nil in HB.
  - intros i j Bi Bj Hi Hj Hij.
    destruct i as [|[|i]]; destruct j as [|[|j]]; try done;
      simpl in Hi, Hj; injection Hi as <-; injection Hj as <-;
      by apply (bool_decide_unpack _).
  - intros v. split.
    + intros Hv. destruct v as [|[|[|v]]]; [| | |lia].
      * exists {[0]}. split; [left|by apply (bool_decide_unpack _)].
      * exists {[1; 2]}. split; [right; left|by apply (bool_decide_unpack _)].
      * exists {[1; 2]}. split; [right; left|by apply (bool_decide_unpack _)].
    + intros (B & HB & Hv). unfold R012 in HB.
      apply elem_of_cons in HB as [->|HB].
      { apply elem_of_singleton in Hv. lia. }
      apply elem_of_cons in HB as [->|HB]; [|by apply elem_of_nil in HB].
      apply elem_of_union in Hv as [Hv|Hv]; apply elem_of_singleton in Hv; lia.
Qed.

(** [sample_DAG] on [({0}, {1, 2})]: node 0 has no parents and nodes 1 and 2
    both have the parent 0; the score is [log (1 * 1/3 * 1/4)]. *)
Example sample_DAG_R012 :
  bool_decide ((Score.sample_DAG score3 R012 world0).1
               = Ok ([(0, ∅); (1, {[0]}); (2, {[0]})], LogQ.log_ratio 1 12)) = true.
Proof. by vm_compute. Qed.

Lemma sample_DAG_by_blocks_witness :
  ∃ turn : nat → M LogQ.t (Score.family * LogQ.t),
    (∀ v B, R012 !! 0 = Some B → v ∈ B →
       turn v = (family_score ← Score.sum score3 v ∅ ∅; mret ((v, ∅), family_score)))
    ∧ (∀ v i B T, 0 < i → R012 !! i = Some B → v ∈ B → R012 !! (i - 1) = Some T →
       turn v = Score.sample_pset score3 v (⋃ take i R012) T)
    ∧ Score.sample_DAG score3 R012 world0
      = (results ← sequence_M turn (seq 0 (Score.n score3));
         mret (results.*1, foldl fadd fzero results.*2)) world0
    ∧ (∀ DAG DAG_score w', Score.sample_DAG score3 R012 world0 = (Ok (DAG, DAG_score), w') →
       length DAG = Score.n score3 ∧ ∀ v, v < Score.n score3 → fst <$> DAG !! v = Some v).
Proof.
  apply (sample_DAG_by_blocks score3 R012 world0). exact R012_ordered_partition.
Defined.

(** With [T = {0}] outside [C[0] = (1, 2)], [sum(0, {1}, T)] is minus
    infinity and the restricted cache is not asked, although its own answer
    for the empty restriction of [T] would be the finite [log (1 + 1/2)]. *)
Example sum_T_outside_candidates :
  bool_decide ((Score.sum score3 0 {[1]} {[0]} world0).1 = Ok LogQ.NegInf) = true
  ∧ calls (Score.sum score3 0 {[1]} {[0]} world0).2 = []
  ∧ bool_decide (Score.cr_sum (Score.c_r_score score3) 0 1%N (Some 0%N)
                 = LogQ.log_ratio 3 2) = true.
Proof. by vm_compute. Qed.

Lemma sum_queries_restricted_cache_counterexample :
  let row := [1; 2] in
  let U_bm := bm ({[1]} ∩ list_to_set row) row in
  Score.C score3 !! 0 = Some row
  ∧ Score.c_c_score score3 = None
  ∧ ¬ ∃ Tq, Score.sum score3 0 {[1]} {[0]} world0
            = (Ok (Score.cr_sum (Score.c_r_score score3) 0 U_bm Tq),
               after world0 0 [CRSum 0 U_bm Tq]).
Proof.
  intros row U_bm. do 2 (split; [done|]). intros [Tq Heq].
  apply (f_equal (λ out, length (calls out.2))) in Heq.
  by vm_compute in Heq.
Qed.

(** Node 2 has the single candidate 0; with [U = {0, 1}] and empty [T] the
    complement cache is asked with [T' = U], and the result combines the
    two weights. *)
Lemma sum_restricted_then_complement_witness :
  (Score.sum score3_K1 2 {[0; 1]} ∅ world0).1
  = Ok (logaddexp (Score.cr_sum c_r_score 2 1%N None)
                  (Score.cc_sum c_c_score 2 {[0; 1]} {[0; 1]})).
Proof.
  exact (f_equal fst
           (proj2 (sum_restricted_then_complement score3_K1 2 [0] {[0; 1]} ∅ world0
                     eq_refl)
              c_c_score eq_refl
              (bool_decide_unpack (({[0; 1]} : gset nat) ⊈ list_to_set [0]) I))).
Defined.

Lemma sum_neg_inf_when_T_misses_candidates_witness :
  Score.sum score3 0 {[1]} {[0]} world0 = (Ok neg_inf, world0).
Proof.
  apply (sum_neg_inf_when_T_misses_candidates score3 0 [1; 2] {[1]} {[0]} world0).
  - reflexivity.
  - by apply (bool_decide_unpack _).
  - by apply (bool_decide_unpack _).
  - by left.
Defined.

(** Node 1 of block [{1, 2}] with [U = T = {0}]: the restricted branch is
    taken and the family is [(1, {0})] with the score [log (1/3)]. *)
Example sample_pset_node_1 :
  bool_decide ((Score.sample_pset score3 1 {[0]} {[0]} world0).1
               = Ok ((1, {[0]}), LogQ.log_ratio 1 3)) = true.
Proof. by vm_compute. Qed.

(** The restricted branch at node 1, sampled after a second draw; and at
    node 0 with [T = {0}] outside its candidates the complement branch,
    chosen with no complement cache to sample: the call ends in the
    [AttributeError] after the one draw and samples nothing. *)
Lemma sample_pset_exponential_race_witness :
  (∃ threshold,
     last (calls (Score.sample_pset score3 1 {[0]} {[0]} world0).2)
     = Some (CRSamplePset 1 1%N 1%N threshold)
     ∧ drawn (Score.sample_pset score3 1 {[0]} {[0]} world0).2 = 2)
  ∧ (Score.sample_pset score3 0 {[1]} {[0]} world0).1
    = Raise (AttributeError "'NoneType' object has no attribute 'sample_pset'")
  ∧ drawn (Score.sample_pset score3 0 {[1]} {[0]} world0).2 = 1
  ∧ calls (Score.sample_pset score3 0 {[1]} {[0]} world0).2 = [].
Proof.
  split.
  - pose proof (sample_pset_exponential_race score3 1 [0; 2] {[0]} {[0]} world0
                  (@logaddexp_comm _ _ LogQ_laws) eq_refl) as Hrace.
    cbv zeta in Hrace. destruct Hrace as [Hrestricted _].
    match type of Hrestricted with
    | ?P → _ => assert P as Htest by (vm_compute; reflexivity)
    end.
    rewrite (Hrestricted Htest).
    eexists. split; vm_compute; reflexivity.
  - pose proof (sample_pset_exponential_race score3 0 [1; 2] {[1]} {[0]} world0
                  (@logaddexp_comm _ _ LogQ_laws) eq_refl) as Hrace.
    cbv zeta in Hrace. destruct Hrace as (_ & _ & Hnone).
    match type of Hnone with
    | ?P → _ => assert P as Htest by (vm_compute; reflexivity)
    end.
    rewrite (Hnone Htest eq_refl).
    split; [reflexivity|]. split; vm_compute; reflexivity.
Defined.

Lemma sample_pset_restricted_branch_witness :
  ∃ parents family_score w',
    Score.sample_pset score3 1 {[0]} {[0]} world0 = (Ok ((1, parents), family_score), w')
    ∧ 0 ∈ parents.
Proof.
  pose proof (sample_pset_restricted_branch (FloatLaws0 := LogQ_laws)
                score3 1 [0; 2] {[0]} {[0]} world0 eq_refl (or_introl eq_refl)) as Hbranch.
  cbv zeta in Hbranch.
  match type of Hbranch with
  | ?P1 → ?P2 → ?P3 → _ =>
      assert P1 as H1 by (vm_compute; reflexivity);
      assert P2 as H2 by (vm_compute; reflexivity);
      assert P3 as H3 by (vm_compute; reflexivity)
  end.
  destruct (Hbranch H1 H2 H3) as (parents & Hrun & Hparents).
  exists parents. eexists _, _. split; [exact Hrun|].
  apply Hparents. exists 0. split; vm_compute; reflexivity.
Defined.

(** Two burn-in steps, three sampling iterations thinned by two: DAGs are
    recorded at iterations 0 and 2 and the sampler is advanced five times. *)
Example run_mcmc_2_3_2 :
  bool_decide (length (default ([], []) (match (Gadget._run_mcmc (gadget 2 3 2 3 2) score3 run0).1
                                         with Ok out => Some out | Raise _ => None end)).1 = 2)
  = true
  ∧ Gadget.sampled (Gadget._run_mcmc (gadget 2 3 2 3 2) score3 run0).2 = 5.
Proof. by vm_compute. Qed.

(** The same run reports at the first burn-in step and at the first
    sampling iteration, whose index is counted from the start of the run;
    it reads the clock eight times. *)
Example run_mcmc_2_3_2_reports :
  Gadget.printed (Gadget._run_mcmc (gadget 2 3 2 3 2) score3 run0).2
  = [Gadget.StatsTitle; Gadget.Stats 0; Gadget.SamplingDAGs; Gadget.Stats 2]
  ∧ Gadget.timed (Gadget._run_mcmc (gadget 2 3 2 3 2) score3 run0).2 = 8.
Proof. by vm_compute. Qed.

(** No burn-in and no iteration: the run ends in the division by zero of
    its closing report, where two empty lists were due.  With three
    iterations thinned by two it returns the draws of iterations 0 and 2. *)
Lemma run_mcmc_records_thinned_iterations_witness :
  (Gadget._run_mcmc (gadget 2 3 0 0 1) score3 run0).1
  = Raise (ZeroDivisionError "division by zero")
  ∧ (let thinned := Gadget.thinned_from 2 0 3 in
     let draws := Gadget.recorded_draws score3 (λ _, R012) 2 thinned world0 in
     (Gadget._run_mcmc (gadget 2 3 2 3 2) score3 run0).1
     = match draws.1 with
       | Ok results => Ok (results.*1, results.*2)
       | Raise e => Raise e
       end).
Proof.
  split.
  - apply (proj2 (proj2 (proj2 (proj2
             (run_mcmc_records_thinned_iterations (gadget 2 3 0 0 1) score3 run0
                ltac:(done)))))); reflexivity.
  - apply (proj1 (run_mcmc_records_thinned_iterations (gadget 2 3 2 3 2) score3 run0
                    ltac:(done))).
    left. done.
Defined.

(** With [K = 2 = n - 1] no cache is built.  When the first draw is [0.0]
    the test of [sample_pset] fails, for [-0.0 < 0.0] does not hold, and
    the query of node 1 ends in the complement branch: [AttributeError]
    after the query of the restricted weight and the one draw. *)
Lemma complement_cache_iff_K_lt_n_minus_1_witness :
  Gadget._precompute_candidate_complement_scoring (gadget 2 3 2 3 2) scorer
    (λ _ _ _ _, c_c_score) = None
  ∧ (Score.sample_pset
       (Gadget._init_mcmc (gadget 2 3 2 3 2)
          (Gadget._precompute_candidate_complement_scoring (gadget 2 3 2 3 2) scorer
             (λ _ _ _ _, c_c_score))).1
       1 {[0]} {[0]} world_zero_draws).1
    = Raise (AttributeError "'NoneType' object has no attribute 'sample_pset'").
Proof.
  destruct (proj2 (complement_cache_iff_K_lt_n_minus_1 (gadget 2 3 2 3 2) scorer
                     (λ _ _ _ _, c_c_score)) ltac:(simpl; lia))
    as (Hcache & _ & Hquery).
  split; [exact Hcache|].
  pose proof (Hquery 1 [0; 2] {[0]} {[0]} world_zero_draws eq_refl) as Hq.
  cbv zeta in Hq. destruct Hq as (_ & _ & Hfail).
  match type of Hfail with
  | ?P → _ => assert P as Htest by (vm_compute; reflexivity)
  end.
  by rewrite (Hfail Htest).
Defined.

(** The quotients by [1] to [64] in binary64 itself: the facts hold for
    every ensemble of [2] to [65] chains, the [16] of the default [mc3]
    among them. *)
Lemma Binary64_ladders (m : Z) :
  (1 ≤ m ≤ 64)%Z → truediv_ladder (temp := PrimFloat.float) m.
Proof.
  intros Hm.
  assert (Forall (truediv_ladder (temp := PrimFloat.float)) (seqZ 1 64)) as Hall.
  { let l := eval vm_compute in (seqZ 1 64) in change (seqZ 1 64) with l.
    repeat (constructor; [apply ladder_pairs_sound; by vm_compute|]).
    constructor. }
  apply (proj1 (Forall_forall _ _) Hall). apply elem_of_seqZ. lia.
Qed.

(** [1/3] in binary64 is the float [6004799503160661 / 2^54]. *)
Example Binary64_one_third :
  PrimFloat.mul (Binary64.truediv 1 3) (Binary64.of_Z (2 ^ 54))
  = Binary64.of_Z 6004799503160661.
Proof. by vm_compute. Qed.

(** Four chains in binary64: temperatures [0.0], [1/3], [2/3], [1.0]. *)
Lemma init_mcmc_temperature_ladder_witness :
  ∃ chains, (Gadget._init_mcmc (gadget 2 4 2 3 2) None).2 = Gadget.MC3 chains
    ∧ length chains = 4
    ∧ Gadget.temperature <$> chains !! 1 = Some (Some (Binary64.truediv 1 3))
    ∧ Gadget.temperature <$> head chains = Some (Some PrimFloat.zero)
    ∧ Gadget.temperature <$> last chains = Some (Some PrimFloat.one).
Proof.
  destruct (proj1 (init_mcmc_temperature_ladder (gadget 2 4 2 3 2) None) ltac:(done))
    as (chains & Hbuilt & Hlen & Htemp & Hladder).
  destruct (Hladder (Binary64_ladders 3 ltac:(lia))) as (Hhead & Hlast & _).
  exists chains. split; [done|]. split; [done|]. split; [by apply (Htemp 1%Z)|].
  by split.
Defined.

End ToyRuns.

(* ===================================================================== *)
(** * Further properties of the handler *)
(* ===================================================================== *)

(** ** Masks and the candidates they stand for *)

Lemma bm_testbit (ints : gset nat) (idx : list nat) (i : nat) :
  N.testbit (bm ints idx) (N.of_nat i) = true ↔ ∃ c, idx !! i = Some c ∧ c ∈ ints.
Proof.
  revert i. induction idx as [|c idx IH]; intros i.
  - cbn [bm]. rewrite N.bits_0. split; [done|]. by intros (c & Hc & _).
  - cbn [bm].
    replace ((if bool_decide (c ∈ ints) then 1 else 0) + 2 * bm ints idx)%N
      with (2 * bm ints idx + N.b2n (bool_decide (c ∈ ints)))%N
      by (destruct (bool_decide (c ∈ ints)); simpl; lia).
    destruct i as [|i].
    + change (N.of_nat 0) with 0%N. rewrite N.testbit_0_r. simpl.
      rewrite bool_decide_eq_true. split.
      * intros Hc. by exists c.
      * by intros (c' & [= <-] & Hc).
    + rewrite Nat2N.inj_succ, N.testbit_succ_r. apply IH.
Qed.

Lemma bm_lt_pow2 (ints : gset nat) (idx : list nat) :
  (bm ints idx < 2 ^ N.of_nat (length idx))%N.
Proof.
  induction idx as [|c idx IH]; [simpl; lia|].
  cbn [bm length]. rewrite Nat2N.inj_succ, N.pow_succ_r'.
  destruct (bool_decide (c ∈ ints)); lia.
Qed.

Lemma N_land_nonzero_bit (a b : N) :
  N.land a b ≠ 0%N ↔ ∃ i, N.testbit a (N.of_nat i) = true ∧ N.testbit b (N.of_nat i) = true.
Proof.
  split.
  - intros Hne. exists (N.to_nat (N.log2 (N.land a b))).
    rewrite N2Nat.id, <- andb_true_iff, <- N.land_spec. by apply N.bit_log2.
  - intros (i & Ha & Hb) H0.
    assert (N.testbit (N.land a b) (N.of_nat i) = true) as Hbit
      by (rewrite N.land_spec, Ha, Hb; done).
    by rewrite H0, N.bits_0 in Hbit.
Qed.

Lemma N_submask_bit (a b : N) (i : nat) :
  N.land a b = a → N.testbit a (N.of_nat i) = true → N.testbit b (N.of_nat i) = true.
Proof.
  intros Hsub Ha. rewrite <- Hsub, N.land_spec in Ha. by apply andb_true_iff in Ha as [_ ?].
Qed.

Lemma N_submask_lt_pow2 (a b : N) (K : nat) :
  N.land a b = a → (b < 2 ^ N.of_nat K)%N → (a < 2 ^ N.of_nat K)%N.
Proof.
  intros Hsub Hb. destruct (decide (a = 0%N)) as [->|Hne].
  { apply N.neq_0_lt_0, N.pow_nonzero. lia. }
  apply N.log2_lt_pow2; [lia|].
  destruct (decide (N.log2 a < N.of_nat K)%N) as [|Hge]; [done|].
  pose proof (N.bit_log2 a Hne) as Hbit.
  rewrite <- (N2Nat.id (N.log2 a)) in Hbit.
  apply (N_submask_bit a b _ Hsub) in Hbit. rewrite N2Nat.id in Hbit.
  destruct (decide (b = 0%N)) as [->|Hbne]; [by rewrite N.bits_0 in Hbit|].
  rewrite N.bits_above_log2 in Hbit; [done|].
  apply N.log2_lt_pow2 in Hb; lia.
Qed.

Section HandlerExtras.
Context {float : Type} `{FloatOps float}.
Import Score.
Implicit Types (self : Score.t float) (w : world float) (U T : gset nat).

Lemma C_members_inv (row ints : list nat) w parents w' :
  C_members row ints w = (Ok parents, w') →
  ∀ u, u ∈ parents ↔ ∃ i, i ∈ ints ∧ row !! i = Some u.
Proof.
  revert parents w'. induction ints as [|i ints IH]; intros parents w'; simpl.
  - intros [= <- _] u. split; [by intros ?%not_elem_of_empty|].
    intros (i & Hi & _). by apply elem_of_nil in Hi.
  - destruct (row !! i) as [c|] eqn:Hc; [|done].
    unfold mbind, M_bind, bind.
    destruct (C_members row ints w) as [[rest|e] w1]; [|done].
    intros [= <- _] u. rewrite elem_of_union, elem_of_singleton, (IH rest w1 eq_refl). split.
    + intros [->|(j & Hj & Hu)]; [exists i; split; [left|done]|].
      exists j. split; [by right|done].
    + intros (j & [->|Hj]%elem_of_cons & Hu); [left; congruence|].
      right. by exists j.
Qed.

(** What a successful [sample_pset] returns, by branch. *)
Lemma sample_pset_ok_cases self v (row : list nat) U T w fam family_score w' :
  (∀ e y : float, flt e (fsub neg_inf y) = false) →
  C self !! v = Some row →
  sample_pset self v U T w = (Ok (fam, family_score), w') →
  let U_bm := bm (U ∩ list_to_set row) row in
  let T_bm := bm (T ∩ list_to_set row) row in
  (¬ (T ≠ ∅ ∧ T ∩ list_to_set row = ∅)
   ∧ ∃ threshold parents,
       let pset := cr_sample_pset (c_r_score self) v U_bm T_bm threshold in
       fam = (v, parents) ∧ family_score = score_array self v pset
       ∧ ∀ u, u ∈ parents ↔ ∃ i, N.testbit pset (N.of_nat i) = true ∧ row !! i = Some u)
  ∨ (∃ cc threshold,
       c_c_score self = Some cc
       ∧ (fam, family_score)
         = ((v, (cc_sample_pset cc v U (if decide (T = ∅) then U else T) threshold).1),
            (cc_sample_pset cc v U (if decide (T = ∅) then U else T) threshold).2)).
Proof.
  intros Hlaw Hrow Hrun U_bm T_bm.
  rewrite (sample_pset_weights self v row U T w Hrow) in Hrun.
  rewrite (bind_ok _ _ _ _ _ (np_random_exponential_run _)) in Hrun.
  fold U_bm T_bm in Hrun.
  destruct (flt _ _) eqn:Htest.
  - left. split.
    + intros Hskip. rewrite (bool_decide_eq_true_2 _ Hskip) in Htest.
      by rewrite Hlaw in Htest.
    + rewrite (bind_ok _ _ _ _ _ (np_random_exponential_run _)) in Hrun.
      rewrite (bind_ok _ _ _ _ _ (c_r_score_sample_pset_run _ _ _ _ _ _)) in Hrun.
      unfold mbind, M_bind, bind in Hrun.
      destruct (C_members row _ _) as [[parents|e] w1] eqn:Hmem; [|done].
      injection Hrun as <- <- <-. eexists _, parents. cbv zeta.
      split; [done|]. split; [done|].
      intros u. rewrite (C_members_inv _ _ _ _ _ Hmem u).
      by setoid_rewrite bm_to_ints_spec.
  - right. destruct (c_c_score self) as [cc|]; [|done].
    rewrite (bind_ok _ _ _ _ _ (np_random_exponential_run _)) in Hrun.
    rewrite (bind_ok _ _ _ _ _ (c_c_score_sample_pset_run _ _ _ _ _ _)) in Hrun.
    destruct (cc_sample_pset cc v U _ _) as [pset fs] eqn:Hcc.
    injection Hrun as <- <- <-. eexists cc, _. split; [done|]. by rewrite Hcc.
Qed.

(** The family of a successful [sample_pset] lies within [U] and meets
    [T]. *)
Lemma sample_pset_family_within self v (row : list nat) U T w fam family_score w' :
  (∀ e y : float, flt e (fsub neg_inf y) = false) →
  restricted_sampler_ok (c_r_score self) →
  (∀ cc, c_c_score self = Some cc → complement_sampler_ok cc) →
  C self !! v = Some row →
  T ⊆ U →
  sample_pset self v U T w = (Ok (fam, family_score), w') →
  fam.1 = v ∧ fam.2 ⊆ U ∧ (T ≠ ∅ → ∃ u, u ∈ fam.2 ∧ u ∈ T).
Proof.
  intros Hlaw Hcr Hcc Hrow HTU Hrun.
  destruct (sample_pset_ok_cases self v row U T w fam family_score w' Hlaw Hrow Hrun)
    as [(Hskip & threshold & parents & -> & _ & Hparents)
       |(cc & threshold & Hsome & [= -> _])].
  - destruct (Hcr v (bm (U ∩ list_to_set row) row) (bm (T ∩ list_to_set row) row) threshold)
      as [Hsub Hmeet].
    split; [done|]. split.
    + intros u (i & Hbit & Hu)%Hparents.
      apply (N_submask_bit _ _ _ Hsub), bm_testbit in Hbit as (c & Hc & Hin).
      rewrite Hu in Hc. injection Hc as <-.
      by apply elem_of_intersection in Hin as [? _].
    + intros HT.
      assert (T ∩ list_to_set row ≠ ∅) as Hne by tauto.
      apply set_choose_L in Hne as [c Hc].
      apply elem_of_intersection in Hc as [HcT Hcrow].
      assert (c ∈ row) as Hcrow' by by apply elem_of_list_to_set in Hcrow.
      apply list_elem_of_lookup in Hcrow' as [i Hi].
      assert (N.land (bm (U ∩ list_to_set row) row) (bm (T ∩ list_to_set row) row) ≠ 0%N)
        as Hut.
      { apply N_land_nonzero_bit. exists i.
        split; apply bm_testbit; exists c; (split; [done|]);
          apply elem_of_intersection; split; auto. }
      apply Hmeet, N_land_nonzero_bit in Hut as (j & Hpj & Htj).
      apply bm_testbit in Htj as (c' & Hc' & Hin').
      apply elem_of_intersection in Hin' as [Hin' _].
      exists c'. split; [|done]. apply Hparents. by exists j.
  - destruct (Hcc cc Hsome v U (if decide (T = ∅) then U else T) threshold) as [Hsub Hmeet].
    split; [done|]. split; [done|].
    intros HT. cbn [snd]. destruct (decide (T = ∅)) as [|_]; [done|].
    assert (U ∩ T ≠ ∅) as Hne.
    { apply set_choose_L in HT as [u Hu]. intros Hempty.
      apply (not_elem_of_empty (C:=gset nat) u). rewrite <- Hempty.
      apply elem_of_intersection. split; [by apply HTU|done]. }
    apply Hmeet, set_choose_L in Hne as [u Hu].
    apply elem_of_intersection in Hu as [? ?]. by exists u.
Qed.

(** X1.  Given samplers that keep to their arguments, the family that
    [Score.sample_pset(v, U, T)] returns for [T] within [U] is a family of
    [v] whose parents all lie in [U] and, for non-empty [T], include a
    member of [T]. *)
Theorem sample_pset_respects_U_and_T self v (row : list nat) U T w fam family_score w' :
  (∀ e y : float, flt e (fsub neg_inf y) = false) →
  restricted_sampler_ok (c_r_score self) →
  (∀ cc, c_c_score self = Some cc → complement_sampler_ok cc) →
  C self !! v = Some row →
  T ⊆ U →
  sample_pset self v U T w = (Ok (fam, family_score), w') →
  fam.1 = v ∧ fam.2 ⊆ U ∧ (T ≠ ∅ → ∃ u, u ∈ fam.2 ∧ u ∈ T).
Proof. apply sample_pset_family_within. Qed.

(** The exceptions of [sample_pset] at a node. *)
Lemma sample_pset_raise_cases self v (row : list nat) U T w e w' :
  restricted_sampler_ok (c_r_score self) →
  C self !! v = Some row →
  sample_pset self v U T w = (Raise e, w') →
  e = AttributeError "'NoneType' object has no attribute 'sample_pset'"
  ∧ c_c_score self = None.
Proof.
  intros Hcr Hrow Hrun.
  rewrite (sample_pset_weights self v row U T w Hrow) in Hrun.
  rewrite (bind_ok _ _ _ _ _ (np_random_exponential_run _)) in Hrun.
  destruct (flt _ _).
  - rewrite (bind_ok _ _ _ _ _ (np_random_exponential_run _)) in Hrun.
    rewrite (bind_ok _ _ _ _ _ (c_r_score_sample_pset_run _ _ _ _ _ _)) in Hrun.
    match type of Hrun with
    | context [C_members row (bm_to_ints ?pset)] =>
        match type of Hrun with
        | (_ ≫= _) ?w0 = _ =>
            destruct (C_members_ok row (bm_to_ints pset) w0) as (parents & Hmem & _)
        end
    end.
    { intros i Hi. apply bm_to_ints_spec in Hi. eapply local_mask_bits; [|exact Hi].
      eapply N_submask_lt_pow2; [apply Hcr|apply bm_lt_pow2]. }
    by rewrite (bind_ok _ _ _ _ _ Hmem) in Hrun.
  - destruct (c_c_score self) as [cc|].
    + rewrite (bind_ok _ _ _ _ _ (np_random_exponential_run _)) in Hrun.
      rewrite (bind_ok _ _ _ _ _ (c_c_score_sample_pset_run _ _ _ _ _ _)) in Hrun.
      by destruct (cc_sample_pset cc v U _ _).
    + by injection Hrun as <- _.
Qed.

(** X2.  With a restricted sampler that stays within [U_bm], decoding the
    sampled mask never runs off [C[v]]: the only exception that
    [Score.sample_pset] raises at a node is the [AttributeError] of the
    absent complement cache. *)
Theorem sample_pset_only_raises_AttributeError self v (row : list nat) U T w e w' :
  restricted_sampler_ok (c_r_score self) →
  C self !! v = Some row →
  sample_pset self v U T w = (Raise e, w') →
  e = AttributeError "'NoneType' object has no attribute 'sample_pset'"
  ∧ c_c_score self = None.
Proof. apply sample_pset_raise_cases. Qed.

(** A non-empty [T] outside [C[v]] rules the restricted branch out. *)
Lemma sample_pset_T_outside self v (row : list nat) U T w :
  (∀ e y : float, flt e (fsub neg_inf y) = false) →
  C self !! v = Some row →
  T ≠ ∅ → T ∩ list_to_set row = ∅ →
  match c_c_score self with
  | None =>
      sample_pset self v U T w
      = (Raise (AttributeError "'NoneType' object has no attribute 'sample_pset'"),
         after w 1 [])
  | Some cc =>
      ∃ W_complement queries,
        let drawn_family := cc_sample_pset cc v U T (fsub W_complement (rng w (drawn w + 1))) in
        sample_pset self v U T w
        = (Ok ((v, drawn_family.1), drawn_family.2),
           after w 2 (queries ++ [CCSamplePset v U T (fsub W_complement (rng w (drawn w + 1)))]))
        ∧ Forall (λ e, is_cc_event e = true) queries
  end.
Proof.
  intros Hlaw Hrow HT Hdisj.
  rewrite (sample_pset_weights self v row U T w Hrow).
  rewrite (bool_decide_eq_true_2 (T ≠ ∅ ∧ T ∩ list_to_set row = ∅)) by done.
  rewrite (bind_ok _ _ _ _ _ (np_random_exponential_run _)), after_after, Hlaw.
  destruct (decide (T = ∅)) as [|_]; [done|].
  destruct (c_c_score self) as [cc|].
  - rewrite (bind_ok _ _ _ _ _ (np_random_exponential_run _)), after_after.
    rewrite (bind_ok _ _ _ _ _ (c_c_score_sample_pset_run _ _ _ _ _ _)), after_after.
    cbn [rng drawn after app]. replace (drawn w + (0 + 1)) with (drawn w + 1) by lia.
    set (live := if bool_decide (U ⊆ list_to_set row) then None else Some cc).
    exists (match live with Some cc0 => cc_sum cc0 v U T | None => neg_inf end),
           (match live with Some _ => [CCSum v U T None] | None => [] end).
    cbv zeta. split.
    + rewrite !app_nil_r. by destruct (cc_sample_pset cc v U T _).
    + destruct live; repeat constructor.
  - by rewrite !app_nil_r.
Qed.

(** X3.  When a non-empty [T] has no member among the candidates [C[v]],
    [Score.sample_pset(v, U, T)] never samples from the restricted cache.
    Without a complement cache it raises [AttributeError] after one draw and
    without a single cache call; with one, it queries and samples the
    complement cache only. *)
Theorem sample_pset_T_outside_candidates self v (row : list nat) U T w :
  (∀ e y : float, flt e (fsub neg_inf y) = false) →
  C self !! v = Some row →
  T ≠ ∅ → T ∩ list_to_set row = ∅ →
  (c_c_score self = None →
     sample_pset self v U T w
     = (Raise (AttributeError "'NoneType' object has no attribute 'sample_pset'"),
        after w 1 []))
  ∧ (∀ cc, c_c_score self = Some cc →
     ∃ fam family_score es,
       sample_pset self v U T w = (Ok (fam, family_score), after w 2 es)
       ∧ Forall (λ e, is_cc_event e = true) es).
Proof.
  intros Hlaw Hrow HT Hdisj.
  pose proof (sample_pset_T_outside self v row U T w Hlaw Hrow HT Hdisj) as Hrun.
  split.
  - intros Hnone. by rewrite Hnone in Hrun.
  - intros cc Hsome. rewrite Hsome in Hrun.
    destruct Hrun as (W_complement & queries & Hrun & Hq).
    eexists _, _, _. split; [exact Hrun|].
    apply Forall_app. split; [done|]. by repeat constructor.
Qed.

End HandlerExtras.

(** ** [sample_DAG] and the order of the blocks *)

Section DAGExtras.
Context {float : Type} `{FloatOps float}.
Import Score.
Implicit Types (self : Score.t float) (w : world float) (R : list (gset nat)).

Lemma block_in_union_take R (i : nat) (T : gset nat) :
  0 < i → R !! (i - 1) = Some T → T ⊆ ⋃ take i R.
Proof.
  intros Hi HT u Hu. apply elem_of_union_list. exists T. split; [|done].
  apply list_elem_of_lookup. exists (i - 1). rewrite lookup_take_lt by lia. done.
Qed.

Lemma union_take_earlier_block R (i u : nat) :
  u ∈ ⋃ take i R → ∃ j Bj, j < i ∧ R !! j = Some Bj ∧ u ∈ Bj.
Proof.
  intros (Bj & HBj & Hu)%elem_of_union_list.
  apply list_elem_of_lookup in HBj as [j Hj].
  apply lookup_take_Some in Hj as [Hj Hlt]. by exists j, Bj.
Qed.

(** One turn for a variable of block [i]: its parents come from earlier
    blocks, one of them from block [i - 1]. *)
Lemma sample_DAG_turn_blocks self R v w fam family_score w' i B :
  (∀ e y : float, flt e (fsub neg_inf y) = false) →
  restricted_sampler_ok (c_r_score self) →
  (∀ cc, c_c_score self = Some cc → complement_sampler_ok cc) →
  ordered_partition (n self) R →
  R !! i = Some B → v ∈ B →
  sample_DAG_turn self R v w = (Ok (fam, family_score), w') →
  fam.1 = v
  ∧ (i = 0 → fam.2 = ∅)
  ∧ (∀ u, u ∈ fam.2 → ∃ j Bj, j < i ∧ R !! j = Some Bj ∧ u ∈ Bj)
  ∧ (0 < i → ∃ u T, R !! (i - 1) = Some T ∧ u ∈ fam.2 ∧ u ∈ T).
Proof.
  intros Hlaw Hcr Hcc Hpart HB Hv. unfold sample_DAG_turn.
  rewrite (find_block_partition _ _ _ _ _ _ Hpart HB Hv). unfold sample_family.
  case_bool_decide as Hi.
  - subst i. unfold mbind, M_bind, bind.
    destruct (sum self v ∅ ∅ w) as [[s|e] w1]; [|done]. intros [= <- _ _]. simpl.
    split; [done|]. split; [done|]. split; [|lia].
    by intros u ?%not_elem_of_empty.
  - destruct (lookup_lt_is_Some_2 R (i - 1)) as [T HT].
    { apply lookup_lt_Some in HB. lia. }
    rewrite HT. intros Hrun.
    assert (v < n self) as Hvn.
    { destruct Hpart as (_ & _ & Hcover). apply Hcover. exists B. split; [|done].
      apply list_elem_of_lookup. by exists i. }
    destruct (lookup_lt_is_Some_2 (C self) v Hvn) as [row Hrow].
    assert (T ≠ ∅) as HTne.
    { destruct Hpart as (Hne & _). apply Hne, list_elem_of_lookup. by exists (i - 1). }
    destruct (sample_pset_family_within self v row (⋃ take i R) T w fam family_score w'
                Hlaw Hcr Hcc Hrow (block_in_union_take R i T ltac:(lia) HT) Hrun)
      as (Hnode & Hwithin & Hmeet).
    split; [done|]. split; [lia|]. split.
    + intros u Hu. by apply union_take_earlier_block, Hwithin.
    + intros _. destruct (Hmeet HTne) as (u & Hu & HuT). by exists u, T.
Qed.

(** The families of a successful [sample_DAG], by block. *)
Lemma sample_DAG_blocks self R w DAG DAG_score w' :
  (∀ e y : float, flt e (fsub neg_inf y) = false) →
  restricted_sampler_ok (c_r_score self) →
  (∀ cc, c_c_score self = Some cc → complement_sampler_ok cc) →
  ordered_partition (n self) R →
  sample_DAG self R w = (Ok (DAG, DAG_score), w') →
  length DAG = n self
  ∧ ∀ v fam i B, DAG !! v = Some fam → R !! i = Some B → v ∈ B →
      fam.1 = v
      ∧ (i = 0 → fam.2 = ∅)
      ∧ (∀ u, u ∈ fam.2 → ∃ j Bj, j < i ∧ R !! j = Some Bj ∧ u ∈ Bj)
      ∧ (0 < i → ∃ u T, R !! (i - 1) = Some T ∧ u ∈ fam.2 ∧ u ∈ T).
Proof.
  intros Hlaw Hcr Hcc Hpart Hrun. unfold sample_DAG in Hrun.
  rewrite sample_DAG_loop_run in Hrun.
  2:{ destruct R as [|B0 R']; [right|by left].
      destruct (n self) as [|k] eqn:Hn; [done|].
      destruct Hpart as (_ & _ & Hcover).
      destruct (proj1 (Hcover 0)) as (B & HB & _); [lia|]. by apply elem_of_nil in HB. }
  destruct (sequence_M _ _ _) as [[results|e] w1] eqn:Hseq; [|done].
  injection Hrun as <- _ _. simpl.
  pose proof (sequence_M_length _ _ _ _ _ Hseq) as Hlen. rewrite length_seq in Hlen.
  split; [by rewrite length_fmap|].
  intros v fam i B Hfam HB Hv.
  apply list_lookup_fmap_Some in Hfam as ([fam0 s] & -> & Hlook). simpl.
  assert (v < n self) as Hvn by (apply lookup_lt_Some in Hlook; lia).
  apply (sequence_M_lookup _
           (λ x b, ∀ i B, R !! i = Some B → x ∈ B →
              b.1.1 = x
              ∧ (i = 0 → b.1.2 = ∅)
              ∧ (∀ u, u ∈ b.1.2 → ∃ j Bj, j < i ∧ R !! j = Some Bj ∧ u ∈ Bj)
              ∧ (0 < i → ∃ u T, R !! (i - 1) = Some T ∧ u ∈ b.1.2 ∧ u ∈ T))
           _ _ _ _
           (λ x w0 '(fam1, s1) w2 Hturn i1 B1 HB1 Hx,
              sample_DAG_turn_blocks self R x w0 fam1 s1 w2 i1 B1
                Hlaw Hcr Hcc Hpart HB1 Hx Hturn)
           Hseq v v (fam0, s) (lookup_seq_lt _ _ _ Hvn) Hlook i B HB Hv).
Qed.

(** X4.  For a valid ordered partition [R] and samplers that keep to their
    arguments, the DAG that [Score.sample_DAG(R)] returns has one family per
    variable; a variable of [R_0] has no parents; the parents of a variable
    of a later block [R_i] all lie in the blocks before it and one of them
    lies in [R_(i-1)]. *)
Theorem sample_DAG_respects_block_order self R w DAG DAG_score w' :
  (∀ e y : float, flt e (fsub neg_inf y) = false) →
  restricted_sampler_ok (c_r_score self) →
  (∀ cc, c_c_score self = Some cc → complement_sampler_ok cc) →
  ordered_partition (n self) R →
  sample_DAG self R w = (Ok (DAG, DAG_score), w') →
  length DAG = n self
  ∧ ∀ v fam i B, DAG !! v = Some fam → R !! i = Some B → v ∈ B →
      fam.1 = v
      ∧ (i = 0 → fam.2 = ∅)
      ∧ (∀ u, u ∈ fam.2 → ∃ j Bj, j < i ∧ R !! j = Some Bj ∧ u ∈ Bj)
      ∧ (0 < i → ∃ u T, R !! (i - 1) = Some T ∧ u ∈ fam.2 ∧ u ∈ T).
Proof. apply sample_DAG_blocks. Qed.

(** X5.  The graph that [Score.sample_DAG(R)] returns for a valid ordered
    partition is acyclic: no variable is its own ancestor. *)
Theorem sample_DAG_acyclic self R w DAG DAG_score w' :
  (∀ e y : float, flt e (fsub neg_inf y) = false) →
  restricted_sampler_ok (c_r_score self) →
  (∀ cc, c_c_score self = Some cc → complement_sampler_ok cc) →
  ordered_partition (n self) R →
  sample_DAG self R w = (Ok (DAG, DAG_score), w') →
  ∀ v, ¬ tc (parent_in DAG) v v.
Proof.
  intros Hlaw Hcr Hcc Hpart Hrun.
  destruct (sample_DAG_blocks self R w DAG DAG_score w' Hlaw Hcr Hcc Hpart Hrun)
    as [Hlen Hblocks].
  assert (∀ u v, tc (parent_in DAG) u v →
            ∃ j i Bj Bi, R !! j = Some Bj ∧ u ∈ Bj ∧ R !! i = Some Bi ∧ v ∈ Bi ∧ j < i)
    as Hrank.
  { assert (∀ u v, parent_in DAG u v →
              ∃ j i Bj Bi, R !! j = Some Bj ∧ u ∈ Bj ∧ R !! i = Some Bi ∧ v ∈ Bi ∧ j < i)
      as Hedge.
    { intros u v (P & HP & Hu).
      pose proof (lookup_lt_Some _ _ _ HP) as Hvn. unfold family in *. rewrite Hlen in Hvn.
      destruct Hpart as (_ & _ & Hcover).
      apply Hcover in Hvn as (Bi & [i Hi]%list_elem_of_lookup & Hv).
      destruct (Hblocks v (v, P) i Bi HP Hi Hv) as (_ & _ & Hearlier & _).
      destruct (Hearlier u Hu) as (j & Bj & Hj & HBj & HuBj). by exists j, i, Bj, Bi. }
    intros u v Htc. induction Htc as [u v Huv|u m v Hum _ IH]; [by apply Hedge|].
    destruct (Hedge u m Hum) as (j & i & Bj & Bi & HBj & Hu & HBi & Hm & Hji).
    destruct IH as (j' & i' & Bj' & Bi' & HBj' & Hm' & HBi' & Hv & Hji').
    assert (i = j') as ->.
    { destruct (decide (i = j')) as [|Hne]; [done|].
      destruct Hpart as (_ & Hdisj & _).
      by destruct (Hdisj i j' Bi Bj' HBi HBj' Hne m). }
    exists j, i', Bj, Bi'. repeat split; try done. lia. }
  intros v Hcycle.
  destruct (Hrank v v Hcycle) as (j & i & Bj & Bi & HBj & Hvj & HBi & Hvi & Hji).
  destruct Hpart as (_ & Hdisj & _).
  assert (j ≠ i) as Hne by lia.
  by destruct (Hdisj j i Bj Bi HBj HBi Hne v).
Qed.

(** X6.  [Score.sample_DAG] does not check [R].  With no block at all and
    at least one variable it raises [UnboundLocalError] before any call or
    draw.  Otherwise a variable that no block contains is treated as a
    member of the last block: with a single block it gets no parents, with
    more it gets the parents [sample_pset] draws for the last block. *)
Theorem sample_DAG_unchecked_partition self R w :
  (R = [] → 0 < n self →
     ∃ msg, sample_DAG self R w = (Raise (UnboundLocalError msg), w))
  ∧ (R ≠ [] →
     ∃ turn : nat → M float (family * float),
       sample_DAG self R w
       = (results ← sequence_M turn (seq 0 (n self));
          mret (results.*1, foldl fadd fzero results.*2)) w
       ∧ ∀ v, (∀ B, B ∈ R → v ∉ B) →
           (length R = 1 →
              turn v = (family_score ← sum self v ∅ ∅; mret ((v, ∅), family_score)))
           ∧ (∀ T, 1 < length R → R !! (length R - 2) = Some T →
              turn v = sample_pset self v (⋃ take (length R - 1) R) T)).
Proof.
  split.
  - intros -> Hn. unfold sample_DAG. destruct (n self) as [|k]; [lia|]. by eexists.
  - intros HR. exists (sample_DAG_turn self R). split.
    + unfold sample_DAG. rewrite sample_DAG_loop_run by by left.
      unfold mbind, M_bind, bind. by destruct (sequence_M _ _ _) as [[results|e] w1].
    + intros v Hout.
      assert (∀ (blocks : list (gset nat)) k bound,
                (∀ B, B ∈ blocks → v ∉ B) →
                find_block v blocks k bound
                = match blocks with [] => bound | _ => Some (k + length blocks - 1) end)
        as Hfind.
      { induction blocks as [|B0 rest IH]; intros k bound Hnone; [done|]. simpl.
        rewrite bool_decide_eq_false_2 by (apply Hnone; left).
        rewrite IH by (intros B HB; apply Hnone; by right).
        destruct rest; f_equal; simpl; lia. }
      unfold sample_DAG_turn. rewrite (Hfind R 0 None Hout).
      destruct R as [|B0 R']; [done|]. cbn [length]. unfold sample_family. split.
      * intros Hlen. by rewrite bool_decide_eq_true_2 by lia.
      * intros T Hlen HT. rewrite bool_decide_eq_false_2 by (simpl in Hlen; lia).
        replace (0 + S (length R') - 1 - 1) with (S (length R') - 2) by lia.
        by rewrite HT.
Qed.

End DAGExtras.

(** ** The run as a whole *)

Section RunExtras.
Context {float : Type} `{FloatOps float}.
Context {temp : Type} `{TempOps temp}.
Import Gadget.
Implicit Types (self : Gadget.t float) (s : run_state float).

(** X8.  When [K] is left to its default, the complement cache is built
    exactly for data with more than 17 variables, and the default [K] and
    [d] never exceed the number [n - 1] of other variables. *)
Theorem default_K_builds_complement_above_17 self
    (scorer : Z → list Z → float)
    (CandidateComplementScore :
       LocalScore.t float → list (list nat) → Z → float → Score.CandidateComplementScore float)
    (d_arg : option Z) (mc3_arg burn_in_arg iterations_arg thinning_arg : Z)
    (eps period : float) :
  prm self = init_params (data_n self) None d_arg mc3_arg burn_in_arg iterations_arg
               thinning_arg eps period →
  (is_Some (_precompute_candidate_complement_scoring self scorer CandidateComplementScore)
   ↔ 17 < data_n self)
  ∧ (K (prm self) ≤ Z.of_nat (data_n self) - 1)%Z
  ∧ (d_arg = None → (d (prm self) ≤ Z.of_nat (data_n self) - 1)%Z ∧ (d (prm self) ≤ 3)%Z).
Proof.
  intros Hprm. unfold _precompute_candidate_complement_scoring. rewrite Hprm.
  cbn [K d init_params]. unfold default_K, default_d. split; [|split].
  - case_bool_decide as HK.
    + split; [lia|by eexists].
    + split; [by intros [? ?]|lia].
  - lia.
  - intros ->. lia.
Qed.

Lemma thinned_from_length (thin : Z) (len : nat) :
  (0 < thin)%Z →
  Z.of_nat (length (thinned_from thin 0 (Z.of_nat len))) = ((Z.of_nat len + thin - 1) / thin)%Z.
Proof.
  intros Hthin. induction len as [|len IH].
  - simpl. symmetry. apply Z.div_small. lia.
  - unfold thinned_from in *.
    replace (Z.of_nat (S len)) with (Z.of_nat len + 1)%Z by lia.
    rewrite seqZ_app by lia. rewrite filter_app, length_app, Nat2Z.inj_add, IH.
    rewrite Z.add_0_l. change (seqZ (Z.of_nat len) 1) with [Z.of_nat len].
    rewrite filter_cons, filter_nil. case_decide as Hmod; simpl length.
    + apply Z.mod_divide in Hmod as [q Hq]; [|lia]. rewrite Hq.
      replace (q * thin + 1 + thin - 1)%Z with ((q + 1) * thin)%Z by lia.
      rewrite Z.div_mul by lia.
      replace (q * thin + thin - 1)%Z with (q * thin + (thin - 1))%Z by lia.
      rewrite Z.div_add_l, (Z.div_small (thin - 1)) by lia. lia.
    + pose proof (Z.div_mod (Z.of_nat len) thin ltac:(lia)) as Hdm.
      pose proof (Z.mod_pos_bound (Z.of_nat len) thin Hthin) as Hb.
      set (q := (Z.of_nat len / thin)%Z) in *. set (r := (Z.of_nat len `mod` thin)%Z) in *.
      rewrite Hdm.
      replace (thin * q + r + 1 + thin - 1)%Z with ((q + 1) * thin + r)%Z by lia.
      replace (thin * q + r + thin - 1)%Z with ((q + 1) * thin + (r - 1))%Z by lia.
      rewrite !Z.div_add_l, !Z.div_small by lia. lia.
Qed.

(** X9.  For a positive [thinning], a run of [_run_mcmc] that returns has
    recorded exactly [ceil(iterations / thinning)] DAGs and as many scores
    (none when [iterations] is not positive). *)
Theorem run_mcmc_number_of_dags self (score : Score.t float) s dags dag_scores s' :
  (0 < thinning (prm self))%Z →
  _run_mcmc self score s = (Ok (dags, dag_scores), s') →
  let recorded :=
    Z.to_nat ((Z.max 0 (iterations (prm self)) + thinning (prm self) - 1)
              / thinning (prm self)) in
  length dags = recorded ∧ length dag_scores = recorded.
Proof.
  intros Hthin Hrun recorded.
  set (len := Z.to_nat (iterations (prm self))).
  assert (thinning (prm self) ≠ 0%Z) as Hne by lia.
  pose proof (run_mcmc_cases self score s _ s' Hne Hrun) as Hcases. cbv zeta in Hcases.
  destruct Hcases as (_ & results & Hd & -> & -> & _).
  assert (recorded = length (thinned_from (thinning (prm self)) 0 (iterations (prm self))))
    as ->.
  { unfold recorded, thinned_from. rewrite seqZ_to_nat. fold len.
    fold (thinned_from (thinning (prm self)) 0 (Z.of_nat len)).
    apply Nat2Z.inj. rewrite thinned_from_length by done.
    rewrite Z2Nat.id by (apply Z.div_pos; lia). unfold len. do 2 f_equal. lia. }
  rewrite !length_fmap. unfold recorded_draws in Hd.
  by rewrite (sequence_M_length _ _ _ _ _ Hd).
Qed.

(** X10.  By the facts [truediv_ladder] about the quotients by [mc3 - 1],
    every temperature that [_init_mcmc] hands to a sampler lies between
    [0.0] and [1.0]; for any [mc3 <= 1], zero and negative values included,
    it builds a single sampler and hands it none. *)
Theorem init_mcmc_temperatures_in_unit_interval self
    (c_c_score : option (Score.CandidateComplementScore float)) :
  (truediv_ladder (mc3 (prm self) - 1) →
   ∀ chains chain t, (_init_mcmc self c_c_score).2 = MC3 chains →
     chain ∈ chains → temperature chain = Some t → tle t_zero t ∧ tle t t_one)
  ∧ ((mc3 (prm self) ≤ 1)%Z →
     ∃ chain, (_init_mcmc self c_c_score).2 = Single chain ∧ temperature chain = None).
Proof.
  unfold _init_mcmc. cbn [snd]. split.
  - intros (Hzero & Hone & Hlt) chains chain t. case_bool_decide as HM; [|done].
    intros [= <-] Hin Ht.
    apply list_elem_of_fmap in Hin as (i & -> & Hi).
    apply elem_of_seqZ in Hi. simpl in Ht. injection Ht as <-. split.
    + destruct (decide (i = 0%Z)) as [->|Hne]; [left; by rewrite Hzero|].
      right. rewrite <- Hzero. apply Hlt; lia.
    + destruct (decide (i = mc3 (prm self) - 1)%Z) as [->|Hne]; [by left|].
      right. rewrite <- Hone. apply Hlt; lia.
  - intros HM. rewrite bool_decide_eq_false_2 by lia. by eexists.
Qed.

End RunExtras.

(* ===================================================================== *)
(** * Data *)
(* ===================================================================== *)

Section DataExtras.
Import Data.

(** X11.  [Data(path)] never yields discrete data: a text with a ['.'] is
    loaded as [float64] and marked continuous, and a text without one
    raises [AttributeError], the attribute [discrete] being read before it
    was ever assigned.  From an array, the data are discrete exactly when
    the [dtype] is not [float64]. *)
Theorem Data_init_from_path_never_discrete {ndarray : Type} (dtype_of : ndarray → dtype)
    (read : string → string) (loadtxt : string → dtype → ndarray) (path : string) :
  (∀ d, init dtype_of read loadtxt (of_str path) = inr d →
     discrete d = false ∧ data d = loadtxt path float64 ∧ contains_dot (read path) = true)
  ∧ (contains_dot (read path) = false →
     init dtype_of read loadtxt (of_str path) = inl AttributeError_discrete)
  ∧ (∀ a d, init dtype_of read loadtxt (of_ndarray a) = inr d →
     data d = a ∧ (discrete d = true ↔ dtype_of a ≠ float64)).
Proof.
  unfold init. split; [|split].
  - intros d. destruct (contains_dot (read path)); [|done]. by intros [= <-].
  - by intros ->.
  - intros a d [= <-]. simpl. split; [done|]. by destruct (dtype_of a).
Qed.

Lemma wrap_sub_nonzero (bits : nat) (x y : Z) :
  0 < bits →
  (- 2 ^ (Z.of_nat bits - 1) ≤ x ≤ y)%Z → (y < 2 ^ (Z.of_nat bits - 1))%Z →
  wrap bits (y - x) ≠ 0%Z ↔ x ≠ y.
Proof.
  intros Hbits Hx Hy. unfold wrap.
  set (h := (2 ^ (Z.of_nat bits - 1))%Z) in *.
  assert (0 < h)%Z as Hh by (apply Z.pow_pos_nonneg; lia).
  assert (2 ^ Z.of_nat bits = 2 * h)%Z as ->.
  { unfold h. rewrite <- Z.pow_succ_r by lia. f_equal. lia. }
  destruct (decide (y - x < h)%Z) as [Hlt|Hge].
  - rewrite Z.mod_small by lia. lia.
  - replace (y - x + h)%Z with (y - x - h + 1 * (2 * h))%Z by lia.
    rewrite Z_mod_plus_full, Z.mod_small by lia. lia.
Qed.

Lemma count_nonzero_cons (a : Z) (l : list Z) :
  count_nonzero (a :: l) = (if decide (a ≠ 0%Z) then 1 else 0) + count_nonzero l.
Proof. unfold count_nonzero. rewrite filter_cons. by case_decide. Qed.

Lemma arity_of_sorted (bits : nat) (s : list Z) :
  0 < bits →
  Forall (λ x, - 2 ^ (Z.of_nat bits - 1) ≤ x < 2 ^ (Z.of_nat bits - 1))%Z s →
  StronglySorted Z.le s → s ≠ [] →
  count_nonzero (np_diff bits s) + 1 = size (list_to_set s : gset Z).
Proof.
  intros Hbits Hrange Hsorted. induction Hsorted as [|x r Hr IH Hle]; [done|]. intros _.
  apply Forall_cons in Hrange as [Hx Hrange].
  destruct r as [|y r'].
  - change (list_to_set [x] : gset Z) with ({[x]} ∪ ∅ : gset Z).
    by rewrite union_empty_r_L, size_singleton.
  - change (np_diff bits (x :: y :: r'))
      with (wrap bits (y - x) :: np_diff bits (y :: r')).
    rewrite count_nonzero_cons, <- Nat.add_assoc, (IH Hrange) by done.
    apply Forall_cons in Hle as [Hxy Hle]. pose proof Hrange as [Hy _]%Forall_cons.
    change (list_to_set (x :: y :: r') : gset Z) with ({[x]} ∪ list_to_set (y :: r') : gset Z).
    case_decide as Hnz.
    + apply wrap_sub_nonzero in Hnz; [|done|lia|lia].
      rewrite size_union, size_singleton; [done|].
      apply disjoint_singleton_l. rewrite elem_of_list_to_set.
      intros [->|Hin]%elem_of_cons; [done|].
      apply StronglySorted_inv in Hr as [_ Hyr].
      rewrite Forall_forall in Hyr. specialize (Hyr x Hin). lia.
    + assert (x = y) as ->.
      { destruct (decide (x = y)) as [|Hne]; [done|].
        by apply (wrap_sub_nonzero bits x y Hbits) in Hne; [|lia|lia]. }
      cbn [Nat.add]. f_equal. symmetry. apply subseteq_union_1_L.
      apply singleton_subseteq_l, elem_of_list_to_set. left.
Qed.

(** X12.  For integer data within the range of its [bits]-bit type,
    [Data.arities] gives, for every variable, the number of distinct values
    in its column, and 1 for a column without any observation. *)
Theorem arities_count_distinct_values (bits : nat) (columns : list (list Z)) :
  0 < bits →
  Forall (Forall (λ x, - 2 ^ (Z.of_nat bits - 1) ≤ x < 2 ^ (Z.of_nat bits - 1))%Z) columns →
  arities bits columns
  = map (λ column, Nat.max 1 (size (list_to_set column : gset Z))) columns.
Proof.
  intros Hbits Hrange. unfold arities. apply map_ext_Forall.
  eapply Forall_impl; [exact Hrange|]. intros column Hcol. simpl.
  destruct column as [|x column']; [done|].
  assert (np_sort (x :: column') ≡ₚ x :: column') as Hperm
    by apply merge_sort_Permutation.
  rewrite (arity_of_sorted bits (np_sort (x :: column')) Hbits).
  - rewrite (list_to_set_perm_L _ _ Hperm).
    assert (size (list_to_set (x :: column') : gset Z) ≠ 0); [|lia].
    apply (size_non_empty_iff (C:=gset Z)). intros Hempty.
    apply (not_elem_of_empty (C:=gset Z) x). rewrite <- Hempty.
    apply elem_of_list_to_set. left.
  - by rewrite Hperm.
  - apply StronglySorted_merge_sort; apply _.
  - intros Hnil. rewrite Hnil in Hperm. by apply Permutation_nil_cons in Hperm.
Qed.

End DataExtras.

(* ===================================================================== *)
(** * The score tables of LocalScore *)
(* ===================================================================== *)

(** ** Masks and indegrees *)

Lemma length_filter_fmap {A B} (f : A → B) (P : B → Prop) `{∀ y, Decision (P y)}
    (l : list A) :
  length (filter P (f <$> l)) = length (filter (λ x, P (f x)) l).
Proof.
  induction l as [|x l IH]; [done|]. rewrite fmap_cons, !filter_cons.
  case_decide; simpl; by rewrite IH.
Qed.

Lemma popcount_div2 (m : N) :
  popcount m = (if N.testbit m 0 then 1 else 0) + popcount (N.div2 m).
Proof. by destruct m as [|[p|p|]]. Qed.

Lemma count_bits_below (b : nat) (m : N) :
  (m < 2 ^ N.of_nat b)%N →
  length (filter (λ i, N.testbit m (N.of_nat i) = true) (seq 0 b)) = popcount m.
Proof.
  revert m. induction b as [|b IH]; intros m Hm.
  - assert (m = 0%N) as -> by (simpl in Hm; lia). done.
  - rewrite Nat2N.inj_succ, N.pow_succ_r' in Hm.
    assert (length (filter (λ i, N.testbit m (N.of_nat i) = true) (S <$> seq 0 b))
            = popcount (N.div2 m)) as Htail.
    { rewrite length_filter_fmap.
      rewrite (list_filter_iff _ (λ i, N.testbit (N.div2 m) (N.of_nat i) = true)).
      2:{ intros i. by rewrite Nat2N.inj_succ, <- N.testbit_div2. }
      apply IH. rewrite N.div2_div. apply N.Div0.div_lt_upper_bound. lia. }
    rewrite <- cons_seq, <- fmap_S_seq, filter_cons, popcount_div2.
    change (N.of_nat 0) with 0%N. case_decide as Hbit.
    + rewrite Hbit. simpl. by rewrite Htail.
    + apply not_true_is_false in Hbit as ->. by rewrite Htail.
Qed.

Lemma bm_to_ints_length (m : N) : length (bm_to_ints m) = popcount m.
Proof.
  unfold bm_to_ints. apply count_bits_below. rewrite N2Nat.id. apply N.size_gt.
Qed.

Lemma popcount_le (K : nat) (m : N) : (m < 2 ^ N.of_nat K)%N → popcount m ≤ K.
Proof.
  intros Hm. rewrite <- (count_bits_below K m Hm).
  etrans; [apply length_filter|]. by rewrite length_seq.
Qed.

Lemma popcount_ones (K : nat) : popcount (2 ^ N.of_nat K - 1) = K.
Proof.
  induction K as [|K IH]; [done|].
  rewrite Nat2N.inj_succ, N.pow_succ_r'.
  assert (0 < 2 ^ N.of_nat K)%N as Hpos by (apply N.neq_0_lt_0, N.pow_nonzero; lia).
  replace (2 * 2 ^ N.of_nat K - 1)%N with (2 * (2 ^ N.of_nat K - 1) + 1)%N by lia.
  rewrite popcount_div2, N.testbit_odd_0.
  replace (N.div2 (2 * (2 ^ N.of_nat K - 1) + 1)) with (2 ^ N.of_nat K - 1)%N; [by rewrite IH|].
  rewrite N.div2_div. apply (N.div_unique _ 2 _ 1); lia.
Qed.

Lemma mask_pset_length (row : list nat) (m : N) :
  (m < 2 ^ N.of_nat (length row))%N → length (mask_pset row m) = popcount m.
Proof.
  intros Hm. rewrite <- bm_to_ints_length. unfold mask_pset.
  assert (Forall (λ i, i < length row) (bm_to_ints m)) as Hall.
  { apply Forall_forall. intros i Hi. apply bm_to_ints_spec in Hi.
    by eapply local_mask_bits. }
  induction Hall as [|i l Hi _ IH]; [done|]. csimpl.
  destruct (lookup_lt_is_Some_2 row i Hi) as [u ->]. csimpl. by rewrite IH.
Qed.

(** ** [collect] *)

Lemma collect_ok {A B} (f : A → result B) (l : list A) :
  (∀ x, x ∈ l → ∃ y, f x = Ok y) →
  ∃ ys, collect f l = Ok ys
        ∧ length ys = length l
        ∧ ∀ i x, l !! i = Some x → ∃ y, ys !! i = Some y ∧ f x = Ok y.
Proof.
  induction l as [|x l IH]; intros Hok.
  - exists []. repeat split. intros i x Hx. by rewrite lookup_nil in Hx.
  - destruct (Hok x) as [y Hy]; [left|].
    destruct IH as (ys & Hys & Hlen & Hlook); [intros x' Hx'; apply Hok; by right|].
    exists (y :: ys). simpl. rewrite Hy, Hys. split; [done|]. split; [by rewrite Hlen|].
    intros [|i] x'; simpl.
    + intros [= <-]. by exists y.
    + apply Hlook.
Qed.

Lemma collect_raise {A B} (f : A → result B) (l : list A) (x : A) (e : exn) :
  x ∈ l → f x = Raise e →
  (∀ x' e', x' ∈ l → f x' = Raise e' → e' = e) →
  collect f l = Raise e.
Proof.
  induction l as [|x0 l IH]; intros Hx Hfx Hsame; [by apply elem_of_nil in Hx|].
  simpl. destruct (f x0) as [y|e0] eqn:Hf0.
  - apply elem_of_cons in Hx as [->|Hx]; [congruence|].
    rewrite IH; [done|done|done|]. intros x' e' Hx'. apply Hsame. by right.
  - f_equal. apply (Hsame x0); [left|done].
Qed.

Section TableExtras.
Context {float : Type} `{FloatOps float}.
Import LocalScore.

Lemma priorf_init (n : nat) (p : prior_name) (mid : Z) (scorer : Z → list Z → float)
    (k : nat) :
  priorf (init n p mid scorer) p k
  = match p with
    | unif => Ok fzero
    | fair => if decide (k < n) then Ok (fneg (flog_nat (comb (n - 1) k)))
              else Raise (IndexError "index out of bounds")
    end.
Proof.
  destruct p; [|done]. unfold priorf, _prior_fair, init; simpl. case_decide as Hk.
  - by rewrite prior_table_lookup.
  - rewrite (proj2 (lookup_ge_None _ _)); [done|]. rewrite length_map, length_seq. lia.
Qed.

Lemma pow2_N_of_nat (K i : nat) : i < 2 ^ K → (N.of_nat i < 2 ^ N.of_nat K)%N.
Proof.
  intros Hi. change 2%N with (N.of_nat 2). rewrite <- Nat2N.inj_pow. lia.
Qed.

Lemma candidate_penalties_run (n : nat) (p : prior_name) (mid : Z)
    (scorer : Z → list Z → float) (K : nat) :
  let ls := init n p mid scorer in
  p = unif ∨ K < n →
  ∃ penalties,
    collect (priorf ls p) (map (λ i, popcount (N.of_nat i)) (seq 0 (2 ^ K))) = Ok penalties
    ∧ ∀ i, i < 2 ^ K →
        ∃ y, penalties !! i = Some y ∧ priorf ls p (popcount (N.of_nat i)) = Ok y.
Proof.
  intros ls HK.
  set (indegrees := map (λ i, popcount (N.of_nat i)) (seq 0 (2 ^ K))).
  assert (∀ k, k ≤ K → ∃ y, priorf ls p k = Ok y) as Hprior.
  { intros k Hk. unfold ls. rewrite priorf_init. destruct p; [|by eexists].
    destruct HK as [|HK]; [done|]. rewrite decide_True by lia. by eexists. }
  destruct (collect_ok (priorf ls p) indegrees) as (penalties & Hcollect & Hlen & Hlook).
  { intros k (i & -> & Hi)%list_elem_of_fmap. apply Hprior, popcount_le, pow2_N_of_nat.
    apply elem_of_seq in Hi. lia. }
  exists penalties. split; [done|]. intros i Hi. apply Hlook.
  unfold indegrees. by rewrite list_lookup_fmap, lookup_seq_lt.
Qed.

(** X13.  When the prior is uniform or there are fewer than [n] candidates
    per node, [all_candidate_restricted_scores(C)] returns one row per node
    of [C], and its entry for a node [v] and a local mask is exactly the
    local score [_local(v, P)] of the parent set [P] that the mask stands
    for in [C[v]], provided the scorer's own table holds the oracle's score
    of [P] there: the prior is looked up under the number of set bits, which
    is the size of [P]. *)
Theorem candidate_table_agrees_with_local
    (n : nat) (p : prior_name) (mid : Z) (scorer : Z → list Z → float)
    (scorer_table : list (list nat) → nat → N → float)
    (row0 : list nat) (rest : list (list nat)) :
  let ls := init n p mid scorer in
  let C := row0 :: rest in
  let K := length row0 in
  p = unif ∨ K < n →
  ∃ table,
    all_candidate_restricted_scores ls scorer_table (Some C) = Ok table
    ∧ length table = length C
    ∧ ∀ v row mask,
        C !! v = Some row → length row = K → (mask < 2 ^ N.of_nat K)%N →
        scorer_table C v mask = scorer (Z.of_nat v) (mask_pset row mask) →
        ∃ s, table !! v ≫= (.!! N.to_nat mask) = Some s
             ∧ _local ls (Z.of_nat v) (mask_pset row mask) = Ok s.
Proof.
  intros ls C K HK. subst C. unfold all_candidate_restricted_scores.
  cbn [prior ls init]. fold ls. fold K.
  destruct (candidate_penalties_run n p mid scorer K HK) as (penalties & Hcollect & Hlook).
  fold ls in Hcollect, Hlook. rewrite Hcollect.
  eexists. split; [done|]. split; [by rewrite length_map, length_seq|].
  intros v row mask Hrow Hlenrow Hmask Horacle.
  assert (N.to_nat mask < 2 ^ K) as Hm.
  { change 2%N with (N.of_nat 2) in Hmask. rewrite <- Nat2N.inj_pow in Hmask. lia. }
  destruct (Hlook (N.to_nat mask) Hm) as (y & Hy & Hfy). rewrite N2Nat.id in Hfy.
  exists (fadd (scorer (Z.of_nat v) (mask_pset row mask)) y). split.
  - rewrite list_lookup_fmap, lookup_seq_lt by (by apply lookup_lt_Some in Hrow).
    simpl. rewrite list_lookup_imap, Hy. simpl. by rewrite N2Nat.id, Horacle.
  - unfold _local. cbn [prior ls init]. fold ls.
    rewrite mask_pset_length by (by rewrite Hlenrow). by rewrite Hfy.
Qed.

Lemma all_others_cons (n : nat) :
  ∃ row0 rest, all_others (S n) = row0 :: rest ∧ length row0 = n ∧ length rest = n.
Proof.
  exists (filter (λ j, j ≠ 0) (seq 0 (S n))),
         (map (λ i, filter (λ j, j ≠ i) (seq 0 (S n))) (seq 1 n)).
  split; [done|]. split; [|by rewrite length_map, length_seq].
  rewrite <- cons_seq, filter_cons_False by (intros ?; done).
  rewrite <- fmap_S_seq, length_filter_fmap.
  assert (∀ l : list nat, filter (λ x, S x ≠ 0) l = l) as ->; [|apply length_seq].
  induction l as [|x l IH]; [done|]. by rewrite filter_cons_True, IH.
Qed.

(** X14.  [all_candidate_restricted_scores] raises [IndexError] when there
    is no node to read the number of candidates from (an empty [C], or
    [C=None] for data without variables), and under the fair prior when
    [C[0]] lists [n] candidates or more, the full mask having no entry in
    the prior's table.  Called with [C=None] on data with at least one
    variable it returns a table with a row for every variable. *)
Theorem candidate_table_errors
    (n : nat) (p : prior_name) (mid : Z) (scorer : Z → list Z → float)
    (scorer_table : list (list nat) → nat → N → float) :
  let ls := init n p mid scorer in
  (∃ msg, all_candidate_restricted_scores ls scorer_table (Some [])
          = Raise (IndexError msg))
  ∧ (n = 0 →
     ∃ msg, all_candidate_restricted_scores ls scorer_table None
            = Raise (IndexError msg))
  ∧ (∀ row0 rest, p = fair → n ≤ length row0 →
     ∃ msg, all_candidate_restricted_scores ls scorer_table (Some (row0 :: rest))
            = Raise (IndexError msg))
  ∧ (0 < n → ∃ table,
       all_candidate_restricted_scores ls scorer_table None = Ok table
       ∧ length table = n).
Proof.
  intros ls. split; [by eexists|]. split; [intros ->; by eexists|]. split.
  - intros row0 rest -> Hn. eexists.
    unfold all_candidate_restricted_scores. cbn [prior ls init].
    fold ls. set (K := length row0).
    assert (0 < 2 ^ K) as Hpos by (apply Nat.neq_0_lt_0, Nat.pow_nonzero; lia).
    rewrite (collect_raise _ _ (popcount (2 ^ N.of_nat K - 1))
               (IndexError "index out of bounds")); [done| | |].
    + apply list_elem_of_fmap. exists (2 ^ K - 1). split.
      * f_equal. rewrite Nat2N.inj_sub, Nat2N.inj_pow. done.
      * apply elem_of_seq. lia.
    + unfold ls. rewrite priorf_init, popcount_ones. by rewrite decide_False by lia.
    + intros k e _. unfold ls. rewrite priorf_init. case_decide; [done|]. by intros [= <-].
  - intros Hn. unfold all_candidate_restricted_scores. cbn [data_n prior ls init]. fold ls.
    destruct n as [|n']; [lia|].
    destruct (all_others_cons n') as (row0 & rest & -> & Hrow0 & Hrest). rewrite Hrow0.
    destruct (candidate_penalties_run (S n') p mid scorer n') as (penalties & Hcollect & _);
      [right; lia|].
    fold ls in Hcollect. rewrite Hcollect. eexists. split; [done|].
    rewrite length_map, length_seq. simpl. by rewrite Hrest.
Qed.

(** ** Counting the parent sets outside the candidates *)

Lemma combinations_length {A} (k : nat) (l : list A) :
  length (combinations k l) = comb (length l) k.
Proof.
  revert k. induction l as [|x l IH]; intros [|k]; simpl; try done.
  by rewrite length_app, length_map, !IH.
Qed.

Lemma combinations_members {A} (k : nat) (l pset : list A) :
  pset ∈ combinations k l → length pset = k ∧ k ≤ length l.
Proof.
  revert k pset. induction l as [|x l IH]; intros [|k] pset; simpl.
  - by intros ->%list_elem_of_singleton.
  - by intros ?%elem_of_nil.
  - intros ->%list_elem_of_singleton. split; [done|lia].
  - intros [(q & -> & Hq)%list_elem_of_fmap|Hp]%elem_of_app.
    + destruct (IH _ _ Hq) as [Hlen Hin]. simpl. lia.
    + destruct (IH _ _ Hp) as [Hlen Hin]. lia.
Qed.

Lemma combinations_within (R : gset nat) (k : nat) (l : list nat) :
  length (filter (λ pset, list_to_set pset ⊆ R) (combinations k l))
  = comb (length (filter (.∈ R) l)) k.
Proof.
  revert k. induction l as [|x l IH]; intros [|k].
  - cbn [combinations]. rewrite filter_cons_True; [done|]. apply empty_subseteq.
  - done.
  - cbn [combinations]. rewrite comb_0, filter_cons_True; [done|]. apply empty_subseteq.
  - cbn [combinations]. rewrite filter_app, length_app, IH, length_filter_fmap.
    rewrite filter_cons. case_decide as Hx.
    + rewrite (list_filter_iff _ (λ pset, list_to_set pset ⊆ R)).
      2:{ intros q. simpl. split.
          - intros Hq u Hu. apply Hq, elem_of_union. by right.
          - intros Hq u [->%elem_of_singleton|Hu]%elem_of_union; [done|by apply Hq]. }
      rewrite IH. reflexivity.
    + rewrite (list_filter_iff _ (λ _, False)).
      2:{ intros q. simpl. split; [|done]. intros Hq. apply Hx, Hq, elem_of_union.
          left. by apply elem_of_singleton. }
      assert (∀ qs : list (list nat), filter (λ _, False) qs = []) as ->; [|done].
      induction qs as [|q qs IHq]; [done|]. by rewrite filter_cons_False by (intros []).
Qed.

Lemma length_filter_not {A} (P : A → Prop) `{∀ x, Decision (P x)} (l : list A) :
  length (filter (λ x, ¬ P x) l) = length l - length (filter P l).
Proof.
  induction l as [|x l IH]; [done|]. rewrite !filter_cons.
  pose proof (length_filter P l). destruct (decide (P x)).
  - rewrite decide_False by tauto. simpl. lia.
  - rewrite decide_True by done. simpl. lia.
Qed.

Lemma others_length (n v : nat) :
  v < n → length (filter (λ u, u ≠ v) (seq 0 n)) = n - 1.
Proof.
  intros Hv. rewrite length_filter_not.
  rewrite length_seq.
  assert (filter (λ u, u = v) (seq 0 n) ≡ₚ [v]) as ->; [|done].
  apply NoDup_Permutation.
  - apply NoDup_filter, NoDup_seq.
  - apply NoDup_singleton.
  - intros u. rewrite list_elem_of_filter, elem_of_seq, list_elem_of_singleton. lia.
Qed.

Lemma candidates_among_others (n v : nat) (row : list nat) :
  NoDup row → (∀ u, u ∈ row → u < n ∧ u ≠ v) →
  length (filter (.∈ list_to_set (C:=gset nat) row) (filter (λ u, u ≠ v) (seq 0 n)))
  = length row.
Proof.
  intros Hnd Hrow. apply Permutation_length, NoDup_Permutation; [|done|].
  - apply NoDup_filter, NoDup_filter, NoDup_seq.
  - intros u. rewrite !list_elem_of_filter, elem_of_list_to_set, elem_of_seq.
    split; [tauto|]. intros Hu. destruct (Hrow u Hu). repeat split; [done|done|lia|lia].
Qed.

Lemma sum_differences (A B : nat → nat) (ks : list nat) :
  (∀ k, k ∈ ks → B k ≤ A k) →
  foldr Z.add 0%Z (map (λ k, Z.of_nat (A k) - Z.of_nat (B k))%Z ks)
  = Z.of_nat (sum_list (map (λ k, A k - B k) ks)).
Proof.
  induction ks as [|k ks IH]; intros Hle; [done|]. simpl.
  rewrite IH by (intros k' Hk'; apply Hle; by right).
  pose proof (Hle k ltac:(left)). lia.
Qed.

Lemma length_filter_bind {A B} (P : B → Prop) `{∀ y, Decision (P y)}
    (f : A → list B) (l : list A) :
  length (filter P (l ≫= f)) = sum_list (map (λ x, length (filter P (f x))) l).
Proof.
  induction l as [|x l IH]; [done|]. csimpl.
  by rewrite filter_app, length_app, IH.
Qed.

Lemma complementary_loop_run {W} (n : nat) (p : prior_name) (mid : Z)
    (scorer : Z → list Z → float) (to_np64 : gset nat → Z → W) (v : nat)
    (C : list (list nat)) (row : list nat) (k : Z) (allocated : nat)
    (todo : list (list nat)) (i : nat) (psets_ : list W) (scores_ : list float) :
  let ls := init n p mid scorer in
  let outside := filter (λ pset, ¬ list_to_set pset ⊆@{gset nat} list_to_set row) todo in
  C !! v = Some row →
  (∀ pset, pset ∈ todo → length pset < n) →
  i + length outside ≤ allocated →
  ∃ r, complementary_loop ls to_np64 v C k allocated todo i psets_ scores_ = Ok r
       ∧ rows r = allocated
       ∧ length (psets r) = length psets_ + length outside
       ∧ length (scores r) = length scores_ + length outside.
Proof.
  intros ls outside Hrow. subst outside.
  revert i psets_ scores_. induction todo as [|pset todo IH]; intros i psets_ scores_ Hlen Hi.
  - eexists. split; [done|]. simpl. split; [done|]. split; lia.
  - cbn [complementary_loop]. rewrite Hrow. rewrite filter_cons in Hi |- *.
    destruct (decide (list_to_set pset ⊆@{gset nat} list_to_set row)) as [Hsub|Hsub].
    + rewrite bool_decide_eq_true_2 by done.
      rewrite decide_False in Hi |- * by tauto.
      apply IH; [intros q Hq; apply Hlen; by right|done].
    + rewrite bool_decide_eq_false_2 by done.
      rewrite decide_True in Hi |- * by done. simpl in Hi.
      destruct (_local_init_ok n p mid scorer (Z.of_nat v) (Z.of_nat <$> pset)) as [s Hs].
      { rewrite length_fmap. apply Hlen. left. }
      fold ls in Hs. rewrite Hs. rewrite bool_decide_eq_true_2 by lia.
      destruct (IH (S i) (psets_ ++ [to_np64 (list_to_set pset) k]) (scores_ ++ [s]))
        as (r & Hr & Hrows & Hp & Hsc);
        [intros q Hq; apply Hlen; by right|lia|].
      exists r. split; [done|]. split; [done|].
      rewrite Hp, Hsc, !length_app. simpl. lia.
Qed.

(** X15.  [complementary_scores(v, C, d)] fills its arrays exactly: when
    [C] gives every one of the [n] nodes the same number [K] of candidates,
    those of [v] being distinct nodes other than [v], and [subsets] yields
    the combinations of 1 up to [d] members in increasing size, the call
    returns, and the number of rows written equals the number of rows
    allocated, the sum over [k = 1..d] of [comb(n-1, k) - comb(K, k)]: no
    row is left uninitialised and no write falls outside the arrays. *)
Theorem complementary_scores_fills_its_arrays {W}
    (n : nat) (p : prior_name) (mid : Z) (scorer : Z → list Z → float)
    (to_np64 : gset nat → Z → W)
    (subsets : list nat → nat → nat → list (list nat))
    (v : nat) (C : list (list nat)) (row0 row : list nat) (d : nat) :
  let ls := init n p mid scorer in
  let K := length row0 in
  length C = n →
  C !! 0 = Some row0 →
  C !! v = Some row →
  length row = K →
  NoDup row →
  (∀ u, u ∈ row → u < n ∧ u ≠ v) →
  1 ≤ d →
  (∀ l, subsets l 1 d = seq 1 d ≫= λ k', combinations k' l) →
  ∃ r, complementary_scores ls to_np64 subsets v C d = Ok r
       ∧ rows r = sum_list (map (λ k', comb (n - 1) k' - comb K k') (seq 1 d))
       ∧ length (psets r) = rows r
       ∧ length (scores r) = rows r.
Proof.
  intros ls K HC Hrow0 Hrow HK Hnd Hmem Hd Hsubsets.
  assert (v < n) as Hv by (rewrite <- HC; by apply lookup_lt_Some in Hrow).
  unfold complementary_scores. rewrite Hrow0, Hsubsets, HC. cbn [data_n ls init].
  fold ls. fold K.
  set (others := filter (λ u, u ≠ v) (seq 0 n)).
  set (R := list_to_set (C:=gset nat) row).
  assert (∀ k', comb K k' ≤ comb (n - 1) k') as Hle.
  { intros k'. rewrite <- HK, <- (candidates_among_others n v row Hnd Hmem).
    rewrite <- (others_length n v Hv). fold others.
    rewrite <- combinations_within, <- combinations_length. apply length_filter. }
  rewrite sum_differences by (intros; apply Hle).
  rewrite <- cons_seq. cbn [map sum_list]. rewrite !comb_0. change (1 - 1) with 0.
  rewrite Nat.add_0_l, bool_decide_eq_false_2 by lia. rewrite Nat2Z.id.
  set (allocated := sum_list (map (λ k', comb (n - 1) k' - comb K k') (seq 1 d))).
  set (todo := seq 1 d ≫= λ k', combinations k' others).
  assert (length (filter (λ pset, ¬ list_to_set pset ⊆ R) todo) = allocated) as Hcount.
  { unfold todo, allocated. rewrite length_filter_bind. f_equal.
    apply map_ext. intros k'. rewrite length_filter_not, combinations_length.
    rewrite combinations_within. unfold others at 1. rewrite (others_length n v Hv).
    unfold R, others. by rewrite (candidates_among_others n v row Hnd Hmem), HK. }
  destruct (complementary_loop_run n p mid scorer to_np64 v C row
              ((Z.of_nat n - 1) `div` 64 + 1)%Z allocated todo 0 [] [])
    as (r & Hr & Hrows & Hp & Hsc); [done| |fold R; rewrite Hcount; lia|].
  { intros pset (k' & Hpset & Hk')%list_elem_of_bind.
    apply combinations_members in Hpset as [Hlen Hbound].
    unfold others in Hbound. rewrite (others_length n v Hv) in Hbound. lia. }
  fold ls in Hr. exists r. split; [exact Hr|]. fold R in Hp, Hsc.
  rewrite Hp, Hsc, Hcount, Hrows. done.
Qed.

End TableExtras.

(* ===================================================================== *)
(** * The properties above on the toy instances *)
(* ===================================================================== *)

Section ToyExtras.
Import Toy.

(** In the exact model nothing lies below [-inf - y]. *)
Lemma LogQ_nothing_below_neg_inf (e y : LogQ.t) : flt e (fsub neg_inf y) = false.
Proof. by destruct e, y. Qed.

Lemma brute_walk_member (v : nat) (threshold acc : LogQ.t) (masks : list N) (last : N) :
  (masks = [] ∧ brute_walk score_array v threshold acc masks last = last)
  ∨ brute_walk score_array v threshold acc masks last ∈ masks.
Proof.
  revert acc last. induction masks as [|P rest IH]; intros acc last; [by left|].
  right. cbn [brute_walk]. destruct (LogQ.lt _ _); [left|].
  destruct (IH (LogQ.lae acc (score_array v P)) P) as [[-> ->]|Hin]; [left|by right].
Qed.

(** The toy restricted cache samples within [U] and meets [T]. *)
Lemma c_r_score_keeps_to_U_and_T : restricted_sampler_ok c_r_score.
Proof.
  intros v U T threshold pset. subst pset. cbn [Score.cr_sample_pset c_r_score].
  unfold brute_sample_pset.
  destruct (brute_walk_member v threshold LogQ.NegInf (masks_within U T) 0%N)
    as [[Hnone ->]|Hin].
  - split; [apply N.land_0_l|]. intros HUT. exfalso.
    assert (N.land U T ∈ masks_within U T) as Hmem; [|rewrite Hnone in Hmem; by apply elem_of_nil in Hmem].
    apply list_elem_of_filter. split.
    + unfold eligible. apply andb_true_iff. split.
      * apply N.eqb_eq. by rewrite (N.land_comm U T), <- N.land_assoc, N.land_diag.
      * apply orb_true_iff. right. apply negb_true_iff, N.eqb_neq.
        by rewrite <- N.land_assoc, N.land_diag.
    + apply list_elem_of_fmap. exists (N.to_nat (N.land U T)). split; [by rewrite N2Nat.id|].
      apply elem_of_seq. pose proof (N.land_le_l U T). lia.
  - apply list_elem_of_filter in Hin as [Hel _]. unfold eligible in Hel.
    apply andb_true_iff in Hel as [HU HT]. apply N.eqb_eq in HU. split; [done|].
    intros HUT. apply orb_true_iff in HT as [HT|HT].
    + apply N.eqb_eq in HT. subst T. by rewrite N.land_0_r in HUT.
    + by apply negb_true_iff, N.eqb_neq in HT.
Qed.

(** The toy complement cache [c_c_within] samples within [U] and meets [T]. *)
Lemma c_c_within_keeps_to_U_and_T : complement_sampler_ok c_c_within.
Proof.
  intros v U T threshold pset. subst pset. cbn [Score.cc_sample_pset c_c_within fst].
  split.
  - intros u Hu. by apply elem_of_intersection in Hu as [Hu _].
  - intros HUT Hnone. apply HUT. apply set_eq. intros u. split; [|by intros ?%elem_of_empty].
    intros Hu. rewrite <- Hnone. apply elem_of_intersection. split; [done|].
    by apply elem_of_intersection in Hu as [_ Hu].
Qed.

Lemma score3_complement_ok cc :
  Score.c_c_score score3 = Some cc → complement_sampler_ok cc.
Proof. intros [=]. Qed.

Lemma score3_K1_within_complement_ok cc :
  Score.c_c_score score3_K1_within = Some cc → complement_sampler_ok cc.
Proof. intros [= <-]. exact c_c_within_keeps_to_U_and_T. Qed.

(** Node 2 has the single candidate 0; with [U = {0, 1}] and [T = {1}] the
    parent set comes from the complement cache and contains 1. *)
Lemma sample_pset_respects_U_and_T_witness :
  ∃ fam family_score w',
    Score.sample_pset score3_K1_within 2 {[0; 1]} {[1]} world0 = (Ok (fam, family_score), w')
    ∧ fam.1 = 2 ∧ fam.2 ⊆ {[0; 1]} ∧ ∃ u, u ∈ fam.2 ∧ u ∈ ({[1]} : gset nat).
Proof.
  destruct (Score.sample_pset score3_K1_within 2 {[0; 1]} {[1]} world0)
    as [[[fam family_score]|e] w'] eqn:Hrun.
  - exists fam, family_score, w'. split; [done|].
    assert (({[1]} : gset nat) ⊆ {[0; 1]}) as Hsub.
    { intros u ->%elem_of_singleton. apply elem_of_union. right. by apply elem_of_singleton. }
    destruct (sample_pset_respects_U_and_T score3_K1_within 2 [0] {[0; 1]} {[1]} world0
                fam family_score w' LogQ_nothing_below_neg_inf c_r_score_keeps_to_U_and_T
                score3_K1_within_complement_ok eq_refl Hsub Hrun)
      as (Hv & HU & HT).
    split; [done|]. split; [done|]. apply HT. by apply (bool_decide_unpack _).
  - apply (f_equal fst) in Hrun. vm_compute in Hrun. discriminate Hrun.
Defined.

(** Without a complement cache and with [T = {0}] outside the candidates of
    node 0 the call raises, and what it raises is the [AttributeError]. *)
Lemma sample_pset_only_raises_AttributeError_witness :
  ∃ w', Score.sample_pset score3 0 {[1]} {[0]} world0
        = (Raise (AttributeError "'NoneType' object has no attribute 'sample_pset'"), w').
Proof.
  destruct (Score.sample_pset score3 0 {[1]} {[0]} world0) as [[out|e] w'] eqn:Hrun.
  - apply (f_equal fst) in Hrun. vm_compute in Hrun. discriminate Hrun.
  - exists w'.
    destruct (sample_pset_only_raises_AttributeError score3 0 [1; 2] {[1]} {[0]} world0 e w'
                c_r_score_keeps_to_U_and_T eq_refl Hrun) as [-> _].
    reflexivity.
Defined.

Lemma sample_pset_T_outside_candidates_witness :
  Score.sample_pset score3 0 {[1]} {[0]} world0
  = (Raise (AttributeError "'NoneType' object has no attribute 'sample_pset'"),
     after world0 1 []).
Proof.
  assert (({[0]} : gset nat) ≠ ∅) as HT by (by apply (bool_decide_unpack _)).
  assert (({[0]} : gset nat) ∩ list_to_set [1; 2] = ∅) as Hout
    by (by apply (bool_decide_unpack _)).
  apply (proj1 (sample_pset_T_outside_candidates score3 0 [1; 2] {[1]} {[0]} world0
                  LogQ_nothing_below_neg_inf eq_refl HT Hout)).
  reflexivity.
Defined.

(** On [({0}, {1, 2})]: three families, and node 1 has a parent in [{0}]. *)
Lemma sample_DAG_respects_block_order_witness :
  ∃ DAG DAG_score w',
    Score.sample_DAG score3 R012 world0 = (Ok (DAG, DAG_score), w')
    ∧ length DAG = 3
    ∧ ∃ fam u, DAG !! 1 = Some fam ∧ fam.1 = 1 ∧ u ∈ fam.2 ∧ u ∈ ({[0]} : gset nat).
Proof.
  destruct (Score.sample_DAG score3 R012 world0) as [[[DAG DAG_score]|e] w'] eqn:Hrun.
  - exists DAG, DAG_score, w'. split; [done|].
    destruct (sample_DAG_respects_block_order score3 R012 world0 DAG DAG_score w'
                LogQ_nothing_below_neg_inf c_r_score_keeps_to_U_and_T
                score3_complement_ok R012_ordered_partition Hrun) as [Hlen Hfam].
    change (Score.n score3) with 3 in Hlen. split; [exact Hlen|].
    destruct (lookup_lt_is_Some_2 DAG 1) as [fam Hlook]; [rewrite Hlen; lia|].
    assert (1 ∈ ({[1; 2]} : gset nat)) as Hin by (by apply (bool_decide_unpack _)).
    destruct (Hfam 1 fam 1 {[1; 2]} Hlook eq_refl Hin) as (Hv & _ & _ & Hprev).
    destruct (Hprev ltac:(lia)) as (u & T & [= <-] & Hu & HuT).
    by exists fam, u.
  - apply (f_equal fst) in Hrun. vm_compute in Hrun. discriminate Hrun.
Defined.

Lemma sample_DAG_acyclic_witness :
  ∃ DAG DAG_score w',
    Score.sample_DAG score3 R012 world0 = (Ok (DAG, DAG_score), w')
    ∧ ¬ tc (parent_in DAG) 1 1.
Proof.
  destruct (Score.sample_DAG score3 R012 world0) as [[[DAG DAG_score]|e] w'] eqn:Hrun.
  - exists DAG, DAG_score, w'. split; [done|].
    apply (sample_DAG_acyclic score3 R012 world0 DAG DAG_score w'
             LogQ_nothing_below_neg_inf c_r_score_keeps_to_U_and_T
             score3_complement_ok R012_ordered_partition Hrun).
  - apply (f_equal fst) in Hrun. vm_compute in Hrun. discriminate Hrun.
Defined.

(** Three variables and no block: the first turn fails and nothing has been
    drawn or called. *)
Lemma sample_DAG_unchecked_partition_witness :
  ∃ msg, Score.sample_DAG score3 [] world0 = (Raise (UnboundLocalError msg), world0).
Proof.
  apply (proj1 (sample_DAG_unchecked_partition score3 [] world0)); [done|].
  change (Score.n score3) with 3. lia.
Defined.

(** Three variables and the default [K = 2]: no complement cache. *)
Lemma default_K_builds_complement_above_17_witness :
  ¬ is_Some (Gadget._precompute_candidate_complement_scoring (gadget 2 3 2 3 2) scorer
               (λ _ _ _ _, c_c_score)).
Proof.
  intros Hbuilt.
  apply (proj1 (default_K_builds_complement_above_17 (gadget 2 3 2 3 2) scorer
                  (λ _ _ _ _, c_c_score) (Some 2%Z) 3 2 3 2 (LogQ.log_ratio 1 10)
                  (LogQ.log_ratio 3 2) eq_refl))
    in Hbuilt.
  simpl in Hbuilt. lia.
Defined.

(** Three iterations thinned by two record two DAGs. *)
Lemma run_mcmc_number_of_dags_witness :
  ∃ dags dag_scores s',
    Gadget._run_mcmc (gadget 2 3 2 3 2) score3 run0 = (Ok (dags, dag_scores), s')
    ∧ length dags = 2 ∧ length dag_scores = 2.
Proof.
  destruct (Gadget._run_mcmc (gadget 2 3 2 3 2) score3 run0)
    as [[[dags dag_scores]|e] s'] eqn:Hrun.
  - exists dags, dag_scores, s'. split; [done|].
    apply (run_mcmc_number_of_dags (gadget 2 3 2 3 2) score3 run0 dags dag_scores s');
      [simpl; lia|exact Hrun].
  - apply (f_equal fst) in Hrun. vm_compute in Hrun. discriminate Hrun.
Defined.

(** With four chains the second temperature, [1/3] in binary64, lies
    between [0.0] and [1.0]; with [mc3 = 0] there is a single sampler. *)
Lemma init_mcmc_temperatures_in_unit_interval_witness :
  (tle PrimFloat.zero (Binary64.truediv 1 3) ∧ tle (Binary64.truediv 1 3) PrimFloat.one)
  ∧ ∃ chain, (Gadget._init_mcmc (gadget 2 0 2 3 2) None).2 = Gadget.Single chain
             ∧ Gadget.temperature chain = None.
Proof.
  split.
  - set (g := gadget 2 4 2 3 2).
    set (mk := λ i : Z,
           {| Gadget.pm_C := Gadget.C g;
              Gadget.pm_score := (Gadget._init_mcmc (temp := PrimFloat.float) g None).1;
              Gadget.pm_d := Gadget.d (Gadget.prm g);
              Gadget.temperature := Some (Binary64.truediv i 3) |}).
    apply (proj1 (init_mcmc_temperatures_in_unit_interval g None)
             (Binary64_ladders 3 ltac:(lia)) (map mk (seqZ 0 4)) (mk 1%Z)).
    + reflexivity.
    + apply list_elem_of_fmap. exists 1%Z. split; [done|]. apply elem_of_seqZ. lia.
    + reflexivity.
  - apply (proj2 (init_mcmc_temperatures_in_unit_interval (gadget 2 0 2 3 2) None)).
    simpl. lia.
Defined.

(** A text of integers only: [Data] fails on the missing attribute. *)
Lemma Data_init_from_path_never_discrete_witness :
  Data.init (ndarray := Data.dtype) id id (λ _ dt, dt) (Data.of_str "0 1 1")
  = inl Data.AttributeError_discrete.
Proof.
  apply (proj1 (proj2 (Data_init_from_path_never_discrete (ndarray := Data.dtype)
                         id id (λ _ dt, dt) "0 1 1"))).
  reflexivity.
Defined.

(** Two, three and no distinct values. *)
Lemma arities_count_distinct_values_witness :
  Data.arities 32 [[0; 1; 1; 0]; [2; 0; 1; 2]; []]%Z = [2; 3; 1].
Proof.
  rewrite (arities_count_distinct_values 32 [[0; 1; 1; 0]; [2; 0; 1; 2]; []]%Z).
  - vm_compute. reflexivity.
  - lia.
  - repeat constructor; vm_compute; discriminate.
Defined.

(** Three variables under the fair prior: the entry of node 0 for the mask
    [01], the parent set [{1}], is the local score of that parent set. *)
Lemma candidate_table_agrees_with_local_witness :
  ∃ table s,
    LocalScore.all_candidate_restricted_scores (LocalScore.init 3 LocalScore.fair (-1) scorer)
      scorer_table (Some [[1; 2]; [0; 2]; [0; 1]]) = Ok table
    ∧ length table = 3
    ∧ table !! 0 ≫= (.!! 1) = Some s
    ∧ LocalScore._local (LocalScore.init 3 LocalScore.fair (-1) scorer) 0
        (mask_pset [1; 2] 1) = Ok s.
Proof.
  destruct (candidate_table_agrees_with_local 3 LocalScore.fair (-1) scorer scorer_table
              [1; 2] [[0; 2]; [0; 1]]) as (table & Htable & Hlen & Hentry);
    [right; simpl; lia|].
  destruct (Hentry 0 [1; 2] 1%N eq_refl eq_refl ltac:(simpl; lia) eq_refl)
    as (s & Hs & Hlocal).
  by exists table, s.
Defined.

(** Two variables with two candidates each under the fair prior: the table
    cannot be built. *)
Lemma candidate_table_errors_witness :
  ∃ msg,
    LocalScore.all_candidate_restricted_scores (LocalScore.init 2 LocalScore.fair (-1) scorer)
      scorer_table (Some [[1; 0]; [0; 1]]) = Raise (IndexError msg).
Proof.
  apply (proj1 (proj2 (proj2 (candidate_table_errors 2 LocalScore.fair (-1) scorer
                                scorer_table)))); [done|simpl; lia].
Defined.

(** Four variables, one candidate each, parent sets of up to two members:
    [(3 - 1) + (3 - 0) = 5] rows are allocated and written for node 3. *)
Lemma complementary_scores_fills_its_arrays_witness :
  ∃ r, LocalScore.complementary_scores (LocalScore.init 4 LocalScore.fair 2 scorer)
         (λ pset _, pset) subsets 3 C4 2 = Ok r
       ∧ LocalScore.rows r = 5
       ∧ length (LocalScore.psets r) = 5
       ∧ length (LocalScore.scores r) = 5.
Proof.
  destruct (complementary_scores_fills_its_arrays 4 LocalScore.fair 2 scorer
              (λ pset _, pset) subsets 3 C4 [1] [0] 2)
    as (r & Hr & Hrows & Hpsets & Hscores).
  - reflexivity.
  - reflexivity.
  - reflexivity.
  - reflexivity.
  - by apply (bool_decide_unpack (NoDup [0])).
  - intros u Hu. apply list_elem_of_singleton in Hu as ->. lia.
  - lia.
  - reflexivity.
  - exists r. split; [exact Hr|]. rewrite Hpsets, Hscores, Hrows. by vm_compute.
Defined.

End ToyExtras.
